(** * gemmbitserial: bit-serial matrices, block-size solver and GEMM kernel

    A shallow embedding of [gemmbitserial.hpp] (the bit-packed library) and
    of [gemm-bitserial.cpp] (the bitmap prototype), followed by the
    properties of the specification and by further properties of the code.

    Conventions of the embedding.
    - [uint64_t] values are integers of [Z]; every operation that can leave
      the range [0, 2^64) in C++ is followed by [wrap64].  [int32_t]
      accumulators wrap with [wrap32], [uint8_t] conversions with
      [to_uint8].
    - The template parameter [T] of the importers and of the exporter is an
      integer type; its values are integers of [Z], and the conversion
      [(uint8_t) x] is reduction modulo 256 whatever the width of [T].
    - A buffer is a [list Z]; reading outside it yields 0 and writing
      outside it leaves it unchanged (both are undefined in C++).
    - [float] and [double] values are the binary32 and binary64 numbers of
      IEEE 754 ([spec_float] of the standard library), every operation
      rounded to nearest, ties to even.
    - [assert] failures, traps and exceptions are [None] (or [Throw]); so
      is, in the solver, the conversion of a float to an integer type that
      cannot hold it, to which C++ gives no value. *)

From Stdlib Require Import ZArith List Bool Lia FinFun SpecFloat.
From Stdlib Require String.
Import ListNotations.
Local Open Scope Z_scope.

Module gemmbitserial.

(** ** Machine integers *)

Definition wrap64 (x : Z) : Z := x mod 2 ^ 64.

Definition wrap32 (x : Z) : Z := (x + 2 ^ 31) mod 2 ^ 32 - 2 ^ 31.

Definition to_uint8 (x : Z) : Z := x mod 2 ^ 8.

(** The [int] expression [1 << b].  For [b >= 32] C++ gives it no value;
    the embedding takes what the shift instructions of x86-64 and AArch64
    compute for a 32-bit operand, the count reduced modulo 32.  The
    properties below that depend on it are stated for counts below 32. *)
Definition shl_int (b : Z) : Z := wrap32 (Z.shiftl 1 (b mod 32)).

(** The index values of [for (uint64_t i = 0; i < n; i++)]. *)
Definition Zrange (n : Z) : list Z := map Z.of_nat (seq 0 (Z.to_nat n)).

Fixpoint list_update (n : nat) (f : Z -> Z) (l : list Z) : list Z :=
  match l, n with
  | [], _ => []
  | x :: t, O => f x :: t
  | x :: t, S k => x :: list_update k f t
  end.

(** ** alignTo
    [in % af] traps when [af = 0]; the callers below guard that case. *)
Definition alignTo (i af : Z) : Z :=
  if negb (i mod af =? 0) then wrap64 (i + (af - i mod af)) else i.

(** ** BitSerialMatrix *)

Record BitSerialMatrix : Type := mkBSM {
  issigned : bool;
  nbits : Z;
  nrows : Z;
  ncols : Z;
  nrows_a : Z;
  ncols_a : Z;
  data : list Z
}.

Definition with_data (m : BitSerialMatrix) (d : list Z) : BitSerialMatrix :=
  mkBSM (issigned m) (nbits m) (nrows m) (ncols m) (nrows_a m) (ncols_a m) d.

Definition isBipolar (m : BitSerialMatrix) : bool :=
  (nbits m =? 1) && issigned m.

Definition wordsPerRow (m : BitSerialMatrix) : Z := ncols_a m / 64.

Definition wordsPerBitplane (m : BitSerialMatrix) : Z :=
  wrap64 (nrows_a m * wordsPerRow m).

Definition bitpos (col : Z) : Z := Z.land col (Z.shiftl 1 6 - 1).

(** The position in [data] of the word that [word(bit, row, col)] refers to. *)
Definition word_index (m : BitSerialMatrix) (bit row col : Z) : Z :=
  wrap64 (bit * wordsPerBitplane m + row * wordsPerRow m + Z.shiftr col 6).

Definition word (m : BitSerialMatrix) (bit row col : Z) : Z :=
  nth (Z.to_nat (word_index m bit row col)) (data m) 0.

Definition get (m : BitSerialMatrix) (bit row col : Z) : bool :=
  Z.land (Z.shiftr (word m bit row col) (bitpos col)) 1 =? 1.

(** [memset] of [nbits * wordsPerBitplane() * sizeof(uint64_t)] bytes. *)
Definition clearAll (m : BitSerialMatrix) : BitSerialMatrix :=
  let n := Z.to_nat (wrap64 (nbits m * wordsPerBitplane m * 8) / 8) in
  with_data m (repeat 0 (Nat.min n (length (data m))) ++ skipn n (data m)).

Definition set (m : BitSerialMatrix) (bit row col : Z) : BitSerialMatrix :=
  with_data m
    (list_update (Z.to_nat (word_index m bit row col))
       (fun w => Z.lor w (wrap64 (Z.shiftl 1 (bitpos col)))) (data m)).

Definition unset (m : BitSerialMatrix) (bit row col : Z) : BitSerialMatrix :=
  with_data m
    (list_update (Z.to_nat (word_index m bit row col))
       (fun w => Z.land w (wrap64 (Z.lnot (Z.shiftl 1 (bitpos col))))) (data m)).

(** The largest size in bytes of an array that [new T[n]] asks the
    allocator for; beyond it the expression throws
    [std::bad_array_new_length].  The limit is left to the implementation:
    this is the one of g++ on a 64-bit target, half of the address space
    less the 8 bytes of an array cookie. *)
Definition max_array_bytes : Z := 2 ^ 63 - 8.

(** [alloc].  [new uint64_t[n]] does not initialise the words it returns:
    [fresh] is what the allocator hands out.  It throws when the size in
    bytes passes [max_array_bytes]; running out of memory below that size
    is not modelled.  The other failure is the trap of [alignTo] on a zero
    alignment. *)
Definition alloc (fresh : nat -> Z) (nbits nrows ncols : Z) (issigned : bool)
    (rowalign colalign : Z) : option BitSerialMatrix :=
  if (rowalign =? 0) || (colalign =? 0) then None
  else
    let bsm := mkBSM issigned nbits nrows ncols
                 (alignTo nrows rowalign) (alignTo ncols colalign) [] in
    let wpb := wordsPerBitplane bsm in
    let n := wrap64 (nbits * wpb) in
    if n * 8 >? max_array_bytes then None
    else Some (with_data bsm (map fresh (seq 0 (Z.to_nat n)))).

(** [matrix[c * nrows + r]] or [matrix[r * ncols + c]]. *)
Definition read_elem (m : BitSerialMatrix) (matrix : list Z)
    (readColMajor : bool) (r c : Z) : Z :=
  if readColMajor
  then nth (Z.to_nat (wrap64 (c * nrows m + r))) matrix 0
  else nth (Z.to_nat (wrap64 (r * ncols m + c))) matrix 0.

(** The loop [for b < nbits: if (currentElem_uint8 & (1 << b)) set(b, r, c)]. *)
Definition store_bits (m : BitSerialMatrix) (currentElem_uint8 r c : Z)
    : BitSerialMatrix :=
  fold_left
    (fun m b =>
       if negb (Z.land currentElem_uint8 (shl_int b) =? 0) then set m b r c else m)
    (Zrange (nbits m)) m.

(** The conversion of one element of a non-bipolar matrix to [uint8_t]. *)
Definition to_twos_complement (m : BitSerialMatrix) (currentElem : Z) : Z :=
  if issigned m && (currentElem <? 0) then
    let u := to_uint8 (0 + to_uint8 (shl_int (wrap64 (nbits m - 1)))) in
    to_uint8 (u + to_uint8 (currentElem + shl_int (wrap64 (nbits m - 1))))
  else to_uint8 currentElem.

Definition import_cell (matrix : list Z) (readColMajor : bool)
    (m : BitSerialMatrix) (r c : Z) : BitSerialMatrix :=
  let currentElem := read_elem m matrix readColMajor r c in
  if isBipolar m then
    if currentElem >? 0 then set m 0 r c else m
  else store_bits m (to_twos_complement m currentElem) r c.

Definition importRegular (m : BitSerialMatrix) (matrix : list Z)
    (readColMajor : bool) : BitSerialMatrix :=
  fold_left
    (fun m r =>
       fold_left (fun m c => import_cell matrix readColMajor m r c)
         (Zrange (ncols m)) m)
    (Zrange (nrows m)) (clearAll m).

(** The threshold search of [importRegularAndQuantize]; [ts] are the values
    of [t] still to visit.  The [break] ends the loop with [currentElem = t];
    on the last index the element becomes [t + 1] and the loop goes on (and
    ends there). *)
Fixpoint quantize_loop (m : BitSerialMatrix) (thresholds : list Z)
    (nThres r : Z) (ts : list Z) (currentElem : Z) : Z :=
  match ts with
  | [] => currentElem
  | t :: ts' =>
      if currentElem <=? nth (Z.to_nat (wrap64 (t * nrows m + r))) thresholds 0
      then t
      else if t =? nThres - 1
           then quantize_loop m thresholds nThres r ts' (t + 1)
           else quantize_loop m thresholds nThres r ts' currentElem
  end.

Definition quantize_cell (matrix thresholds : list Z) (nThres : Z)
    (readColMajor : bool) (m : BitSerialMatrix) (r c : Z) : BitSerialMatrix :=
  let currentElem := read_elem m matrix readColMajor r c in
  let q := quantize_loop m thresholds nThres r (Zrange nThres) currentElem in
  store_bits m (to_uint8 q) r c.

Definition importRegularAndQuantize (m : BitSerialMatrix)
    (matrix thresholds : list Z) (nThres : Z) (readColMajor : bool)
    : option BitSerialMatrix :=
  if issigned m then None (* assert(!this->issigned) *)
  else
    Some (fold_left
            (fun m r =>
               fold_left
                 (fun m c => quantize_cell matrix thresholds nThres readColMajor m r c)
                 (Zrange (ncols m)) m)
            (Zrange (nrows m)) (clearAll m)).

(** The value that [exportRegular] rebuilds for the cell [(r, c)]. *)
Definition export_cell (m : BitSerialMatrix) (r c : Z) : Z :=
  if isBipolar m then
    if get m 0 r c then 1 else -1
  else
    fold_left
      (fun currentElem b =>
         if get m b r c then
           if (b =? wrap64 (nbits m - 1)) && issigned m
           then currentElem - shl_int b
           else currentElem + shl_int b
         else currentElem)
      (Zrange (nbits m)) 0.

Definition list_store (i : Z) (v : Z) (l : list Z) : list Z :=
  list_update (Z.to_nat i) (fun _ => v) l.

Definition exportRegular (m : BitSerialMatrix) (matrix : list Z) : list Z :=
  fold_left
    (fun dst r =>
       fold_left
         (fun dst c => list_store (wrap64 (r * ncols m + c)) (export_cell m r c) dst)
         (Zrange (ncols m)) dst)
    (Zrange (nrows m)) matrix.

(** ** Block-size solver

    [computeBlockSize] works on [float]s: binary32 numbers, every operation
    rounded to nearest, ties to even.  Its callers pass [uint64_t] values,
    which C++ converts to [float] at the call; the embedding takes the
    integers and converts them first.  [sqrt] and [floor] are the
    correctly rounded square root and the floor of a float. *)

Definition sizeof_int32_t : Z := 4.

(** The conversion of an integer to [float], and to [double]. *)
Definition float_of_Z (z : Z) : spec_float := binary_normalize 24 128 z 0 false.

Definition double_of_Z (z : Z) : spec_float := binary_normalize 53 1024 z 0 false.

(** [floor] of a finite float, as an integer. *)
Definition floor_float (x : spec_float) : option Z :=
  match x with
  | S754_zero _ => Some 0
  | S754_finite s m e =>
      let v := if s then Z.neg m else Z.pos m in
      Some (if 0 <=? e then v * 2 ^ e else v / 2 ^ (- e))
  | _ => None
  end.

(** [int64_t x = floor(f)]: the floor of [f] when an [int64_t] holds it. *)
Definition int64_of_floor (x : spec_float) : option Z :=
  match floor_float x with
  | Some z => if (- 2 ^ 63 <=? z) && (z <? 2 ^ 63) then Some z else None
  | None => None
  end.

(** The conversion of a float to [uint64_t]: its value with the fraction
    dropped, when a [uint64_t] holds it. *)
Definition uint64_of_float (x : spec_float) : option Z :=
  match x with
  | S754_zero _ => Some 0
  | S754_finite s m e =>
      let v := if 0 <=? e then Z.pos m * 2 ^ e else Z.pos m / 2 ^ (- e) in
      let z := if s then - v else v in
      if (0 <=? z) && (z <? 2 ^ 64) then Some z else None
  | _ => None
  end.

Definition computeBlockSize (lhsMult rhsMult cacheBits dBits : Z)
    : option (Z * Z) :=
  let mul := SFmul 24 128 in
  let add := SFadd 24 128 in
  let sub := SFsub 24 128 in
  let div := SFdiv 24 128 in
  let lhsMult := float_of_Z lhsMult in
  let rhsMult := float_of_Z rhsMult in
  let cacheBits := float_of_Z cacheBits in
  let dBits := float_of_Z dBits in
  let a := mul (mul (float_of_Z sizeof_int32_t) lhsMult) rhsMult in
  let b := mul dBits (add lhsMult rhsMult) in
  let c := SFopp cacheBits in
  let discr := SFsqrt 24 128 (sub (mul b b) (mul (mul (float_of_Z 4) a) c)) in
  if negb (SFltb (float_of_Z 0) discr) then None (* assert(discr > 0) *)
  else
    match int64_of_floor (div (add (SFopp b) discr) (mul (float_of_Z 2) a)),
          int64_of_floor (div (sub (SFopp b) discr) (mul (float_of_Z 2) a)) with
    | Some x0, Some x1 =>
        let x := if x0 >? x1 then x0 else x1 in
        if x >? 0 then
          match uint64_of_float (mul lhsMult (float_of_Z x)),
                uint64_of_float (mul rhsMult (float_of_Z x)) with
          | Some lhsBlock, Some rhsBlock => Some (lhsBlock, rhsBlock)
          | _, _ => None
          end
        else None (* assert(x > 0) *)
    | _, _ => None
    end.

(** The loop of [finetuneBlockSize]; [fuel] bounds the number of rounds. *)
Fixpoint finetune_loop (fuel : nat) (rows bs_div ccand best_cand min_penalty : Z)
    : option Z :=
  match fuel with
  | O => if ccand >? bs_div then None else Some best_cand
  | S fuel' =>
      if ccand >? bs_div then
        let next := wrap64 (ccand - bs_div) in
        if ccand mod bs_div =? 0 then
          let penalty := wrap64 (alignTo rows ccand - rows) in
          if penalty <? min_penalty
          then finetune_loop fuel' rows bs_div next ccand penalty
          else finetune_loop fuel' rows bs_div next best_cand min_penalty
        else finetune_loop fuel' rows bs_div next best_cand min_penalty
      else Some best_cand
  end.

(** [finetuneBlockSize]; a zero [bs_max] traps in [alignTo], a zero [bs_div]
    in [ccand % bs_div]. *)
Definition finetuneBlockSize (rows bs_max bs_div : Z) : option Z :=
  if (bs_max =? 0) || (bs_div =? 0) then None
  else
    finetune_loop (Z.to_nat bs_max) rows bs_div bs_max bs_max
      (wrap64 (alignTo rows bs_max - rows)).

(** ** GEMMContext *)

Record GEMMContext : Type := mkCtx {
  lhs : BitSerialMatrix;
  rhs : BitSerialMatrix;
  lhsBlock : Z;
  rhsBlock : Z;
  res : list Z
}.

Definition isBipolarTimesRegular (ctx : GEMMContext) : bool :=
  (isBipolar (lhs ctx) && negb (isBipolar (rhs ctx)))
  || (negb (isBipolar (lhs ctx)) && isBipolar (rhs ctx)).

Definition isBipolarTimesBipolar (ctx : GEMMContext) : bool :=
  isBipolar (lhs ctx) && isBipolar (rhs ctx).

(** [(alignTo(rows, block) - rows) > 0.1 * rows]: a comparison of
    [double]s, the two [uint64_t] values converted and [0.1] the double
    nearest to one tenth. *)
Definition too_much_waste (rows block : Z) : bool :=
  SFltb
    (SFmul 53 1024 (SFdiv 53 1024 (double_of_Z 1) (double_of_Z 10))
       (double_of_Z rows))
    (double_of_Z (wrap64 (alignTo rows block - rows))).

(** The test of the waste and the fine-tuning of one block; [alignTo]
    traps on a zero block. *)
Definition retune (rows block regblock : Z) : option Z :=
  if block =? 0 then None
  else if too_much_waste rows block then finetuneBlockSize rows block regblock
  else Some block.

(** [allocGEMMContext_base]; the result buffer [new int32_t[n]] is what the
    allocator hands out, and is refused beyond [max_array_bytes]. *)
Definition allocGEMMContext_base (fresh : nat -> Z)
    (lhsRows depth rhsRows lhsBits rhsBits : Z) (lhsSigned rhsSigned : bool)
    (regblock_lhs regblock_d regblock_rhs cacheBits : Z) : option GEMMContext :=
  let colalign := wrap64 (regblock_d * 64) in
  if colalign =? 0 then None
  else
    let depth_al := alignTo depth colalign in
    match computeBlockSize regblock_lhs regblock_rhs cacheBits depth_al with
    | None => None
    | Some (lhsBlock0, rhsBlock0) =>
        let blocks :=
          if (lhsBlock0 >? lhsRows) || (rhsBlock0 >? rhsRows) then
            if (regblock_lhs =? 0) || (regblock_rhs =? 0) then None
            else Some (alignTo lhsRows regblock_lhs, alignTo rhsRows regblock_rhs)
          else
            match retune lhsRows lhsBlock0 regblock_lhs,
                  retune rhsRows rhsBlock0 regblock_rhs with
            | Some l, Some r => Some (l, r)
            | _, _ => None
            end in
        match blocks with
        | None => None
        | Some (lhsBlock, rhsBlock) =>
            match alloc fresh lhsBits lhsRows depth lhsSigned lhsBlock colalign,
                  alloc fresh rhsBits rhsRows depth rhsSigned rhsBlock colalign with
            | Some l, Some r =>
                let n := wrap64 (lhsRows * rhsRows) in
                if n * sizeof_int32_t >? max_array_bytes then None
                else
                  Some (mkCtx l r lhsBlock rhsBlock
                          (map fresh (seq 0 (Z.to_nat n))))
            | _, _ => None
            end
        end
    end.

(** ** The generic kernel *)

(** [arch-generic.hpp], which defines [gemmBitSerial_generic] and
    [sumRows_generic], is not among the sources.  What follows is sections
    4.5 and 4.6 of the specification: the loop over row tiles and bit-plane
    pairs, the AND and popcount micro-kernel, the weight [2^(bL + bR)] with
    its sign, and the bipolar conversions. *)

(** Modelled from the spec: the popcount of a 64-bit word that the
    micro-kernel of the missing [arch-generic.hpp] applies. *)
Definition popcount (w : Z) : Z :=
  fold_right (fun i acc => Z.b2z (Z.testbit w i) + acc) 0 (Zrange 64).

(** Modelled from the spec: the words of one row of one bit-plane, as the
    micro-kernel of the missing [arch-generic.hpp] reads them
    ([rowptr(bit, row)] over [wordsPerRow] words). *)
Definition row_words (m : BitSerialMatrix) (bit row : Z) : list Z :=
  map (fun k => word m bit row (64 * k)) (Zrange (wordsPerRow m)).

(** Modelled from the spec: the micro-kernel of the missing
    [arch-generic.hpp], [sum_k popcount (lhs word k AND rhs word k)]. *)
Definition and_popcount (a b : list Z) : Z :=
  fold_right (fun p acc => popcount (Z.land (fst p) (snd p)) + acc) 0 (combine a b).

(** Modelled from the spec: the per-row popcount of one bit-plane, the
    [row_popcount] of the bipolar correction of the missing
    [arch-generic.hpp]. *)
Definition row_popcount (m : BitSerialMatrix) (bit row : Z) : Z :=
  fold_right (fun w acc => popcount w + acc) 0 (row_words m bit row).

(** Modelled from the spec: [sumRows] of the missing [arch-generic.hpp],
    the per-row popcounts of a one-bit matrix. *)
Definition sumRows (m : BitSerialMatrix) : list Z :=
  map (fun r => row_popcount m 0 r) (Zrange (nrows m)).

(** Modelled from the spec: the accumulation of the missing kernel into the
    result cell [i * rhs.nrows + j], for the cells of one tile pair that are
    logical. *)
Definition accumulate_tile (ctx : GEMMContext) (contrib : Z -> Z -> Z)
    (tl tr : Z) (res : list Z) : list Z :=
  fold_left
    (fun res ii =>
       fold_left
         (fun res jj =>
            let i := tl * lhsBlock ctx + ii in
            let j := tr * rhsBlock ctx + jj in
            if (i <? nrows (lhs ctx)) && (j <? nrows (rhs ctx)) then
              list_update (Z.to_nat (i * nrows (rhs ctx) + j))
                (fun old => wrap32 (old + contrib i j)) res
            else res)
         (Zrange (rhsBlock ctx)) res)
    (Zrange (lhsBlock ctx)) res.

(** Modelled from the spec: the outer algorithm of the missing kernel, over
    LHS row tiles, RHS row tiles and the bit-plane pairs [(bL, bR)] in
    ascending order. *)
Definition tiled_gemm (ctx : GEMMContext) (contrib : Z -> Z -> Z -> Z -> Z)
    (res : list Z) : list Z :=
  fold_left
    (fun res tl =>
       fold_left
         (fun res tr =>
            fold_left
              (fun res bL =>
                 fold_left
                   (fun res bR => accumulate_tile ctx (contrib bL bR) tl tr res)
                   (Zrange (nbits (rhs ctx))) res)
              (Zrange (nbits (lhs ctx))) res)
         (Zrange (nrows_a (rhs ctx) / rhsBlock ctx)) res)
    (Zrange (nrows_a (lhs ctx) / lhsBlock ctx)) res.

(** Modelled from the spec: the sign rule of the missing kernel,
    [signL = lhs.signed /\ bL = lhs.nbits - 1], and the same for the
    right-hand side. *)
Definition top_bit_negative (m : BitSerialMatrix) (b : Z) : bool :=
  issigned m && (b =? nbits m - 1).

(** Modelled from the spec: what the missing kernel adds to the cell
    [(i, j)] for the pair [(bL, bR)] when neither operand is bipolar. *)
Definition contrib_regular (ctx : GEMMContext) (bL bR i j : Z) : Z :=
  let c := and_popcount (row_words (lhs ctx) bL i) (row_words (rhs ctx) bR j) in
  let neg := xorb (top_bit_negative (lhs ctx) bL) (top_bit_negative (rhs ctx) bR) in
  if neg then - (2 ^ (bL + bR) * c) else 2 ^ (bL + bR) * c.

(** Modelled from the spec: what the missing kernel adds when one operand
    is bipolar and the other regular.  The bit-plane [b] of the regular
    operand contributes [(2 p_b - row_popcount) * 2^b], negated on the sign
    bit. *)
Definition contrib_bipolar_regular (ctx : GEMMContext) (bL bR i j : Z) : Z :=
  let p := and_popcount (row_words (lhs ctx) bL i) (row_words (rhs ctx) bR j) in
  if isBipolar (lhs ctx) then
    let v := (2 * p - row_popcount (rhs ctx) bR j) * 2 ^ bR in
    if top_bit_negative (rhs ctx) bR then - v else v
  else
    let v := (2 * p - row_popcount (lhs ctx) bL i) * 2 ^ bL in
    if top_bit_negative (lhs ctx) bL then - v else v.

(** Modelled from the spec: what the missing kernel writes when both
    operands are bipolar, [2p - k] for the AND popcount [p] of the two rows
    and the row width [k]. *)
Definition contrib_bipolar_bipolar (ctx : GEMMContext) (bL bR i j : Z) : Z :=
  let p := and_popcount (row_words (lhs ctx) bL i) (row_words (rhs ctx) bR j) in
  2 * p - ncols (lhs ctx).

(** Modelled from the spec: [gemmBitSerial] of the missing
    [arch-generic.hpp], from a cleared result buffer. *)
Definition gemmBitSerial (ctx : GEMMContext) : list Z :=
  let res0 := map (fun _ => 0) (res ctx) in
  if isBipolarTimesBipolar ctx then tiled_gemm ctx (contrib_bipolar_bipolar ctx) res0
  else if isBipolarTimesRegular ctx then tiled_gemm ctx (contrib_bipolar_regular ctx) res0
  else tiled_gemm ctx (contrib_regular ctx) res0.

End gemmbitserial.

(** ** The bitmap prototype ([gemm-bitserial.cpp])

    [roaring.hh] is the CRoaring library: a bitmap is modelled by the list of
    its members.  [gemm-bitserial.h] does not declare [AccumulateElem],
    [AccumulateVector] and [ThresholdMatrix]; they are taken, like
    [ResultElem], as [int32_t], vectors of them and vectors of such
    vectors.  [A[0]] and [T[0]] of an empty vector, which the three
    operations read before their loops, have no value in C++ (the compiled
    code stops on a segmentation fault): [Undefined].  An index outside a
    vector inside the loops reads the empty vector or 0. *)

Module prototype.

Import gemmbitserial.
Import String.

Inductive result (A : Type) : Type :=
| Ok (a : A)
| Throw (msg : String.string)
| Undefined.
Arguments Ok {A} a.
Arguments Throw {A} msg.
Arguments Undefined {A}.


Definition BitVector : Type := list Z.
Definition BitSerialVector : Type := list BitVector.
Definition BitSerialMatrix : Type := list BitSerialVector.
Definition AccumulateVector : Type := list Z.
Definition ThresholdMatrix : Type := list (list Z).
Definition ResultVector : Type := list Z.

Definition contains (v : BitVector) (i : Z) : bool := existsb (Z.eqb i) v.

Definition and_cardinality (a b : BitVector) : Z :=
  Z.of_nat (List.length (filter (contains b) (nodup Z.eq_dec a))).

Definition wrapu32 (x : Z) : Z := x mod 2 ^ 32.

Definition size {A : Type} (v : list A) : Z := Z.of_nat (List.length v).

Definition not_implemented : String.string :=
  "Not yet implemented: threshold broadcast"%string.

(** The two inner loops over [Abit] and [xbit], shared by
    [bitSerialMatrixVector] and [bitSerialMatrixVectorThreshold]. *)
Definition row_accumulate (Abits : Z) (crow x : BitSerialVector)
    (Asigned xsigned : bool) : Z :=
  let xbits := size x in
  fold_left
    (fun rowres Abit =>
       fold_left
         (fun rowres xbit =>
            let contr :=
              wrapu32 (and_cardinality (nth (Z.to_nat Abit) crow [])
                         (nth (Z.to_nat xbit) x [])) in
            let contr := wrapu32 (Z.shiftl contr (Abit + xbit)) in
            let neg_A := Asigned && (Abit =? wrap64 (Abits - 1)) in
            let neg_x := xsigned && (xbit =? wrap64 (xbits - 1)) in
            let neg := xorb neg_A neg_x in
            wrap32 (rowres + (if neg then wrapu32 (- contr) else contr)))
         (Zrange xbits) rowres)
    (Zrange Abits) 0.

Definition bitSerialMatrixVector (A : BitSerialMatrix) (x : BitSerialVector)
    (cols : Z) (Asigned xsigned : bool) : result AccumulateVector :=
  match A with
  | [] => Undefined (* A[0].size() *)
  | _ :: _ =>
      let Abits := size (nth 0 A []) in
      Ok (fold_left
            (fun ret r =>
               ret ++ [row_accumulate Abits (nth (Z.to_nat r) A []) x Asigned xsigned])
            (Zrange (size A)) [])
  end.

(** The loop [for t < numThres: postthres += (v >= T[t][r]) ? 1 : 0]. *)
Definition count_crossed (T : ThresholdMatrix) (r v : Z) : Z :=
  fold_left
    (fun postthres t =>
       wrap32 (postthres
               + (if v >=? nth (Z.to_nat r) (nth (Z.to_nat t) T []) 0 then 1 else 0)))
    (Zrange (size T)) 0.

(** The loop over the rows of both thresholding functions: [rs] are the rows
    still to visit, [value r] the accumulated value of row [r]. *)
Fixpoint threshold_rows (value : Z -> Z) (T : ThresholdMatrix)
    (rows numThresChans : Z) (rs : list Z) (ret : ResultVector)
    : result ResultVector :=
  match rs with
  | [] => Ok ret
  | r :: rs' =>
      if numThresChans =? rows
      then threshold_rows value T rows numThresChans rs'
             (ret ++ [count_crossed T r (value r)])
      else Throw not_implemented
  end.


Definition threshold (x : AccumulateVector) (T : ThresholdMatrix)
    : result ResultVector :=
  match T with
  | [] => Undefined (* T[0].size() *)
  | _ :: _ =>
      let rows := size x in
      let numThresChans := size (nth 0 T []) in
      threshold_rows (fun r => nth (Z.to_nat r) x 0) T rows numThresChans
        (Zrange rows) []
  end.

End prototype.

(** * Vocabulary of the properties *)

Module spec.

Import gemmbitserial.

(** The number of thresholds of channel [r] that the value [v] reaches. *)
Definition crossed (T : prototype.ThresholdMatrix) (r v : Z) : Z :=
  Z.of_nat
    (length
       (filter (fun t => v >=? nth (Z.to_nat r) (nth (Z.to_nat t) T []) 0)
          (Zrange (prototype.size T)))).

(** What both thresholding functions return for [rows] rows whose
    accumulated values are [value]: an exception when there is a row and the
    channels do not match the rows, the counts otherwise. *)
Definition thresholded (T : prototype.ThresholdMatrix) (value : Z -> Z)
    (rows : Z) : prototype.result prototype.ResultVector :=
  if (rows =? 0) || (prototype.size (nth 0 T []) =? rows)
  then prototype.Ok (map (fun r => crossed T r (value r)) (Zrange rows))
  else prototype.Throw prototype.not_implemented.

(** The rows of padding that the block size [block] costs. *)
Definition padding (rows block : Z) : Z := alignTo rows block - rows.

(** The block sizes that [finetuneBlockSize] looks at: [bs_max] itself, and
    below it, in steps of [bs_div], the multiples of [bs_div] that are
    strictly greater than [bs_div]. *)
Definition tried (bs_max bs_div c : Z) : Prop :=
  c = bs_max
  \/ exists k, 0 <= k /\ c = bs_max - k * bs_div /\ bs_div < c /\ c mod bs_div = 0.

(** A matrix as [alloc] lays it out: logical extents within the padded ones,
    whole words per row, and a buffer of
    [nbits * nrows_a * (ncols_a / 64)] words whose size in bytes fits in 64
    bits. *)
Definition wf (m : BitSerialMatrix) : Prop :=
  0 <= nbits m
  /\ 0 <= nrows m <= nrows_a m
  /\ 0 <= ncols m <= ncols_a m
  /\ ncols_a m mod 64 = 0
  /\ nrows_a m * (ncols_a m / 64) < 2 ^ 64
  /\ nbits m * (nrows_a m * (ncols_a m / 64)) * 8 < 2 ^ 64
  /\ length (data m) = Z.to_nat (nbits m * (nrows_a m * (ncols_a m / 64))).

(** A position of the buffer: bit-plane, padded row, padded column. *)
Definition allocated (m : BitSerialMatrix) (b r c : Z) : Prop :=
  0 <= b < nbits m /\ 0 <= r < nrows_a m /\ 0 <= c < ncols_a m.

(** The row [r] and column [c] name a logical cell. *)
Definition logical (m : BitSerialMatrix) (r c : Z) : bool :=
  (0 <=? r) && (r <? nrows m) && (0 <=? c) && (c <? ncols m).

(** The bit that [importRegular] stores in bit-plane [b] for the element
    [v]. *)
Definition stored_bit (m : BitSerialMatrix) (v b : Z) : bool :=
  if isBipolar m then (b =? 0) && (v >? 0)
  else negb (Z.land (to_twos_complement m v) (shl_int b) =? 0).

(** [m] has the fields of [m0] and a buffer of the same length. *)
Definition shaped (m0 m : BitSerialMatrix) : Prop :=
  exists d, m = with_data m0 d /\ length d = length (data m0).

(** The threshold [thresholds[t][r]] of the flat array. *)
Definition threshold_at (m : BitSerialMatrix) (thresholds : list Z) (t r : Z) : Z :=
  nth (Z.to_nat (wrap64 (t * nrows m + r))) thresholds 0.

(** The level that [importRegularAndQuantize] gives the cell [(r, c)]. *)
Definition quantized (m : BitSerialMatrix) (matrix thresholds : list Z)
    (nThres : Z) (readColMajor : bool) (r c : Z) : Z :=
  quantize_loop m thresholds nThres r (Zrange nThres)
    (read_elem m matrix readColMajor r c).

(** The sum of [f] over the members of [l]. *)
Definition Zsum (f : Z -> Z) (l : list Z) : Z :=
  fold_right (fun x acc => f x + acc) 0 l.

(** The values that a matrix of the precision and signedness of [m] can
    hold: [{-1, +1}] when bipolar, [nbits]-bit two's complement when signed,
    [nbits]-bit unsigned otherwise. *)
Definition in_range (m : BitSerialMatrix) (v : Z) : Prop :=
  if isBipolar m then v = 1 \/ v = -1
  else if issigned m then - 2 ^ (nbits m - 1) <= v < 2 ^ (nbits m - 1)
  else 0 <= v < 2 ^ nbits m.

(** A cleared matrix with the given fields. *)
Definition zero_bsm (sgn : bool) (nb nr nc nra nca : Z) : BitSerialMatrix :=
  mkBSM sgn nb nr nc nra nca (repeat 0 (Z.to_nat (nb * (nra * (nca / 64))))).

(** The values of an [int32_t]. *)
Definition int32 (x : Z) : Prop := - 2 ^ 31 <= x < 2 ^ 31.

(** [T] adds [delta p] to the cell [p] of a buffer of 32-bit accumulators,
    modulo 2^32, and keeps its length. *)
Definition accumulates (T : list Z -> list Z) (delta : nat -> Z) : Prop :=
  forall res,
    length (T res) = length res
    /\ (Forall int32 res -> Forall int32 (T res))
    /\ forall p, (p < length res)%nat ->
         wrap32 (nth p (T res) 0) = wrap32 (nth p res 0 + delta p).

(** A context as [allocGEMMContext_base] builds it: two laid-out matrices of
    the same depth and the same padded depth, positive blocks that divide
    the padded row counts, and one result cell per pair of logical rows. *)
Definition ctx_ok (ctx : GEMMContext) : Prop :=
  wf (lhs ctx) /\ wf (rhs ctx)
  /\ ncols (lhs ctx) = ncols (rhs ctx)
  /\ ncols_a (lhs ctx) = ncols_a (rhs ctx)
  /\ 0 < lhsBlock ctx /\ 0 < rhsBlock ctx
  /\ (lhsBlock ctx | nrows_a (lhs ctx))
  /\ (rhsBlock ctx | nrows_a (rhs ctx))
  /\ length (res ctx) = Z.to_nat (nrows (lhs ctx) * nrows (rhs ctx)).

(** The context after the two operands have been imported. *)
Definition with_operands (ctx : GEMMContext) (A : list Z) (colMajorA : bool)
    (B : list Z) (colMajorB : bool) : GEMMContext :=
  mkCtx (importRegular (lhs ctx) A colMajorA) (importRegular (rhs ctx) B colMajorB)
    (lhsBlock ctx) (rhsBlock ctx) (res ctx).

(** The entry [(i, j)] of the naive product of [A] by the transpose of [B]. *)
Definition naive_gemm (ctx : GEMMContext) (A : list Z) (colMajorA : bool)
    (B : list Z) (colMajorB : bool) (i j : Z) : Z :=
  Zsum (fun k => read_elem (lhs ctx) A colMajorA i k
                 * read_elem (rhs ctx) B colMajorB j k)
    (Zrange (ncols (lhs ctx))).

(** The weight of bit-plane [b]: [2^b], negative on the sign bit. *)
Definition plane_weight (m : BitSerialMatrix) (b : Z) : Z :=
  if top_bit_negative m b then - 2 ^ b else 2 ^ b.

(** Scenario 2 of the specification: two signed 2-bit operands of one row
    and depth 4. *)
Definition scenario2_ctx : GEMMContext :=
  mkCtx (zero_bsm true 2 1 4 1 64) (zero_bsm true 2 1 4 1 64) 1 1 [0].

(** Two bipolar operands of one row and depth 1. *)
Definition bipolar_ctx : GEMMContext :=
  mkCtx (zero_bsm true 1 1 1 1 64) (zero_bsm true 1 1 1 1 64) 1 1 [0].

End spec.

(** * The conversions of the bitmap prototype ([gemm-bitserial.cpp]) *)

Module conversions.

Import gemmbitserial.
Import prototype.

(** [clear] and [add] of a bitmap, on the list of its members. *)
Definition clear (v : BitVector) : BitVector := [].

Definition add (v : BitVector) (i : Z) : BitVector :=
  if contains v i then v else v ++ [i].

(** The loop [for i < n: if ((vec[i] & currentMask) != 0) add(i)]. *)
Definition fill_group (vec : list Z) (n currentMask : Z) (g : BitVector)
    : BitVector :=
  fold_left
    (fun g i =>
       if negb (Z.land (nth (Z.to_nat i) vec 0) currentMask =? 0) then add g i else g)
    (Zrange n) g.

(** [toBitSerialVector]; the state of the loop is [ret] and
    [currentBitGroup], which is cleared at the start of every round and
    whose initial content ([BitVector currentBitGroup(n)]) is never read. *)
Definition toBitSerialVector (vec : list Z) (n bits : Z) : BitSerialVector :=
  fst
    (fold_left
       (fun st b =>
          let currentMask := to_uint8 (shl_int b) in
          let currentBitGroup := fill_group vec n currentMask (clear (snd st)) in
          (fst st ++ [currentBitGroup], currentBitGroup))
       (Zrange bits) ([], [])).

(** The inner loop of [fromBitSerialVector]: the byte rebuilt for the
    element [i]. *)
Definition decode_elem (vec : BitSerialVector) (i : Z) : Z :=
  fold_left
    (fun current b =>
       if contains (nth (Z.to_nat b) vec []) i
       then to_uint8 (Z.lor current (shl_int b))
       else current)
    (Zrange (size vec)) 0.

Definition fromBitSerialVector (vec : BitSerialVector) (n : Z) (ret : list Z)
    : list Z :=
  fold_left (fun ret i => list_store i (decode_elem vec i) ret) (Zrange n) ret.

(** [toBitSerialMatrix]; [&mat[r*cols]] is the buffer from the position
    [r * cols] on. *)
Definition toBitSerialMatrix (mat : list Z) (rows cols bits : Z)
    : BitSerialMatrix :=
  fold_left
    (fun ret r =>
       ret ++ [toBitSerialVector (skipn (Z.to_nat (wrap64 (r * cols))) mat) cols bits])
    (Zrange rows) [].

(** [fromBitSerialMatrix]; the row [r] is written into [ret] from the
    position [r * cols] on. *)
Definition fromBitSerialMatrix (mat : BitSerialMatrix) (rows cols bits : Z)
    (ret : list Z) : list Z :=
  fold_left
    (fun ret r =>
       let off := Z.to_nat (wrap64 (r * cols)) in
       firstn off ret
       ++ fromBitSerialVector (nth (Z.to_nat r) mat []) cols (skipn off ret))
    (Zrange rows) ret.

(** [generateRandomVector]; [rand k] is what the [k]-th call of [rand()]
    returns.  [rand() % maxVal] traps when [maxVal = 0]. *)
Definition generateRandomVector (rand : nat -> Z) (bits dim : Z) (ret : list Z)
    : option (list Z) :=
  let maxVal := to_uint8 (wrap32 (shl_int bits - 1)) in
  if (maxVal =? 0) && (0 <? dim) then None
  else
    Some (fold_left
            (fun ret i => list_store i (to_uint8 (Z.rem (rand (Z.to_nat i)) maxVal)) ret)
            (Zrange dim) ret).

End conversions.

(** * The row and bit-plane pointers ([gemmbitserial.hpp])

    [rowptr] and [bitplaneptr] return addresses inside [data]; the embedding
    gives the position in [data] of the word they point to. *)

Module pointers.

Import gemmbitserial.

Definition rowptr (m : BitSerialMatrix) (bit row : Z) : Z :=
  wrap64 (bit * wordsPerBitplane m + row * wordsPerRow m).

Definition bitplaneptr (m : BitSerialMatrix) (bit : Z) : Z :=
  wrap64 (bit * wordsPerBitplane m).

End pointers.

(** * Vocabulary of the further properties *)

Module meaning.

Import gemmbitserial.

(** The integer that the low [n] bits of [v] denote: unsigned, or in two's
    complement when [sgn]. *)
Definition low_bits (sgn : bool) (n v : Z) : Z :=
  if sgn then (v + 2 ^ (n - 1)) mod 2 ^ n - 2 ^ (n - 1) else v mod 2 ^ n.


(** The number of thresholds of the row [r] that lie strictly below [v]. *)
Definition below (m : BitSerialMatrix) (thresholds : list Z) (nThres r v : Z) : Z :=
  Z.of_nat
    (length (filter (fun t => spec.threshold_at m thresholds t r <? v) (Zrange nThres))).

(** The thresholds of the row [r] do not decrease with [t]. *)
Definition ascending (m : BitSerialMatrix) (thresholds : list Z) (nThres r : Z) : Prop :=
  forall t t', 0 <= t <= t' -> t' < nThres ->
    spec.threshold_at m thresholds t r <= spec.threshold_at m thresholds t' r.

(** The inner product of the first [n] entries of [a] and [b]. *)
Definition dot (a b : Z -> Z) (n : Z) : Z :=
  spec.Zsum (fun k => a k * b k) (Zrange n).

End meaning.

(** * Properties *)

Import gemmbitserial.

(** Layout facts of a concrete matrix. *)
Ltac solve_wf :=
  unfold spec.wf, spec.allocated, spec.zero_bsm; simpl;
  repeat split; try lia; try reflexivity.

(** ** Machine integers and ranges *)

Lemma wrap32_small (x : Z) : - 2 ^ 31 <= x < 2 ^ 31 -> wrap32 x = x.
Proof.
  intros H. unfold wrap32. rewrite Z.mod_small; lia.
Qed.

Lemma wrap64_small (x : Z) : 0 <= x < 2 ^ 64 -> wrap64 x = x.
Proof.
  intros H. unfold wrap64. apply Z.mod_small; lia.
Qed.

Lemma wrap32_eqm (x : Z) : exists k, wrap32 x = x + k * 2 ^ 32.
Proof.
  exists (- ((x + 2 ^ 31) / 2 ^ 32)). unfold wrap32.
  rewrite Z.mod_eq by lia. lia.
Qed.

Lemma wrap32_range (x : Z) : - 2 ^ 31 <= wrap32 x < 2 ^ 31.
Proof.
  unfold wrap32. pose proof (Z.mod_pos_bound (x + 2 ^ 31) (2 ^ 32)). lia.
Qed.

Lemma wrap32_add_l (x y : Z) : wrap32 (wrap32 x + y) = wrap32 (x + y).
Proof.
  destruct (wrap32_eqm x) as [k ->]. unfold wrap32.
  replace (x + k * 2 ^ 32 + y + 2 ^ 31) with (x + y + 2 ^ 31 + k * 2 ^ 32) by lia.
  now rewrite Z.mod_add by lia.
Qed.

Lemma Zrange_In (n x : Z) : In x (Zrange n) <-> 0 <= x < n.
Proof.
  unfold Zrange. rewrite in_map_iff. split.
  - intros [k [<- Hk]]. apply in_seq in Hk. lia.
  - intros H. exists (Z.to_nat x). split; [lia|]. apply in_seq. lia.
Qed.

Lemma Zrange_length (n : Z) : length (Zrange n) = Z.to_nat n.
Proof. unfold Zrange. now rewrite length_map, length_seq. Qed.

Lemma Zrange_succ (n : Z) : 0 <= n -> Zrange (n + 1) = Zrange n ++ [n].
Proof.
  intros H. unfold Zrange.
  replace (Z.to_nat (n + 1)) with (S (Z.to_nat n)) by lia.
  rewrite seq_S, map_app. simpl. now rewrite Z2Nat.id by lia.
Qed.

Lemma Zrange_nonpos (n : Z) : n <= 0 -> Zrange n = [].
Proof.
  intros H. unfold Zrange. now replace (Z.to_nat n) with O by lia.
Qed.

Lemma Zrange_NoDup (n : Z) : NoDup (Zrange n).
Proof.
  unfold Zrange. apply Injective_map_NoDup.
  - intros a b. lia.
  - apply seq_NoDup.
Qed.

(** ** Thresholding in the prototype *)

Module ThresholdFacts.

Import prototype.
Import spec.

Lemma count_fold (P : Z -> bool) (l : list Z) (a : Z) :
  0 <= a -> a + Z.of_nat (length l) < 2 ^ 31 ->
  fold_left (fun acc t => wrap32 (acc + (if P t then 1 else 0))) l a
  = a + Z.of_nat (length (filter P l)).
Proof.
  revert a. induction l as [|t l IH]; intros a Ha Hb; simpl in *.
  - lia.
  - assert (Hf : Z.of_nat (length (filter P l)) <= Z.of_nat (length l)).
    { apply inj_le, filter_length_le. }
    destruct (P t); simpl.
    + rewrite wrap32_small by lia. rewrite IH by lia. lia.
    + rewrite wrap32_small by lia. rewrite IH by lia. lia.
Qed.

Lemma count_crossed_spec (T : ThresholdMatrix) (r v : Z) :
  size T < 2 ^ 31 -> count_crossed T r v = crossed T r v.
Proof.
  intros H. unfold count_crossed, crossed.
  rewrite (count_fold (fun t => v >=? nth (Z.to_nat r) (nth (Z.to_nat t) T []) 0)).
  - lia.
  - lia.
  - rewrite Zrange_length. unfold size in *. lia.
Qed.

Lemma threshold_rows_match (value : Z -> Z) (T : ThresholdMatrix)
    (rows : Z) (rs : list Z) (ret : ResultVector) :
  size T < 2 ^ 31 ->
  threshold_rows value T rows rows rs ret
  = Ok (ret ++ map (fun r => crossed T r (value r)) rs).
Proof.
  intros HT. revert ret. induction rs as [|r rs IH]; intros ret; simpl.
  - now rewrite app_nil_r.
  - rewrite Z.eqb_refl, IH, count_crossed_spec by assumption.
    now rewrite <- app_assoc.
Qed.

Lemma threshold_rows_mismatch (value : Z -> Z) (T : ThresholdMatrix)
    (rows chans : Z) (rs : list Z) (ret : ResultVector) :
  chans <> rows -> rs <> [] ->
  threshold_rows value T rows chans rs ret = Throw not_implemented.
Proof.
  intros Hne Hrs. destruct rs as [|r rs]; [congruence|]. simpl.
  apply Z.eqb_neq in Hne. now rewrite Hne.
Qed.

Lemma threshold_rows_spec (value : Z -> Z) (T : ThresholdMatrix) (rows : Z) :
  0 <= rows -> size T < 2 ^ 31 ->
  threshold_rows value T rows (size (nth 0 T [])) (Zrange rows) []
  = thresholded T value rows.
Proof.
  intros Hrows HT. unfold thresholded.
  destruct (Z.eqb_spec (size (nth 0 T [])) rows) as [->|Hne].
  - rewrite orb_true_r. now rewrite threshold_rows_match.
  - rewrite orb_false_r. destruct (Z.eqb_spec rows 0) as [->|Hz].
    + reflexivity.
    + apply threshold_rows_mismatch; [assumption|].
      intros E. apply (f_equal (@length Z)) in E.
      rewrite Zrange_length in E. simpl in E. lia.
Qed.

Lemma fold_append_map {A B : Type} (f : A -> B) (l : list A) (acc : list B) :
  fold_left (fun ret r => ret ++ [f r]) l acc = acc ++ map f l.
Proof.
  revert acc. induction l as [|a l IH]; intros acc; simpl.
  - now rewrite app_nil_r.
  - rewrite IH. now rewrite <- app_assoc.
Qed.

Lemma Zrange_nth (n r : Z) : 0 <= r < n -> nth (Z.to_nat r) (Zrange n) 0 = r.
Proof.
  intros H. unfold Zrange.
  change 0 with (Z.of_nat 0). rewrite map_nth, seq_nth by lia. lia.
Qed.


Lemma bitSerialMatrixVector_rows (A : BitSerialMatrix) (x : BitSerialVector)
    (cols : Z) (Asigned xsigned : bool) :
  A <> [] ->
  bitSerialMatrixVector A x cols Asigned xsigned
  = Ok (map (fun r => row_accumulate (size (nth 0 A [])) (nth (Z.to_nat r) A []) x
                        Asigned xsigned)
          (Zrange (size A))).
Proof.
  intros HA. unfold bitSerialMatrixVector.
  destruct A as [|A0 A']; [congruence|].
  now rewrite fold_append_map.
Qed.

End ThresholdFacts.




(** ** The block-size solver *)

(** C5 at scenario 6 of the specification and at an input where every
    floating-point step is exact: the solver budgets [sizeof(int32_t) = 4]
    per result cell, so the blocks it returns satisfy
    [4 L R + d (L + R) <= cacheBits] but exceed the budget
    [32 L R + d (L + R) <= cacheBits] of 32-bit result cells. *)
Theorem computeBlockSize_overruns_cache :
  computeBlockSize 4 4 (64 * 1024) (64 * 4) = Some (76, 76)
  /\ 32 * 76 * 76 + 64 * 4 * (76 + 76) > 64 * 1024
  /\ 4 * 76 * 76 + 64 * 4 * (76 + 76) <= 64 * 1024
  /\ computeBlockSize 1 1 10 3 = Some (1, 1)
  /\ 32 * 1 * 1 + 3 * (1 + 1) > 10.
Proof. repeat split; try (vm_compute; reflexivity); discriminate. Qed.

(** ** alignTo and the fine-tuner *)

Lemma alignTo_spec (i af : Z) :
  0 <= i -> 0 < af -> i + af <= 2 ^ 64 ->
  i <= alignTo i af < i + af /\ (af | alignTo i af).
Proof.
  intros Hi Haf Hb. unfold alignTo.
  pose proof (Z.mod_pos_bound i af Haf) as Hm.
  destruct (Z.eqb_spec (i mod af) 0) as [E|E]; simpl.
  - split; [lia|]. apply Z.mod_divide; lia.
  - rewrite wrap64_small by lia. split; [lia|].
    exists (i / af + 1). rewrite (Z.div_mod i af) at 1 by lia. lia.
Qed.

Lemma alignTo_multiple (i af : Z) : 0 < af -> (af | i) -> alignTo i af = i.
Proof.
  intros Haf Hd. unfold alignTo.
  apply Z.mod_divide in Hd; [|lia]. now rewrite Hd.
Qed.

Lemma padding_range (rows block : Z) :
  0 <= rows -> 0 < block -> rows + block <= 2 ^ 64 ->
  0 <= spec.padding rows block < block
  /\ wrap64 (alignTo rows block - rows) = spec.padding rows block.
Proof.
  intros Hr Hb Hs. unfold spec.padding.
  destruct (alignTo_spec rows block Hr Hb Hs) as [H _].
  split; [lia|]. apply wrap64_small. lia.
Qed.

Lemma finetune_loop_spec (rows bs_div : Z) :
  0 <= rows -> 0 < bs_div ->
  forall (fuel : nat) (ccand best minp : Z),
    ccand <= Z.of_nat fuel -> 0 <= ccand <= best -> 0 < best ->
    rows + best <= 2 ^ 64 ->
    minp = spec.padding rows best ->
    exists r,
      finetune_loop fuel rows bs_div ccand best minp = Some r
      /\ (r = best
          \/ (spec.padding rows r < spec.padding rows best
              /\ exists k, 0 <= k /\ r = ccand - k * bs_div
                           /\ bs_div < r /\ r mod bs_div = 0))
      /\ forall k, 0 <= k -> bs_div < ccand - k * bs_div ->
           (ccand - k * bs_div) mod bs_div = 0 ->
           spec.padding rows r <= spec.padding rows (ccand - k * bs_div)
           /\ (spec.padding rows (ccand - k * bs_div) = spec.padding rows r ->
               ccand - k * bs_div <= r).
Proof.
  intros Hrows Hdiv. induction fuel as [|fuel IH]; intros ccand best minp Hf Hc Hbest Hsum Hmin.
  - simpl. destruct (Z.gtb_spec ccand bs_div); [lia|].
    exists best. split; [reflexivity|]. split; [now left|].
    intros k Hk Hlt _. nia.
  - simpl. destruct (Z.gtb_spec ccand bs_div) as [Hgt|Hle].
    2:{ exists best. split; [reflexivity|]. split; [now left|].
        intros k Hk Hlt _. nia. }
    rewrite (wrap64_small (ccand - bs_div)) by lia.
    destruct (padding_range rows ccand Hrows ltac:(lia) ltac:(lia)) as [Hpc ->].
    assert (Hfut : forall k, 0 <= k ->
              ccand - k * bs_div = ccand
              \/ ccand - k * bs_div = (ccand - bs_div) - (k - 1) * bs_div /\ 0 <= k - 1).
    { intros k Hk. destruct (Z.eq_dec k 0) as [->|]; [left; lia | right; lia]. }
    destruct (Z.eqb_spec (ccand mod bs_div) 0) as [Hmod|Hmod].
    + destruct (Z.ltb_spec (spec.padding rows ccand) minp) as [Hlt|Hge].
      * destruct (IH (ccand - bs_div) ccand (spec.padding rows ccand))
          as [r [Hr [Hsel Hall]]]; try lia.
        exists r. split; [exact Hr|]. split.
        { right. destruct Hsel as [->|[Hp [k [Hk [-> [Hb Hm]]]]]].
          - split; [lia|]. exists 0. repeat split; (lia || assumption).
          - split; [lia|]. exists (k + 1). repeat split; lia. }
        { intros k Hk Hb Hm. destruct (Hfut k Hk) as [E|[E Hk']].
          - rewrite E. destruct Hsel as [->|[Hp _]]; [lia|]. lia.
          - rewrite E in *. apply Hall; assumption. }
      * destruct (IH (ccand - bs_div) best minp) as [r [Hr [Hsel Hall]]]; try lia.
        exists r. split; [exact Hr|]. split.
        { destruct Hsel as [->|[Hp [k [Hk [-> [Hb Hm]]]]]]; [now left|].
          right. split; [assumption|]. exists (k + 1). repeat split; lia. }
        { intros k Hk Hb Hm. destruct (Hfut k Hk) as [E|[E Hk']].
          - rewrite E. destruct Hsel as [->|[Hp _]]; lia.
          - rewrite E in *. apply Hall; assumption. }
    + destruct (IH (ccand - bs_div) best minp) as [r [Hr [Hsel Hall]]]; try lia.
      exists r. split; [exact Hr|]. split.
      { destruct Hsel as [->|[Hp [k [Hk [-> [Hb Hm]]]]]]; [now left|].
        right. split; [assumption|]. exists (k + 1). repeat split; lia. }
      { intros k Hk Hb Hm. destruct (Hfut k Hk) as [E|[E Hk']].
        - rewrite E in Hm. contradiction.
        - rewrite E in *. apply Hall; assumption. }
Qed.

Lemma finetuneBlockSize_characterised (rows bs_max bs_div : Z) :
  0 < rows -> 0 < bs_div <= bs_max -> rows + bs_max <= 2 ^ 64 ->
  exists best,
    finetuneBlockSize rows bs_max bs_div = Some best
    /\ spec.tried bs_max bs_div best
    /\ (forall c, spec.tried bs_max bs_div c ->
          spec.padding rows best <= spec.padding rows c
          /\ (spec.padding rows c = spec.padding rows best -> c <= best))
    /\ spec.padding rows best <= spec.padding rows bs_max.
Proof.
  intros Hrows Hdiv Hsum. unfold finetuneBlockSize.
  destruct (Z.eqb_spec bs_max 0); [lia|]. destruct (Z.eqb_spec bs_div 0); [lia|].
  simpl.
  destruct (padding_range rows bs_max ltac:(lia) ltac:(lia) Hsum) as [Hp ->].
  destruct (finetune_loop_spec rows bs_div ltac:(lia) ltac:(lia)
              (Z.to_nat bs_max) bs_max bs_max (spec.padding rows bs_max))
    as [r [Hr [Hsel Hall]]]; try lia.
  exists r. split; [exact Hr|].
  assert (Htried : spec.tried bs_max bs_div r).
  { destruct Hsel as [->|[_ H]]; [now left | now right]. }
  split; [exact Htried|]. split.
  - intros c [->|[k [Hk [-> [Hb Hm]]]]].
    + destruct Hsel as [->|[Hlt [k [Hk [E _]]]]]; [lia|]. split; [lia|]. lia.
    + apply Hall; assumption.
  - destruct Hsel as [->|[Hlt _]]; lia.
Qed.

(** C6, as the code has it: for [rows > 0] and [bs_max >= bs_div > 0] (sizes
    that do not overflow), [finetuneBlockSize] returns, among the block sizes
    it tries -- [bs_max], and below it in steps of [bs_div] the multiples of
    [bs_div] strictly greater than [bs_div] -- the one with the least padding
    [alignTo(rows, cand) - rows], the largest of them on a tie; its padding
    never exceeds that of [bs_max].  The block size [bs_div] itself is not
    tried. *)
Theorem finetuneBlockSize_least_padding_above_bs_div (rows bs_max bs_div : Z) :
  0 < rows -> 0 < bs_div <= bs_max -> rows + bs_max <= 2 ^ 64 ->
  exists best,
    finetuneBlockSize rows bs_max bs_div = Some best
    /\ spec.tried bs_max bs_div best
    /\ (forall c, spec.tried bs_max bs_div c ->
          spec.padding rows best <= spec.padding rows c
          /\ (spec.padding rows c = spec.padding rows best -> c <= best))
    /\ spec.padding rows best <= spec.padding rows bs_max.
Proof. exact (finetuneBlockSize_characterised rows bs_max bs_div). Qed.

Lemma finetuneBlockSize_skips_bs_div :
  finetuneBlockSize 9 6 3 = Some 6
  /\ alignTo 9 3 - 9 < alignTo 9 6 - 9
  /\ 3 mod 3 = 0.
Proof. repeat split. Qed.

Lemma finetuneBlockSize_least_padding_above_bs_div_witness :
  exists best,
    finetuneBlockSize 20 12 4 = Some best
    /\ spec.tried 12 4 best
    /\ (forall c, spec.tried 12 4 c ->
          spec.padding 20 best <= spec.padding 20 c
          /\ (spec.padding 20 c = spec.padding 20 best -> c <= best))
    /\ spec.padding 20 best <= spec.padding 20 12.
Proof.
  apply (finetuneBlockSize_least_padding_above_bs_div 20 12 4); lia.
Defined.

(** ** alloc *)

(** What [alloc] returns, when it returns. *)
Lemma alloc_fields (fresh : nat -> Z) (nb nr nc : Z) (sgn : bool) (ra ca : Z)
    (m : BitSerialMatrix) :
  alloc fresh nb nr nc sgn ra ca = Some m ->
  ra <> 0 /\ ca <> 0
  /\ nbits m = nb /\ nrows m = nr /\ ncols m = nc /\ issigned m = sgn
  /\ nrows_a m = alignTo nr ra /\ ncols_a m = alignTo nc ca
  /\ data m = map fresh (seq 0 (Z.to_nat (wrap64 (nb * wordsPerBitplane m))))
  /\ wrap64 (nb * wordsPerBitplane m) * 8 <= max_array_bytes.
Proof.
  unfold alloc.
  destruct (Z.eqb_spec ra 0); [discriminate|].
  destruct (Z.eqb_spec ca 0); [discriminate|]. simpl.
  destruct (Z.gtb_spec (wrap64 (nb * wordsPerBitplane
                                       (mkBSM sgn nb nr nc (alignTo nr ra) (alignTo nc ca) []))
                        * 8) max_array_bytes); [discriminate|].
  intros E. injection E as <-. repeat split; assumption.
Qed.

(** When [alloc] returns. *)
Lemma alloc_returns (fresh : nat -> Z) (nb nr nc : Z) (sgn : bool) (ra ca : Z) :
  ra <> 0 -> ca <> 0 ->
  wrap64 (nb * wrap64 (alignTo nr ra * (alignTo nc ca / 64))) * 8 <= max_array_bytes ->
  exists m, alloc fresh nb nr nc sgn ra ca = Some m.
Proof.
  intros Hra Hca Hsz. unfold alloc.
  apply Z.eqb_neq in Hra, Hca. rewrite Hra, Hca. simpl.
  unfold wordsPerBitplane, wordsPerRow. simpl.
  destruct (Z.gtb_spec (wrap64 (nb * wrap64 (alignTo nr ra * (alignTo nc ca / 64))) * 8)
              max_array_bytes); [lia|].
  eexists. reflexivity.
Qed.

Lemma clearAll_zeroes (m : BitSerialMatrix) :
  0 <= nbits m * wordsPerBitplane m * 8 < 2 ^ 64 ->
  length (data m) = Z.to_nat (nbits m * wordsPerBitplane m) ->
  data (clearAll m) = repeat 0 (length (data m)).
Proof.
  intros Hb Hlen. unfold clearAll. simpl.
  rewrite wrap64_small by lia.
  replace (nbits m * wordsPerBitplane m * 8 / 8) with (nbits m * wordsPerBitplane m)
    by (symmetry; apply Z.div_mul; lia).
  rewrite <- Hlen, Nat.min_id, skipn_all, app_nil_r. reflexivity.
Qed.

Lemma clearAll_zeroes_wrapped (m : BitSerialMatrix) :
  wrap64 (nbits m * wordsPerBitplane m) * 8 < 2 ^ 64 ->
  length (data m) = Z.to_nat (wrap64 (nbits m * wordsPerBitplane m)) ->
  data (clearAll m) = repeat 0 (length (data m)).
Proof.
  intros Hb Hlen. unfold clearAll. simpl.
  assert (E : wrap64 (nbits m * wordsPerBitplane m * 8)
              = wrap64 (nbits m * wordsPerBitplane m) * 8).
  { unfold wrap64 in *.
    pose proof (Z.mod_pos_bound (nbits m * wordsPerBitplane m) (2 ^ 64) ltac:(lia)).
    rewrite <- (Z.mod_small ((nbits m * wordsPerBitplane m) mod 2 ^ 64 * 8) (2 ^ 64))
      by lia.
    rewrite Z.mul_mod_idemp_l by lia. reflexivity. }
  rewrite E, Z.div_mul by lia.
  rewrite <- Hlen, Nat.min_id, skipn_all, app_nil_r. reflexivity.
Qed.

(** C3, as the code has it: [alloc] checks nothing itself and clears
    nothing.  With memory to be had it fails exactly on a zero alignment
    (the division of [alignTo] traps) and on a buffer of more than
    [max_array_bytes] bytes (the [new] expression throws), the number of
    words being [nbits * wordsPerBitplane] reduced modulo 2^64.  When it
    returns, the matrix has the requested fields, the padded extents
    [alignTo nrows rowalign] and [alignTo ncols colalign], and a buffer
    holding whatever the allocator hands out; the whole buffer is zero once
    [clearAll] has run. *)
Theorem alloc_unchecked_then_clearAll_zero (fresh : nat -> Z) (nb nr nc : Z)
    (sgn : bool) (ra ca : Z) :
  (alloc fresh nb nr nc sgn ra ca = None
   <-> ra = 0 \/ ca = 0
       \/ max_array_bytes
          < wrap64 (nb * wrap64 (alignTo nr ra * (alignTo nc ca / 64))) * 8)
  /\ forall m,
       alloc fresh nb nr nc sgn ra ca = Some m ->
       nbits m = nb /\ nrows m = nr /\ ncols m = nc /\ issigned m = sgn
       /\ nrows_a m = alignTo nr ra /\ ncols_a m = alignTo nc ca
       /\ data m = map fresh (seq 0 (Z.to_nat (wrap64 (nb * wordsPerBitplane m))))
       /\ data (clearAll m) = repeat 0 (length (data m)).
Proof.
  split.
  - split.
    + intros Hnone.
      destruct (Z.eq_dec ra 0) as [|Hra]; [now left|].
      destruct (Z.eq_dec ca 0) as [|Hca]; [now right; left|].
      right. right.
      destruct (Z_lt_le_dec max_array_bytes
                  (wrap64 (nb * wrap64 (alignTo nr ra * (alignTo nc ca / 64))) * 8))
        as [H|H]; [assumption|].
      destruct (alloc_returns fresh nb nr nc sgn ra ca Hra Hca H) as [m E].
      congruence.
    + intros H. destruct (alloc fresh nb nr nc sgn ra ca) as [m|] eqn:E; [|reflexivity].
      exfalso.
      destruct (alloc_fields fresh nb nr nc sgn ra ca m E)
        as (Hra & Hca & Hnb & _ & _ & _ & Fra & Fca & _ & Hsz).
      unfold wordsPerBitplane, wordsPerRow in Hsz. rewrite Fra, Fca in Hsz.
      destruct H as [H | [H | H]]; [contradiction | contradiction | lia].
  - intros m E.
    destruct (alloc_fields fresh nb nr nc sgn ra ca m E)
      as (_ & _ & Hnb & Hnr & Hnc & Hs & Hra' & Hca' & Hd & Hsz).
    repeat (split; [assumption|]).
    unfold max_array_bytes in Hsz.
    apply clearAll_zeroes_wrapped.
    + rewrite Hnb. lia.
    + rewrite Hd, length_map, length_seq, Hnb. reflexivity.
Qed.

Lemma alloc_accepts_bad_sizes_and_leaves_junk :
  (exists m, alloc (fun _ => 1) 3 5 70 false 8 128 = Some m
             /\ data m = repeat 1 48)
  /\ (exists m, alloc (fun _ => 1) 3 5 70 false 8 32 = Some m
                /\ ncols_a m = 96 /\ length (data m) = 24%nat)
  /\ (exists m, alloc (fun _ => 1) 0 5 70 false 8 128 = Some m
                /\ data m = [])
  /\ (exists m, alloc (fun _ => 1) 65 5 70 false 8 128 = Some m
                /\ length (data m) = 1040%nat)
  /\ (exists m, alloc (fun _ => 1) 64 (2 ^ 58) 64 false 1 64 = Some m
                /\ data m = [])
  /\ alloc (fun _ => 1) 1 (2 ^ 61) 64 false 1 64 = None.
Proof.
  repeat (split; [eexists; split; [reflexivity|]; try split; vm_compute; reflexivity|]).
  vm_compute. reflexivity.
Qed.

Lemma alloc_unchecked_then_clearAll_zero_witness :
  exists m,
    alloc (fun _ => 1) 3 5 70 false 8 128 = Some m
    /\ nbits m = 3 /\ nrows m = 5 /\ ncols m = 70 /\ issigned m = false
    /\ nrows_a m = alignTo 5 8 /\ ncols_a m = alignTo 70 128
    /\ data m = map (fun _ => 1) (seq 0 (Z.to_nat (wrap64 (3 * wordsPerBitplane m))))
    /\ data (clearAll m) = repeat 0 (length (data m)).
Proof.
  eexists. split; [reflexivity|].
  apply (proj2 (alloc_unchecked_then_clearAll_zero (fun _ => 1) 3 5 70 false 8 128)).
  reflexivity.
Defined.

(** ** Context allocation *)

Lemma alignTo_nonneg (i af : Z) : 0 <= i -> 0 <= alignTo i af.
Proof.
  intros H. unfold alignTo. destruct (negb _); [|assumption].
  unfold wrap64. apply Z.mod_pos_bound. lia.
Qed.

Lemma finetuneBlockSize_range (rows bs_max bs_div : Z) :
  0 <= rows -> 0 < bs_div -> 0 < bs_max -> rows + bs_max <= 2 ^ 64 ->
  exists r,
    finetuneBlockSize rows bs_max bs_div = Some r
    /\ 0 < r <= bs_max
    /\ (r = bs_max \/ (bs_div < r /\ r mod bs_div = 0)).
Proof.
  intros Hrows Hdiv Hmax Hsum. unfold finetuneBlockSize.
  destruct (Z.eqb_spec bs_max 0); [lia|]. destruct (Z.eqb_spec bs_div 0); [lia|].
  simpl.
  destruct (padding_range rows bs_max Hrows Hmax Hsum) as [Hp ->].
  destruct (finetune_loop_spec rows bs_div Hrows Hdiv
              (Z.to_nat bs_max) bs_max bs_max (spec.padding rows bs_max))
    as [r [Hr [Hsel _]]]; try lia.
  exists r. split; [exact Hr|].
  destruct Hsel as [->|[_ [k [Hk [-> [Hb Hm]]]]]].
  - split; [lia | now left].
  - split; [nia | right; split; assumption].
Qed.

Lemma retune_range (rows block regblock r : Z) :
  0 <= rows -> 0 < regblock -> 0 <= block -> rows + block <= 2 ^ 64 ->
  retune rows block regblock = Some r ->
  0 < r <= block /\ (r = block \/ (regblock | r)).
Proof.
  intros Hrows Hreg Hblock Hsum. unfold retune.
  destruct (Z.eqb_spec block 0); [discriminate|].
  destruct (too_much_waste rows block).
  - destruct (finetuneBlockSize_range rows block regblock Hrows Hreg ltac:(lia) Hsum)
      as [best [-> [Hr Ht]]].
    intros E. injection E as <-. split; [assumption|].
    destruct Ht as [->|[_ Hm]]; [now left|].
    right. apply Z.mod_divide; [lia | assumption].
  - intros E. injection E as <-. split; [lia | now left].
Qed.

Lemma uint64_of_float_range (x : spec_float) (z : Z) :
  uint64_of_float x = Some z -> 0 <= z < 2 ^ 64.
Proof.
  destruct x as [s| s | |s m e]; simpl; try discriminate.
  - intros E. injection E as <-. lia.
  - match goal with |- context [if ?c then _ else _] => destruct c eqn:Hc end;
      [|discriminate].
    intros E. injection E as <-.
    apply andb_true_iff in Hc. destruct Hc as [H1 H2].
    apply Z.leb_le in H1. apply Z.ltb_lt in H2. split; assumption.
Qed.

(** The blocks that the solver hands back are [uint64_t] values. *)
Lemma computeBlockSize_range (lhsMult rhsMult cacheBits dBits l r : Z) :
  computeBlockSize lhsMult rhsMult cacheBits dBits = Some (l, r) ->
  0 <= l < 2 ^ 64 /\ 0 <= r < 2 ^ 64.
Proof.
  unfold computeBlockSize. cbv zeta.
  destruct (negb _); [discriminate|].
  destruct (int64_of_floor _) as [x0|]; [|discriminate].
  destruct (int64_of_floor _) as [x1|]; [|discriminate].
  destruct (_ >? 0); [|discriminate].
  destruct (uint64_of_float (SFmul 24 128 (float_of_Z lhsMult) _)) as [lb|] eqn:El;
    [|discriminate].
  destruct (uint64_of_float (SFmul 24 128 (float_of_Z rhsMult) _)) as [rb|] eqn:Er;
    [|discriminate].
  intros E. injection E as <- <-.
  split; eapply uint64_of_float_range; eassumption.
Qed.

Lemma alloc_nrows_a (fresh : nat -> Z) (nb nr nc : Z) (sgn : bool) (ra ca : Z)
    (m : BitSerialMatrix) :
  alloc fresh nb nr nc sgn ra ca = Some m -> nrows_a m = alignTo nr ra.
Proof. intros E. apply (alloc_fields _ _ _ _ _ _ _ _ E). Qed.

Lemma allocGEMMContext_base_blocks (fresh : nat -> Z)
    (lhsRows depth rhsRows lhsBits rhsBits : Z) (lhsSigned rhsSigned : bool)
    (regblock_lhs regblock_d regblock_rhs cacheBits : Z) (ctx : GEMMContext) :
  0 < lhsRows < 2 ^ 62 -> 0 < rhsRows < 2 ^ 62 -> 0 < depth ->
  0 < regblock_lhs < 2 ^ 62 -> 0 < regblock_d -> 0 < regblock_rhs < 2 ^ 62 ->
  0 < cacheBits ->
  allocGEMMContext_base fresh lhsRows depth rhsRows lhsBits rhsBits
    lhsSigned rhsSigned regblock_lhs regblock_d regblock_rhs cacheBits = Some ctx ->
  (forall l0 r0,
      computeBlockSize regblock_lhs regblock_rhs cacheBits
        (alignTo depth (wrap64 (regblock_d * 64))) = Some (l0, r0) ->
      l0 > lhsRows \/ r0 > rhsRows ->
      lhsBlock ctx = alignTo lhsRows regblock_lhs
      /\ rhsBlock ctx = alignTo rhsRows regblock_rhs)
  /\ (0 < lhsBlock ctx /\ 0 < rhsBlock ctx
      /\ (lhsBlock ctx | nrows_a (lhs ctx))
      /\ (rhsBlock ctx | nrows_a (rhs ctx)))
  /\ (lhsRows + lhsBlock ctx <= 2 ^ 64 /\ rhsRows + rhsBlock ctx <= 2 ^ 64)
  /\ (forall l0 r0,
        computeBlockSize regblock_lhs regblock_rhs cacheBits
          (alignTo depth (wrap64 (regblock_d * 64))) = Some (l0, r0) ->
        (lhsBlock ctx = l0 \/ (regblock_lhs | lhsBlock ctx))
        /\ (rhsBlock ctx = r0 \/ (regblock_rhs | rhsBlock ctx))).
Proof.
  intros HlR HrR Hd Hrl Hrd Hrr Hcb. unfold allocGEMMContext_base.
  destruct (wrap64 (regblock_d * 64) =? 0); [discriminate|].
  destruct (computeBlockSize _ _ _ _) as [[l0 r0]|] eqn:Hsolve; [|discriminate].
  destruct (computeBlockSize_range _ _ _ _ _ _ Hsolve) as [Hl0 Hr0].
  assert (Hblocks : forall lb rb (l r : BitSerialMatrix),
            0 < lb -> lhsRows + lb <= 2 ^ 64 -> 0 < rb -> rhsRows + rb <= 2 ^ 64 ->
            nrows_a l = alignTo lhsRows lb -> nrows_a r = alignTo rhsRows rb ->
            (0 < lb /\ 0 < rb /\ (lb | nrows_a l) /\ (rb | nrows_a r))
            /\ lhsRows + lb <= 2 ^ 64 /\ rhsRows + rb <= 2 ^ 64).
  { intros lb rb l r H1 H2 H3 H4 -> ->. repeat split; try assumption.
    - apply alignTo_spec; lia.
    - apply alignTo_spec; lia. }
  destruct ((l0 >? lhsRows) || (r0 >? rhsRows)) eqn:Hfb.
  - destruct (Z.eqb_spec regblock_lhs 0); [lia|].
    destruct (Z.eqb_spec regblock_rhs 0); [lia|]. simpl.
    destruct (alloc fresh lhsBits _ _ _ _ _) as [l|] eqn:El; [|discriminate].
    destruct (alloc fresh rhsBits _ _ _ _ _) as [r|] eqn:Er; [|discriminate].
    destruct (_ >? max_array_bytes); [discriminate|].
    intros E. injection E as <-. simpl.
    split; [intros ? ? _ _; split; reflexivity|].
    destruct (alignTo_spec lhsRows regblock_lhs) as [Hal Hdl]; try lia.
    destruct (alignTo_spec rhsRows regblock_rhs) as [Har Hdr]; try lia.
    rewrite <- and_assoc. split.
    + apply Hblocks; try lia.
      * eapply alloc_nrows_a; eassumption.
      * eapply alloc_nrows_a; eassumption.
    + intros ? ? _. split; right; assumption.
  - apply orb_false_iff in Hfb. destruct Hfb as [Hfl Hfr].
    rewrite Z.gtb_ltb in Hfl, Hfr. apply Z.ltb_ge in Hfl, Hfr.
    destruct (retune lhsRows l0 regblock_lhs) as [lb|] eqn:Elb; [|discriminate].
    destruct (retune rhsRows r0 regblock_rhs) as [rb|] eqn:Erb; [|discriminate].
    apply retune_range in Elb; try lia. apply retune_range in Erb; try lia.
    destruct Elb as [Elb Hlb]. destruct Erb as [Erb Hrb].
    destruct (alloc fresh lhsBits _ _ _ _ _) as [l|] eqn:El; [|discriminate].
    destruct (alloc fresh rhsBits _ _ _ _ _) as [r|] eqn:Er; [|discriminate].
    destruct (_ >? max_array_bytes); [discriminate|].
    intros E. injection E as <-. simpl.
    split.
    { intros l1 r1 E1 [H|H]; injection E1 as <- <-; lia. }
    rewrite <- and_assoc. split.
    + apply Hblocks; try lia.
      * eapply alloc_nrows_a; eassumption.
      * eapply alloc_nrows_a; eassumption.
    + intros l1 r1 E1. injection E1 as <- <-. split; assumption.
Qed.

Lemma allocGEMMContext_base_parts (fresh : nat -> Z)
    (lhsRows depth rhsRows lhsBits rhsBits : Z) (lhsSigned rhsSigned : bool)
    (regblock_lhs regblock_d regblock_rhs cacheBits : Z) (ctx : GEMMContext) :
  allocGEMMContext_base fresh lhsRows depth rhsRows lhsBits rhsBits
    lhsSigned rhsSigned regblock_lhs regblock_d regblock_rhs cacheBits = Some ctx ->
  alloc fresh lhsBits lhsRows depth lhsSigned (lhsBlock ctx) (wrap64 (regblock_d * 64))
  = Some (lhs ctx)
  /\ alloc fresh rhsBits rhsRows depth rhsSigned (rhsBlock ctx) (wrap64 (regblock_d * 64))
     = Some (rhs ctx)
  /\ res ctx = map fresh (seq 0 (Z.to_nat (wrap64 (lhsRows * rhsRows)))).
Proof.
  unfold allocGEMMContext_base.
  destruct (wrap64 (regblock_d * 64) =? 0); [discriminate|].
  destruct (computeBlockSize _ _ _ _) as [[l0 r0]|]; [|discriminate].
  destruct (if (l0 >? lhsRows) || (r0 >? rhsRows) then _ else _) as [[lb rb]|];
    [|discriminate].
  destruct (alloc fresh lhsBits _ _ _ _ _) as [l|] eqn:El; [|discriminate].
  destruct (alloc fresh rhsBits _ _ _ _ _) as [r|] eqn:Er; [|discriminate].
  destruct (_ >? max_array_bytes); [discriminate|].
  intros E. injection E as <-. simpl. auto.
Qed.

Lemma alloc_wf (fresh : nat -> Z) (nb nr nc : Z) (sgn : bool) (ra ca : Z)
    (m : BitSerialMatrix) :
  alloc fresh nb nr nc sgn ra ca = Some m ->
  0 <= nb -> 0 <= nr -> 0 <= nc -> 0 < ra -> 0 < ca -> (64 | ca) ->
  nr + ra <= 2 ^ 64 -> nc + ca <= 2 ^ 64 ->
  (nb + 1) * (nrows_a m * (ncols_a m / 64)) * 8 < 2 ^ 64 ->
  spec.wf m.
Proof.
  intros E Hnb Hnr Hnc Hra Hca H64 Hr64 Hc64 Hfit.
  destruct (alloc_fields fresh nb nr nc sgn ra ca m E)
    as (_ & _ & Fnb & Fnr & Fnc & Fs & Fra & Fca & Fd & _).
  destruct (alignTo_spec nr ra Hnr Hra Hr64) as [Hra1 _].
  destruct (alignTo_spec nc ca Hnc Hca Hc64) as [Hca1 Hdiv].
  assert (Hw : 0 <= ncols_a m / 64) by (apply Z.div_pos; lia).
  assert (Hsz : 0 <= nrows_a m * (ncols_a m / 64))
    by (apply Z.mul_nonneg_nonneg; lia).
  assert (Hmul : 0 <= nb * (nrows_a m * (ncols_a m / 64)))
    by (apply Z.mul_nonneg_nonneg; lia).
  unfold spec.wf. rewrite Fnb, Fnr, Fnc.
  repeat split; try lia.
  - apply Z.mod_divide; [lia|]. rewrite Fca.
    eapply Z.divide_trans; eassumption.
  - rewrite Fd, length_map, length_seq. f_equal.
    unfold wordsPerBitplane, wordsPerRow.
    rewrite (wrap64_small (nrows_a m * _)) by lia.
    apply wrap64_small. lia.
Qed.

(** A context returned by [allocGEMMContext_base] for sizes whose buffers fit
    is laid out as the kernel expects. *)
Lemma allocGEMMContext_base_ok (fresh : nat -> Z)
    (lhsRows depth rhsRows lhsBits rhsBits : Z) (lhsSigned rhsSigned : bool)
    (regblock_lhs regblock_d regblock_rhs cacheBits : Z) (ctx : GEMMContext) :
  0 < lhsRows < 2 ^ 62 -> 0 < rhsRows < 2 ^ 62 -> 0 < depth < 2 ^ 62 ->
  0 < regblock_lhs < 2 ^ 62 -> 0 < regblock_d < 2 ^ 56 -> 0 < regblock_rhs < 2 ^ 62 ->
  0 < cacheBits -> 0 <= lhsBits -> 0 <= rhsBits ->
  lhsRows * rhsRows < 2 ^ 64 ->
  allocGEMMContext_base fresh lhsRows depth rhsRows lhsBits rhsBits
    lhsSigned rhsSigned regblock_lhs regblock_d regblock_rhs cacheBits = Some ctx ->
  (nbits (lhs ctx) + 1) * (nrows_a (lhs ctx) * (ncols_a (lhs ctx) / 64)) * 8 < 2 ^ 64 ->
  (nbits (rhs ctx) + 1) * (nrows_a (rhs ctx) * (ncols_a (rhs ctx) / 64)) * 8 < 2 ^ 64 ->
  spec.ctx_ok ctx.
Proof.
  intros HlR HrR Hd Hrl Hrd Hrr Hcb HbL HbR Hres E HfitL HfitR.
  destruct (allocGEMMContext_base_blocks fresh lhsRows depth rhsRows lhsBits rhsBits
              lhsSigned rhsSigned regblock_lhs regblock_d regblock_rhs cacheBits ctx
              HlR HrR ltac:(lia) Hrl ltac:(lia) Hrr Hcb E)
    as (_ & (HLB & HRB & HdL & HdR) & (HsL & HsR) & _).
  destruct (allocGEMMContext_base_parts _ _ _ _ _ _ _ _ _ _ _ _ ctx E)
    as (El & Er & Eres).
  assert (Hcol : wrap64 (regblock_d * 64) = regblock_d * 64)
    by (apply wrap64_small; lia).
  rewrite Hcol in El, Er.
  assert (H64 : (64 | regblock_d * 64)) by (exists regblock_d; reflexivity).
  destruct (alloc_fields fresh lhsBits lhsRows depth lhsSigned (lhsBlock ctx)
              (regblock_d * 64) (lhs ctx) El)
    as (_ & _ & FnbL & FnrL & FncL & _ & _ & FcaL & _).
  destruct (alloc_fields fresh rhsBits rhsRows depth rhsSigned (rhsBlock ctx)
              (regblock_d * 64) (rhs ctx) Er)
    as (_ & _ & FnbR & FnrR & FncR & _ & _ & FcaR & _).
  rewrite FnbL in HfitL. rewrite FnbR in HfitR.
  assert (HwfL : spec.wf (lhs ctx)).
  { apply (alloc_wf fresh lhsBits lhsRows depth lhsSigned (lhsBlock ctx)
             (regblock_d * 64) (lhs ctx) El); try lia; assumption. }
  assert (HwfR : spec.wf (rhs ctx)).
  { apply (alloc_wf fresh rhsBits rhsRows depth rhsSigned (rhsBlock ctx)
             (regblock_d * 64) (rhs ctx) Er); try lia; assumption. }
  unfold spec.ctx_ok. repeat split; try assumption; try apply HwfL; try apply HwfR.
  - congruence.
  - congruence.
  - rewrite Eres, length_map, length_seq, FnrL, FnrR.
    rewrite wrap64_small by lia. reflexivity.
Qed.


(** ** Bits of the buffer *)

Lemma nth_list_update (f : Z -> Z) (l : list Z) (i j : nat) :
  nth i (list_update j f l) 0
  = if (Nat.eqb i j && Nat.ltb j (length l))%bool then f (nth i l 0) else nth i l 0.
Proof.
  revert i j. induction l as [|x l IH]; intros i j.
  - replace (Nat.ltb j (length (@nil Z))) with false
      by (symmetry; apply Nat.ltb_ge; simpl; lia).
    rewrite andb_false_r. destruct j; reflexivity.
  - destruct j as [|j]; destruct i as [|i]; simpl; try reflexivity.
    rewrite IH. reflexivity.
Qed.

Lemma length_list_update (f : Z -> Z) (l : list Z) (j : nat) :
  length (list_update j f l) = length l.
Proof.
  revert j. induction l as [|x l IH]; intros [|j]; simpl; auto.
Qed.

Lemma bitpos_mod (c : Z) : bitpos c = c mod 64.
Proof.
  unfold bitpos. change (Z.shiftl 1 6 - 1) with (Z.ones 6).
  now rewrite Z.land_ones by lia.
Qed.

Lemma get_testbit (m : BitSerialMatrix) (b r c : Z) :
  get m b r c = Z.testbit (word m b r c) (c mod 64).
Proof.
  unfold get. rewrite bitpos_mod.
  pose proof (Z.mod_pos_bound c 64 ltac:(lia)) as Hp.
  change 1 with (Z.ones 1) at 1. rewrite Z.land_ones by lia.
  change (2 ^ 1) with 2. rewrite <- Z.bit0_mod, Z.shiftr_spec by lia.
  simpl. destruct (Z.testbit _ _); reflexivity.
Qed.

Lemma mixed_radix_inj (W a p a' p' : Z) :
  0 <= p < W -> 0 <= p' < W -> a * W + p = a' * W + p' -> a = a' /\ p = p'.
Proof.
  intros Hp Hp' E. apply (Z.div_mod_unique W); [left; lia | left; lia | lia].
Qed.

Section Addressing.

Variable m : BitSerialMatrix.
Hypothesis Hwf : spec.wf m.

Lemma wordsPerBitplane_wf : wordsPerBitplane m = nrows_a m * (ncols_a m / 64).
Proof.
  unfold wordsPerBitplane, wordsPerRow. apply wrap64_small.
  destruct Hwf as (? & ? & ? & ? & ? & ? & ?).
  assert (0 <= ncols_a m / 64) by (apply Z.div_pos; lia). nia.
Qed.

Lemma word_index_wf (b r c : Z) :
  spec.allocated m b r c ->
  word_index m b r c = b * (nrows_a m * (ncols_a m / 64)) + r * (ncols_a m / 64) + c / 64
  /\ 0 <= c / 64 < ncols_a m / 64
  /\ 0 <= word_index m b r c < nbits m * (nrows_a m * (ncols_a m / 64)).
Proof.
  intros (Hb & Hr & Hc).
  destruct Hwf as (Hn & Hrows & Hcols & Hmod & Hw & Hbytes & Hlen).
  assert (Hq : 0 <= c / 64 < ncols_a m / 64).
  { split; [apply Z.div_pos; lia|].
    apply Z.div_lt_upper_bound; [lia|].
    rewrite (Z.div_mod (ncols_a m) 64) in Hc by lia. lia. }
  unfold word_index. rewrite wordsPerBitplane_wf. unfold wordsPerRow.
  rewrite Z.shiftr_div_pow2 by lia. change (2 ^ 6) with 64.
  set (w := ncols_a m / 64) in *. set (q := c / 64) in *.
  assert (Hrow : 0 <= r * w + q /\ r * w + q + 1 <= nrows_a m * w).
  { assert ((r + 1) * w <= nrows_a m * w) by (apply Z.mul_le_mono_nonneg_r; lia).
    nia. }
  assert (Hplane : 0 <= b * (nrows_a m * w)
                   /\ (b + 1) * (nrows_a m * w) <= nbits m * (nrows_a m * w)).
  { split; [apply Z.mul_nonneg_nonneg; lia|].
    apply Z.mul_le_mono_nonneg_r; lia. }
  rewrite wrap64_small by lia. lia.
Qed.

Lemma word_index_inj (b r c b' r' c' : Z) :
  spec.allocated m b r c -> spec.allocated m b' r' c' ->
  word_index m b r c = word_index m b' r' c' -> c mod 64 = c' mod 64 ->
  b = b' /\ r = r' /\ c = c'.
Proof.
  intros Ha Ha' Hidx Hbit.
  destruct (word_index_wf b r c Ha) as (E & Hq & _).
  destruct (word_index_wf b' r' c' Ha') as (E' & Hq' & _).
  rewrite E, E' in Hidx. clear E E'.
  destruct Ha as (Hb & Hr & Hc). destruct Ha' as (Hb' & Hr' & Hc').
  set (w := ncols_a m / 64) in *.
  assert (Hrow : forall r q, 0 <= r < nrows_a m -> 0 <= q < w ->
                   0 <= r * w + q < nrows_a m * w).
  { intros r0 q0 Hr0 Hq0.
    assert ((r0 + 1) * w <= nrows_a m * w) by (apply Z.mul_le_mono_nonneg_r; lia).
    nia. }
  destruct (mixed_radix_inj (nrows_a m * w) b (r * w + c / 64) b' (r' * w + c' / 64))
    as [Hbb Hrest]; [apply Hrow; lia | apply Hrow; lia | lia |].
  destruct (mixed_radix_inj w r (c / 64) r' (c' / 64)) as [Hrr Hqq]; [lia | lia | lia |].
  split; [assumption|]. split; [assumption|].
  rewrite (Z.div_mod c 64), (Z.div_mod c' 64) by lia. lia.
Qed.

End Addressing.

Lemma shaped_refl (m : BitSerialMatrix) : spec.shaped m m.
Proof. exists (data m). destruct m; split; reflexivity. Qed.

Lemma shaped_wf (m0 m : BitSerialMatrix) : spec.wf m0 -> spec.shaped m0 m -> spec.wf m.
Proof.
  intros Hwf [d [-> Hlen]]. unfold spec.wf in *. simpl. rewrite Hlen. exact Hwf.
Qed.

Lemma shaped_allocated (m0 m : BitSerialMatrix) (b r c : Z) :
  spec.shaped m0 m -> spec.allocated m0 b r c -> spec.allocated m b r c.
Proof. intros [d [-> _]] H. exact H. Qed.

Lemma shaped_set (m0 m : BitSerialMatrix) (b r c : Z) :
  spec.shaped m0 m -> spec.shaped m0 (set m b r c).
Proof.
  intros [d [-> Hlen]]. unfold set. simpl.
  eexists. split; [reflexivity|]. now rewrite length_list_update.
Qed.

Lemma shaped_clearAll (m : BitSerialMatrix) : spec.shaped m (clearAll m).
Proof.
  unfold clearAll.
  eexists. split.
  - destruct m; reflexivity.
  - rewrite length_app, repeat_length, length_skipn. lia.
Qed.

Lemma pow2_testbit (p q : Z) :
  0 <= p < 64 -> 0 <= q -> Z.testbit (wrap64 (Z.shiftl 1 p)) q = (p =? q).
Proof.
  intros Hp Hq. rewrite Z.shiftl_1_l.
  rewrite wrap64_small.
  - now apply Z.pow2_bits_eqb.
  - split; [apply Z.pow_nonneg; lia|]. apply Z.pow_lt_mono_r; lia.
Qed.

Lemma get_set (m : BitSerialMatrix) (b r c b' r' c' : Z) :
  spec.wf m -> spec.allocated m b r c -> spec.allocated m b' r' c' ->
  get (set m b r c) b' r' c'
  = ((b' =? b) && (r' =? r) && (c' =? c)) || get m b' r' c'.
Proof.
  intros Hwf Ha Ha'. rewrite !get_testbit.
  unfold word at 1.
  replace (word_index (set m b r c) b' r' c') with (word_index m b' r' c') by reflexivity.
  unfold set. simpl data. rewrite nth_list_update. fold (word m b' r' c').
  destruct (word_index_wf m Hwf b r c Ha) as (_ & _ & Hi).
  destruct (word_index_wf m Hwf b' r' c' Ha') as (_ & _ & Hi').
  assert (Hlen : length (data m) = Z.to_nat (nbits m * (nrows_a m * (ncols_a m / 64))))
    by apply Hwf.
  pose proof (Z.mod_pos_bound c 64 ltac:(lia)) as Hp.
  pose proof (Z.mod_pos_bound c' 64 ltac:(lia)) as Hp'.
  replace (Nat.ltb (Z.to_nat (word_index m b r c)) (length (data m))) with true
    by (symmetry; apply Nat.ltb_lt; lia).
  rewrite andb_true_r.
  destruct (Nat.eqb_spec (Z.to_nat (word_index m b' r' c')) (Z.to_nat (word_index m b r c)))
    as [E|E].
  - assert (Eidx : word_index m b' r' c' = word_index m b r c) by lia.
    rewrite Z.lor_spec, bitpos_mod, pow2_testbit by lia.
    destruct (Z.eqb_spec (c mod 64) (c' mod 64)) as [Ec|Ec].
    + destruct (word_index_inj m Hwf b' r' c' b r c Ha' Ha Eidx (eq_sym Ec))
        as (-> & -> & ->).
      rewrite !Z.eqb_refl. simpl. now rewrite orb_true_r.
    + rewrite orb_false_r.
      destruct (Z.eqb_spec c' c) as [->|]; [congruence|].
      now rewrite andb_false_r.
  - destruct (Z.eqb_spec b' b) as [->|]; [|reflexivity].
    destruct (Z.eqb_spec r' r) as [->|]; [|reflexivity].
    destruct (Z.eqb_spec c' c) as [->|]; [|reflexivity].
    congruence.
Qed.

Lemma get_clearAll (m : BitSerialMatrix) (b r c : Z) :
  spec.wf m -> spec.allocated m b r c -> get (clearAll m) b r c = false.
Proof.
  intros Hwf Ha. rewrite get_testbit. unfold word.
  replace (word_index (clearAll m) b r c) with (word_index m b r c) by reflexivity.
  rewrite clearAll_zeroes.
  - destruct (word_index_wf m Hwf b r c Ha) as (_ & _ & Hi).
    rewrite nth_repeat. apply Z.testbit_0_l.
  - rewrite wordsPerBitplane_wf by assumption.
    destruct Hwf as (? & ? & ? & ? & ? & ? & ?).
    assert (0 <= ncols_a m / 64) by (apply Z.div_pos; lia).
    split; [|lia].
    repeat apply Z.mul_nonneg_nonneg; lia.
  - rewrite wordsPerBitplane_wf by assumption. apply Hwf.
Qed.

(** ** The import loops *)

Lemma bool_eq_iff (a b : bool) : (a = true <-> b = true) -> a = b.
Proof. destruct a, b; intuition congruence. Qed.

Lemma existsb_Zrange_unique (n x0 : Z) (P : Z -> bool) :
  existsb (fun x => (x0 =? x) && P x) (Zrange n)
  = (0 <=? x0) && (x0 <? n) && P x0.
Proof.
  apply bool_eq_iff. rewrite existsb_exists. split.
  - intros [x [Hin Hx]]. apply Zrange_In in Hin.
    apply andb_prop in Hx. destruct Hx as [E HP]. apply Z.eqb_eq in E. subst x.
    rewrite HP, andb_true_r. apply andb_true_intro. split.
    + apply Z.leb_le. lia.
    + apply Z.ltb_lt. lia.
  - intros H. apply andb_prop in H. destruct H as [H HP].
    apply andb_prop in H. destruct H as [H1 H2].
    apply Z.leb_le in H1. apply Z.ltb_lt in H2.
    exists x0. split; [apply Zrange_In; lia|].
    now rewrite Z.eqb_refl, HP.
Qed.

Section Loops.

Variable m0 : BitSerialMatrix.
Hypothesis Hwf : spec.wf m0.

Lemma loop_sets {X : Type} (step : BitSerialMatrix -> X -> BitSerialMatrix)
    (hit : X -> Z -> Z -> Z -> bool) (l : list X) :
  (forall m x, In x l -> spec.shaped m0 m ->
     spec.shaped m0 (step m x)
     /\ forall b r c, spec.allocated m0 b r c ->
          get (step m x) b r c = hit x b r c || get m b r c) ->
  forall m, spec.shaped m0 m ->
    spec.shaped m0 (fold_left step l m)
    /\ forall b r c, spec.allocated m0 b r c ->
         get (fold_left step l m) b r c
         = existsb (fun x => hit x b r c) l || get m b r c.
Proof.
  induction l as [|x l IH]; intros Hstep m Hm; simpl.
  - split; [assumption|]. reflexivity.
  - destruct (Hstep m x (or_introl eq_refl) Hm) as [Hs Hg].
    destruct (IH (fun m' x' Hin => Hstep m' x' (or_intror Hin)) (step m x) Hs)
      as [Hs' Hg'].
    split; [assumption|]. intros b r c Ha.
    rewrite Hg', Hg by assumption.
    rewrite orb_assoc. f_equal. apply orb_comm.
Qed.

Lemma set_step (m : BitSerialMatrix) (b r c : Z) :
  spec.shaped m0 m -> spec.allocated m0 b r c ->
  spec.shaped m0 (set m b r c)
  /\ forall b' r' c', spec.allocated m0 b' r' c' ->
       get (set m b r c) b' r' c'
       = ((b' =? b) && (r' =? r) && (c' =? c)) || get m b' r' c'.
Proof.
  intros Hm Ha. split; [now apply shaped_set|].
  intros b' r' c' Ha'. apply get_set.
  - eapply shaped_wf; eassumption.
  - eapply shaped_allocated; eassumption.
  - eapply shaped_allocated; eassumption.
Qed.

Lemma store_bits_spec (m : BitSerialMatrix) (u r c : Z) :
  spec.shaped m0 m -> 0 <= r < nrows_a m0 -> 0 <= c < ncols_a m0 ->
  spec.shaped m0 (store_bits m u r c)
  /\ forall b' r' c', spec.allocated m0 b' r' c' ->
       get (store_bits m u r c) b' r' c'
       = ((r' =? r) && (c' =? c) && negb (Z.land u (shl_int b') =? 0))
         || get m b' r' c'.
Proof.
  intros Hm Hr Hc. unfold store_bits.
  assert (Hnb : nbits m = nbits m0) by (destruct Hm as [d [-> _]]; reflexivity).
  rewrite Hnb.
  destruct (loop_sets
              (fun m b => if negb (Z.land u (shl_int b) =? 0) then set m b r c else m)
              (fun b b' r' c' =>
                 (b' =? b) && (negb (Z.land u (shl_int b) =? 0) && (r' =? r) && (c' =? c)))
              (Zrange (nbits m0))) with (m := m) as [Hs Hg].
  - intros m1 b Hin Hm1. apply Zrange_In in Hin.
    destruct (negb (Z.land u (shl_int b) =? 0)).
    + destruct (set_step m1 b r c Hm1) as [Hs Hg]; [repeat split; lia|].
      split; [assumption|]. intros b' r' c' Ha'. rewrite Hg by assumption.
      f_equal. simpl. now rewrite <- andb_assoc.
    + split; [assumption|]. intros b' r' c' _. simpl.
      now rewrite andb_false_r.
  - assumption.
  - split; [assumption|]. intros b' r' c' Ha'. rewrite Hg by assumption.
    f_equal. rewrite existsb_Zrange_unique.
    destruct Ha' as (Hb' & _).
    replace (0 <=? b') with true by (symmetry; apply Z.leb_le; lia).
    replace (b' <? nbits m0) with true by (symmetry; apply Z.ltb_lt; lia).
    simpl. destruct (negb _), (r' =? r), (c' =? c); reflexivity.
Qed.

Lemma import_loop_spec (cell : BitSerialMatrix -> Z -> Z -> BitSerialMatrix)
    (bitof : Z -> Z -> Z -> bool) :
  (forall m r c, spec.shaped m0 m -> 0 <= r < nrows m0 -> 0 <= c < ncols m0 ->
     spec.shaped m0 (cell m r c)
     /\ forall b' r' c', spec.allocated m0 b' r' c' ->
          get (cell m r c) b' r' c'
          = ((r' =? r) && (c' =? c) && bitof r c b') || get m b' r' c') ->
  let m' := fold_left
              (fun m r => fold_left (fun m c => cell m r c) (Zrange (ncols m)) m)
              (Zrange (nrows m0)) (clearAll m0) in
  spec.shaped m0 m'
  /\ forall b r c, spec.allocated m0 b r c ->
       get m' b r c = spec.logical m0 r c && bitof r c b.
Proof.
  intros Hcell m'. unfold m'. clear m'.
  destruct (loop_sets
              (fun m r => fold_left (fun m c => cell m r c) (Zrange (ncols m)) m)
              (fun r0 b' r' c' =>
                 (r' =? r0) && ((0 <=? c') && (c' <? ncols m0) && bitof r0 c' b'))
              (Zrange (nrows m0))) with (m := clearAll m0) as [Hshape Hg].
  - intros m r0 Hin Hm. apply Zrange_In in Hin.
    assert (Hnc : ncols m = ncols m0) by (destruct Hm as [d [-> _]]; reflexivity).
    rewrite Hnc.
    destruct (loop_sets (fun m c => cell m r0 c)
                (fun c0 b' r' c' => (c' =? c0) && ((r' =? r0) && bitof r0 c0 b'))
                (Zrange (ncols m0))) with (m := m) as [Hs Hg].
    + intros m1 c0 Hin0 Hm1. apply Zrange_In in Hin0.
      destruct (Hcell m1 r0 c0 Hm1 Hin Hin0) as [Hs Hg].
      split; [assumption|]. intros b' r' c' Ha'. rewrite Hg by assumption.
      f_equal. destruct (r' =? r0), (c' =? c0); reflexivity.
    + assumption.
    + split; [assumption|]. intros b' r' c' Ha'. rewrite Hg by assumption.
      f_equal. rewrite existsb_Zrange_unique.
      destruct (r' =? r0), (0 <=? c'), (c' <? ncols m0), (bitof r0 c' b'); reflexivity.
  - apply shaped_clearAll.
  - split; [assumption|]. intros b r c Ha.
    rewrite Hg by assumption. rewrite get_clearAll, orb_false_r by assumption.
    rewrite existsb_Zrange_unique. unfold spec.logical.
    destruct (0 <=? r), (r <? nrows m0), (0 <=? c), (c <? ncols m0); reflexivity.
Qed.

End Loops.

Lemma importRegular_spec (m : BitSerialMatrix) (matrix : list Z)
    (readColMajor : bool) :
  spec.wf m ->
  spec.shaped m (importRegular m matrix readColMajor)
  /\ forall b r c, spec.allocated m b r c ->
       get (importRegular m matrix readColMajor) b r c
       = spec.logical m r c
         && spec.stored_bit m (read_elem m matrix readColMajor r c) b.
Proof.
  intros Hwf. unfold importRegular.
  apply (import_loop_spec m Hwf (import_cell matrix readColMajor)
           (fun r c b => spec.stored_bit m (read_elem m matrix readColMajor r c) b)).
  intros m1 r c Hm1 Hr Hc.
  assert (Hr' : 0 <= r < nrows_a m) by (destruct Hwf as (? & ? & ?); lia).
  assert (Hc' : 0 <= c < ncols_a m) by (destruct Hwf as (? & ? & ? & ?); lia).
  unfold import_cell, spec.stored_bit.
  replace (read_elem m1 matrix readColMajor r c) with (read_elem m matrix readColMajor r c)
    by (destruct Hm1 as [d [-> _]]; reflexivity).
  replace (isBipolar m1) with (isBipolar m) by (destruct Hm1 as [d [-> _]]; reflexivity).
  replace (to_twos_complement m1) with (to_twos_complement m)
    by (destruct Hm1 as [d [-> _]]; reflexivity).
  destruct (isBipolar m) eqn:Hbip.
  - destruct (read_elem m matrix readColMajor r c >? 0).
    + destruct (set_step m Hwf m1 0 r c Hm1) as [Hs Hg].
      { unfold isBipolar in Hbip. apply andb_prop in Hbip. destruct Hbip as [Hb _].
        apply Z.eqb_eq in Hb. repeat split; lia. }
      split; [assumption|]. intros b' r' c' Ha'. rewrite Hg by assumption.
      f_equal. destruct (b' =? 0), (r' =? r), (c' =? c); reflexivity.
    + split; [assumption|]. intros b' r' c' _.
      now rewrite !andb_false_r.
  - apply store_bits_spec; assumption.
Qed.

Lemma importRegular_get (m : BitSerialMatrix) (matrix : list Z)
    (readColMajor : bool) (b r c : Z) :
  spec.wf m -> spec.allocated m b r c ->
  get (importRegular m matrix readColMajor) b r c
  = spec.logical m r c && spec.stored_bit m (read_elem m matrix readColMajor r c) b.
Proof.
  intros Hwf. now apply importRegular_spec.
Qed.

Lemma quantize_loop_shaped (m d : _) (thresholds : list Z) (nThres r : Z)
    (ts : list Z) (v : Z) :
  quantize_loop (with_data m d) thresholds nThres r ts v
  = quantize_loop m thresholds nThres r ts v.
Proof.
  revert v. induction ts as [|t ts IH]; intros v; simpl; [reflexivity|].
  now rewrite !IH.
Qed.

Lemma quantize_cell_step (m : BitSerialMatrix) (matrix thresholds : list Z)
    (nThres : Z) (readColMajor : bool) (m1 : BitSerialMatrix) (r c : Z) :
  spec.wf m -> spec.shaped m m1 -> 0 <= r < nrows m -> 0 <= c < ncols m ->
  spec.shaped m (quantize_cell matrix thresholds nThres readColMajor m1 r c)
  /\ forall b' r' c', spec.allocated m b' r' c' ->
       get (quantize_cell matrix thresholds nThres readColMajor m1 r c) b' r' c'
       = ((r' =? r) && (c' =? c)
          && negb (Z.land
                     (to_uint8 (spec.quantized m matrix thresholds nThres readColMajor r c))
                     (shl_int b') =? 0))
         || get m1 b' r' c'.
Proof.
  intros Hwf Hm1 Hr Hc.
  assert (Hr' : 0 <= r < nrows_a m) by (destruct Hwf as (? & ? & ?); lia).
  assert (Hc' : 0 <= c < ncols_a m) by (destruct Hwf as (? & ? & ? & ?); lia).
  unfold quantize_cell, spec.quantized.
  replace (read_elem m1 matrix readColMajor r c) with (read_elem m matrix readColMajor r c)
    by (destruct Hm1 as [d [-> _]]; reflexivity).
  replace (quantize_loop m1 thresholds nThres r (Zrange nThres)
             (read_elem m matrix readColMajor r c))
    with (quantize_loop m thresholds nThres r (Zrange nThres)
            (read_elem m matrix readColMajor r c))
    by (destruct Hm1 as [d [-> _]]; now rewrite quantize_loop_shaped).
  apply store_bits_spec; assumption.
Qed.

Lemma importRegularAndQuantize_get (m : BitSerialMatrix)
    (matrix thresholds : list Z) (nThres : Z) (readColMajor : bool) :
  spec.wf m -> issigned m = false ->
  exists m',
    importRegularAndQuantize m matrix thresholds nThres readColMajor = Some m'
    /\ forall b r c, spec.allocated m b r c ->
         get m' b r c
         = spec.logical m r c
           && negb (Z.land
                      (to_uint8 (spec.quantized m matrix thresholds nThres readColMajor r c))
                      (shl_int b) =? 0).
Proof.
  intros Hwf Hs. unfold importRegularAndQuantize. rewrite Hs.
  eexists. split; [reflexivity|].
  apply (import_loop_spec m Hwf
           (quantize_cell matrix thresholds nThres readColMajor)
           (fun r c b =>
              negb (Z.land
                      (to_uint8 (spec.quantized m matrix thresholds nThres readColMajor r c))
                      (shl_int b) =? 0))).
  intros m1 r c Hm1 Hr Hc. now apply quantize_cell_step.
Qed.

(** C4: after [importRegular], and after [importRegularAndQuantize] whenever
    it runs (it stops on its assertion exactly when the matrix is signed),
    every bit of the buffer at a padded position -- bit-plane [b], row [r],
    column [c] within the allocated extents with [r >= nrows] or
    [c >= ncols] -- is 0. *)
Theorem imports_leave_padding_zero (m : BitSerialMatrix)
    (matrix thresholds : list Z) (nThres : Z) (readColMajor : bool) (b r c : Z) :
  spec.wf m -> spec.allocated m b r c -> nrows m <= r \/ ncols m <= c ->
  get (importRegular m matrix readColMajor) b r c = false
  /\ match importRegularAndQuantize m matrix thresholds nThres readColMajor with
     | Some m' => issigned m = false /\ get m' b r c = false
     | None => issigned m = true
     end.
Proof.
  intros Hwf Ha Hpad.
  assert (Hlog : spec.logical m r c = false).
  { unfold spec.logical. destruct Hpad as [H|H].
    - replace (r <? nrows m) with false by (symmetry; apply Z.ltb_ge; lia).
      now rewrite andb_false_r.
    - replace (c <? ncols m) with false by (symmetry; apply Z.ltb_ge; lia).
      now rewrite andb_false_r. }
  split.
  - now rewrite importRegular_get, Hlog by assumption.
  - destruct (issigned m) eqn:Hs.
    + unfold importRegularAndQuantize. now rewrite Hs.
    + destruct (importRegularAndQuantize_get m matrix thresholds nThres readColMajor Hwf Hs)
        as [m' [-> Hg]].
      split; [reflexivity|]. now rewrite Hg, Hlog by assumption.
Qed.

(** ** The 8-bit intermediate *)

Lemma shl_int_pow2 (b : Z) : 0 <= b < 31 -> shl_int b = 2 ^ b.
Proof.
  intros H. unfold shl_int. rewrite Z.mod_small by lia.
  rewrite Z.shiftl_1_l. apply wrap32_small.
  assert (0 < 2 ^ b) by (apply Z.pow_pos_nonneg; lia).
  assert (2 ^ b < 2 ^ 31) by (apply Z.pow_lt_mono_r; lia). lia.
Qed.

(** Beyond the width of [int] the shift count starts again from 0. *)
Lemma shl_int_mod32 (b : Z) : shl_int b = shl_int (b mod 32).
Proof. unfold shl_int. now rewrite Z.mod_mod by lia. Qed.

Lemma shl_int_high (b : Z) : 8 <= b < 32 -> exists y, shl_int b = y * 2 ^ 8.
Proof.
  intros H. unfold shl_int. rewrite Z.mod_small by lia. rewrite Z.shiftl_1_l.
  destruct (wrap32_eqm (2 ^ b)) as [k ->].
  exists (2 ^ (b - 8) + k * 2 ^ 24).
  replace b with ((b - 8) + 8) at 1 by lia.
  rewrite Z.pow_add_r by lia. change (2 ^ 32) with (2 ^ 24 * 2 ^ 8). lia.
Qed.

Lemma testbit_above (u n k : Z) : 0 <= u < 2 ^ k -> 0 <= k <= n -> Z.testbit u n = false.
Proof.
  intros Hu Hk. apply Z.testbit_false; [lia|].
  rewrite Z.div_small; [reflexivity|].
  assert (2 ^ k <= 2 ^ n) by (apply Z.pow_le_mono_r; lia). lia.
Qed.

Lemma land_uint8_shl_high (u b : Z) :
  0 <= u < 2 ^ 8 -> 8 <= b < 32 -> Z.land u (shl_int b) = 0.
Proof.
  intros Hu Hb. destruct (shl_int_high b Hb) as [y ->].
  apply Z.bits_inj'. intros n Hn. rewrite Z.land_spec, Z.bits_0.
  destruct (Z.lt_ge_cases n 8).
  - rewrite Z.mul_pow2_bits_low by lia. apply andb_false_r.
  - now rewrite (testbit_above u n 8) by lia.
Qed.

Lemma land_pow2_testbit (u b : Z) :
  0 <= b -> negb (Z.land u (2 ^ b) =? 0) = Z.testbit u b.
Proof.
  intros Hb. destruct (Z.testbit u b) eqn:Hbit.
  - replace (Z.land u (2 ^ b)) with (2 ^ b).
    + assert (0 < 2 ^ b) by (apply Z.pow_pos_nonneg; lia).
      destruct (Z.eqb_spec (2 ^ b) 0); [lia | reflexivity].
    + apply Z.bits_inj'. intros n Hn.
      rewrite Z.land_spec, Z.pow2_bits_eqb by lia.
      destruct (Z.eqb_spec b n) as [<-|]; [now rewrite Hbit | now rewrite andb_false_r].
  - replace (Z.land u (2 ^ b)) with 0; [reflexivity|].
    apply Z.bits_inj'. intros n Hn.
    rewrite Z.land_spec, Z.pow2_bits_eqb, Z.bits_0 by lia.
    destruct (Z.eqb_spec b n) as [<-|]; [now rewrite Hbit | now rewrite andb_false_r].
Qed.

Lemma to_uint8_range (x : Z) : 0 <= to_uint8 x < 2 ^ 8.
Proof. unfold to_uint8. apply Z.mod_pos_bound. lia. Qed.

Lemma to_twos_complement_range (m : BitSerialMatrix) (v : Z) :
  0 <= to_twos_complement m v < 2 ^ 8.
Proof.
  unfold to_twos_complement. destruct (issigned m && (v <? 0)); apply to_uint8_range.
Qed.

Lemma stored_bit_uint8 (u b : Z) :
  0 <= u < 2 ^ 8 -> 0 <= b < 32 ->
  negb (Z.land u (shl_int b) =? 0) = (b <? 8) && Z.testbit u b.
Proof.
  intros Hu Hb. destruct (Z.ltb_spec b 8).
  - rewrite shl_int_pow2 by lia. now rewrite land_pow2_testbit by lia.
  - now rewrite land_uint8_shl_high by lia.
Qed.

(** C10, as the code has it: [importRegular] passes every element of a
    non-bipolar matrix through a [uint8_t], so that for a matrix of more
    than 8 and at most 32 bits the bit-planes 8 to [nbits - 1] are zero
    after the import at every position of the buffer, whatever the source
    holds.  Beyond 32 bits the mask [1 << b] leaves the width of [int]. *)
Theorem importRegular_planes_above_8_zero (m : BitSerialMatrix)
    (matrix : list Z) (readColMajor : bool) :
  spec.wf m -> 8 < nbits m <= 32 ->
  (forall v, 0 <= to_twos_complement m v < 2 ^ 8)
  /\ forall b r c, spec.allocated m b r c -> 8 <= b ->
       get (importRegular m matrix readColMajor) b r c = false.
Proof.
  intros Hwf Hnb. split; [apply to_twos_complement_range|].
  intros b r c Ha Hb. rewrite importRegular_get by assumption.
  unfold spec.stored_bit, isBipolar.
  destruct (Z.eqb_spec (nbits m) 1); [lia|]. simpl.
  assert (Hb32 : b < 32) by (destruct Ha as ((_ & Hlt) & _); lia).
  rewrite land_uint8_shl_high by (apply to_twos_complement_range || lia).
  apply andb_false_r.
Qed.

(** With 33 bits, bit-plane 32 of the element 1 is set: the shift count 32
    is taken modulo the width of [int], and the mask is that of plane 0. *)
Lemma importRegular_33_bits_sets_plane_32 :
  spec.wf (spec.zero_bsm false 33 1 1 1 64)
  /\ 8 < nbits (spec.zero_bsm false 33 1 1 1 64)
  /\ spec.allocated (spec.zero_bsm false 33 1 1 1 64) 32 0 0
  /\ get (importRegular (spec.zero_bsm false 33 1 1 1 64) [1] false) 32 0 0 = true
  /\ forall b, 0 <= b < 33 ->
       get (importRegular (spec.zero_bsm false 33 1 1 1 64) [1] false) b 0 0
       = (b mod 32 =? 0).
Proof.
  split; [solve_wf|]. split; [simpl; lia|]. split; [solve_wf|].
  split; [vm_compute; reflexivity|].
  intros b Hb.
  assert (Hin : In b (Zrange 33)) by (apply Zrange_In; lia).
  revert Hin. clear Hb. revert b. apply Forall_forall.
  let l := eval vm_compute in (Zrange 33) in change (Zrange 33) with l.
  repeat (constructor; [vm_compute; reflexivity|]). constructor.
Qed.

(** ** Threshold quantisation *)

Lemma quantize_loop_seq (m : BitSerialMatrix) (thresholds : list Z)
    (nThres r v : Z) (k s : nat) :
  Z.of_nat (s + k) = nThres -> (1 <= k)%nat ->
  exists q,
    quantize_loop m thresholds nThres r (map Z.of_nat (seq s k)) v = q
    /\ Z.of_nat s <= q <= nThres
    /\ (forall t, Z.of_nat s <= t < q -> spec.threshold_at m thresholds t r < v)
    /\ (q < nThres -> v <= spec.threshold_at m thresholds q r).
Proof.
  revert s. induction k as [|k IH]; intros s Hs Hk; [lia|].
  simpl. fold (spec.threshold_at m thresholds (Z.of_nat s) r).
  destruct (Z.leb_spec v (spec.threshold_at m thresholds (Z.of_nat s) r)) as [Hle|Hgt].
  - exists (Z.of_nat s). repeat split; try lia.
  - destruct (Z.eqb_spec (Z.of_nat s) (nThres - 1)) as [E|E].
    + assert (k = O) by lia. subst k. simpl.
      exists (Z.of_nat s + 1). repeat split; try lia.
      intros t Ht. replace t with (Z.of_nat s) by lia. assumption.
    + destruct (IH (S s)) as [q [Hq [Hr [Hbelow Hat]]]]; [lia | lia |].
      exists q. split; [exact Hq|]. split; [lia|]. split; [|assumption].
      intros t Ht. destruct (Z.eq_dec t (Z.of_nat s)) as [->|]; [assumption|].
      apply Hbelow. lia.
Qed.

Lemma quantized_level (m : BitSerialMatrix) (matrix thresholds : list Z)
    (nThres : Z) (readColMajor : bool) (r c : Z) :
  1 <= nThres ->
  let v := read_elem m matrix readColMajor r c in
  let q := spec.quantized m matrix thresholds nThres readColMajor r c in
  0 <= q <= nThres
  /\ (forall t, 0 <= t < q -> spec.threshold_at m thresholds t r < v)
  /\ (q < nThres -> v <= spec.threshold_at m thresholds q r).
Proof.
  intros Hn. cbv zeta. unfold spec.quantized, Zrange.
  destruct (quantize_loop_seq m thresholds nThres r
              (read_elem m matrix readColMajor r c) (Z.to_nat nThres) 0)
    as [q' [-> H]]; [lia | lia |].
  exact H.
Qed.

(** C7, as the code has it: [importRegularAndQuantize] stops on its
    assertion for a signed matrix; for an unsigned one of at most 32 bits
    and at least one threshold ([nThres >= 1]), whatever the order of the
    thresholds, the logical element [(r, c)] is stored as the bits of its
    level [q] reduced to 8 bits, bit-plane [b] holding bit [b] of
    [q mod 256], where [q] is the smallest index [t] with
    [src[r,c] <= thresholds[t][r]], or [nThres] when there is none. *)
Theorem importRegularAndQuantize_stores_level (m : BitSerialMatrix)
    (matrix thresholds : list Z) (nThres : Z) (readColMajor : bool) :
  (issigned m = true ->
   importRegularAndQuantize m matrix thresholds nThres readColMajor = None)
  /\ (issigned m = false -> spec.wf m -> nbits m <= 32 -> 1 <= nThres ->
      exists m',
        importRegularAndQuantize m matrix thresholds nThres readColMajor = Some m'
        /\ forall r c, 0 <= r < nrows m -> 0 <= c < ncols m ->
             exists q,
               0 <= q <= nThres
               /\ (forall t, 0 <= t < q ->
                     spec.threshold_at m thresholds t r
                     < read_elem m matrix readColMajor r c)
               /\ (q < nThres ->
                   read_elem m matrix readColMajor r c
                   <= spec.threshold_at m thresholds q r)
               /\ forall b, 0 <= b < nbits m ->
                    get m' b r c = Z.testbit (q mod 2 ^ 8) b).
Proof.
  split.
  - intros Hs. unfold importRegularAndQuantize. now rewrite Hs.
  - intros Hs Hwf Hnb Hn.
    destruct (importRegularAndQuantize_get m matrix thresholds nThres readColMajor Hwf Hs)
      as [m' [E Hg]].
    exists m'. split; [exact E|]. intros r c Hr Hc.
    exists (spec.quantized m matrix thresholds nThres readColMajor r c).
    destruct (quantized_level m matrix thresholds nThres readColMajor r c Hn)
      as (Hq & Hbelow & Hat).
    repeat (split; [assumption|]).
    intros b Hb. rewrite Hg.
    + unfold spec.logical.
      replace (0 <=? r) with true by (symmetry; apply Z.leb_le; lia).
      replace (r <? nrows m) with true by (symmetry; apply Z.ltb_lt; lia).
      replace (0 <=? c) with true by (symmetry; apply Z.leb_le; lia).
      replace (c <? ncols m) with true by (symmetry; apply Z.ltb_lt; lia).
      simpl. rewrite stored_bit_uint8 by (apply to_uint8_range || lia).
      unfold to_uint8. destruct (Z.ltb_spec b 8); [reflexivity|].
      simpl. symmetry. apply (testbit_above _ b 8); [|lia].
      apply Z.mod_pos_bound. lia.
    + destruct Hwf as (? & ? & ? & ?). repeat split; lia.
Qed.

Lemma importRegularAndQuantize_misses_levels :
  (exists m',
     importRegularAndQuantize (spec.zero_bsm false 1 1 1 1 64) [1] [] 0 false = Some m'
     /\ get m' 0 0 0 = true
     /\ Z.testbit 0 0 = false)
  /\ (exists m',
        importRegularAndQuantize (spec.zero_bsm false 9 1 1 1 64) [1] (repeat 0 256)
          256 false = Some m'
        /\ spec.quantized (spec.zero_bsm false 9 1 1 1 64) [1] (repeat 0 256)
             256 false 0 0 = 256
        /\ get m' 8 0 0 = false
        /\ Z.testbit 256 8 = true)
  /\ (exists m',
        importRegularAndQuantize (spec.zero_bsm false 33 1 1 1 64) [5] [0; 7]
          2 false = Some m'
        /\ spec.quantized (spec.zero_bsm false 33 1 1 1 64) [5] [0; 7]
             2 false 0 0 = 1
        /\ get m' 32 0 0 = true
        /\ Z.testbit 1 32 = false).
Proof.
  split; [eexists; repeat split|].
  split; [eexists; repeat split|].
  eexists. repeat split.
Qed.

Lemma importRegularAndQuantize_stores_level_witness :
  spec.wf (spec.zero_bsm false 2 1 2 1 64)
  /\ exists m',
       importRegularAndQuantize (spec.zero_bsm false 2 1 2 1 64) [5; 20] [3; 10] 2 false
       = Some m'
       /\ forall r c,
            0 <= r < nrows (spec.zero_bsm false 2 1 2 1 64) ->
            0 <= c < ncols (spec.zero_bsm false 2 1 2 1 64) ->
            exists q,
              0 <= q <= 2
              /\ (forall t, 0 <= t < q ->
                    spec.threshold_at (spec.zero_bsm false 2 1 2 1 64) [3; 10] t r
                    < read_elem (spec.zero_bsm false 2 1 2 1 64) [5; 20] false r c)
              /\ (q < 2 ->
                  read_elem (spec.zero_bsm false 2 1 2 1 64) [5; 20] false r c
                  <= spec.threshold_at (spec.zero_bsm false 2 1 2 1 64) [3; 10] q r)
              /\ forall b, 0 <= b < nbits (spec.zero_bsm false 2 1 2 1 64) ->
                   get m' b r c = Z.testbit (q mod 2 ^ 8) b.
Proof.
  assert (Hwf : spec.wf (spec.zero_bsm false 2 1 2 1 64)) by solve_wf.
  split; [exact Hwf|].
  apply (proj2 (importRegularAndQuantize_stores_level (spec.zero_bsm false 2 1 2 1 64)
                  [5; 20] [3; 10] 2 false) eq_refl Hwf).
  - simpl. lia.
  - lia.
Defined.

(** ** Sums *)

Lemma Zsum_app (f : Z -> Z) (l1 l2 : list Z) :
  spec.Zsum f (l1 ++ l2) = spec.Zsum f l1 + spec.Zsum f l2.
Proof.
  induction l1 as [|x l1 IH]; simpl; [reflexivity|]. rewrite IH. lia.
Qed.

Lemma Zsum_ext (f g : Z -> Z) (l : list Z) :
  (forall x, In x l -> f x = g x) -> spec.Zsum f l = spec.Zsum g l.
Proof.
  induction l as [|x l IH]; intros H; simpl; [reflexivity|].
  rewrite (H x (or_introl eq_refl)), IH; [reflexivity|].
  intros y Hy. apply H. now right.
Qed.

Lemma Zsum_zero (f : Z -> Z) (l : list Z) :
  (forall x, In x l -> f x = 0) -> spec.Zsum f l = 0.
Proof.
  induction l as [|x l IH]; intros H; simpl; [reflexivity|].
  rewrite (H x (or_introl eq_refl)), IH; [reflexivity|].
  intros y Hy. apply H. now right.
Qed.

Lemma Zsum_add (f g : Z -> Z) (l : list Z) :
  spec.Zsum (fun x => f x + g x) l = spec.Zsum f l + spec.Zsum g l.
Proof.
  induction l as [|x l IH]; simpl; [reflexivity|]. rewrite IH. lia.
Qed.

Lemma Zsum_sub (f g : Z -> Z) (l : list Z) :
  spec.Zsum (fun x => f x - g x) l = spec.Zsum f l - spec.Zsum g l.
Proof.
  induction l as [|x l IH]; simpl; [reflexivity|]. rewrite IH. lia.
Qed.

Lemma Zsum_scale (k : Z) (f : Z -> Z) (l : list Z) :
  spec.Zsum (fun x => k * f x) l = k * spec.Zsum f l.
Proof.
  induction l as [|x l IH]; simpl; [lia|]. rewrite IH. lia.
Qed.

Lemma Zsum_swap (f : Z -> Z -> Z) (l1 l2 : list Z) :
  spec.Zsum (fun x => spec.Zsum (fun y => f x y) l2) l1
  = spec.Zsum (fun y => spec.Zsum (fun x => f x y) l1) l2.
Proof.
  induction l1 as [|x l1 IH]; simpl.
  - symmetry. now apply Zsum_zero.
  - rewrite IH, <- Zsum_add. reflexivity.
Qed.

Lemma Zsum_single (f : Z -> Z) (l : list Z) (x0 : Z) :
  NoDup l -> In x0 l -> (forall x, In x l -> x <> x0 -> f x = 0) ->
  spec.Zsum f l = f x0.
Proof.
  induction l as [|x l IH]; intros Hnd Hin Hz; [contradiction|].
  inversion Hnd as [|? ? Hnotin Hnd']; subst. simpl.
  destruct Hin as [->|Hin].
  - rewrite Zsum_zero; [lia|]. intros y Hy. apply Hz; [now right|].
    intros ->. contradiction.
  - rewrite (Hz x (or_introl eq_refl)) by (intros ->; contradiction).
    rewrite IH; [lia | assumption | assumption |].
    intros y Hy. apply Hz. now right.
Qed.

Lemma fold_left_Zsum (g : Z -> Z) (l : list Z) (a : Z) :
  fold_left (fun acc x => acc + g x) l a = a + spec.Zsum g l.
Proof.
  revert a. induction l as [|x l IH]; intros a; simpl; [lia|].
  rewrite IH. lia.
Qed.

Lemma fold_left_ext_in {A B : Type} (f g : A -> B -> A) (l : list B) (a : A) :
  (forall a x, In x l -> f a x = g a x) -> fold_left f l a = fold_left g l a.
Proof.
  revert a. induction l as [|x l IH]; intros a H; simpl; [reflexivity|].
  rewrite (H a x (or_introl eq_refl)). apply IH.
  intros a' y Hy. apply H. now right.
Qed.

(** The low [n] bits of [u], weighted. *)
Lemma bits_sum (u n : Z) :
  0 <= n ->
  spec.Zsum (fun b => if Z.testbit u b then 2 ^ b else 0) (Zrange n) = u mod 2 ^ n.
Proof.
  intros Hn. pattern n. apply natlike_ind; [| |assumption]; clear n Hn.
  - simpl. now rewrite Z.mod_1_r.
  - intros n Hn IH. rewrite <- Z.add_1_r, Zrange_succ by assumption.
    rewrite Zsum_app, IH. simpl.
    rewrite Z.pow_add_r by lia. change (2 ^ 1) with 2.
    rewrite Z.rem_mul_r by (try apply Z.pow_nonzero; lia).
    rewrite <- Z.testbit_spec' by assumption.
    destruct (Z.testbit u n); simpl; lia.
Qed.

(** ** Decoding a cell *)

Lemma mod_pow2_succ (u k : Z) :
  0 <= k -> u mod 2 ^ (k + 1) = u mod 2 ^ k + 2 ^ k * Z.b2z (Z.testbit u k).
Proof.
  intros Hk. rewrite Z.pow_add_r by lia. change (2 ^ 1) with 2.
  rewrite Z.rem_mul_r by (try apply Z.pow_nonzero; lia).
  now rewrite <- Z.testbit_spec' by assumption.
Qed.

Lemma testbit_top (u k : Z) :
  0 <= k -> 0 <= u < 2 ^ (k + 1) -> Z.testbit u k = (2 ^ k <=? u).
Proof.
  intros Hk Hu. pose proof (mod_pow2_succ u k Hk) as H.
  rewrite (Z.mod_small u (2 ^ (k + 1))) in H by assumption.
  pose proof (Z.mod_pos_bound u (2 ^ k) ltac:(apply Z.pow_pos_nonneg; lia)) as Hm.
  destruct (Z.testbit u k); simpl in H; destruct (Z.leb_spec (2 ^ k) u); try reflexivity; lia.
Qed.

Lemma shaped_fields (m0 m : BitSerialMatrix) :
  spec.shaped m0 m ->
  nbits m = nbits m0 /\ issigned m = issigned m0 /\ isBipolar m = isBipolar m0
  /\ nrows m = nrows m0 /\ ncols m = ncols m0
  /\ nrows_a m = nrows_a m0 /\ ncols_a m = ncols_a m0.
Proof. intros [d [-> _]]. repeat split. Qed.

(** The value that [exportRegular] rebuilds for a cell of a non-bipolar
    matrix of at most 31 bits, as a sum over the bit-planes. *)
Lemma export_cell_regular (m : BitSerialMatrix) (r c : Z) :
  isBipolar m = false -> 1 <= nbits m <= 31 ->
  export_cell m r c
  = spec.Zsum
      (fun b => if get m b r c
                then (if (b =? nbits m - 1) && issigned m then - 2 ^ b else 2 ^ b)
                else 0)
      (Zrange (nbits m)).
Proof.
  intros Hbip Hn. unfold export_cell. rewrite Hbip.
  rewrite <- (Z.add_0_l (spec.Zsum _ _)), <- fold_left_Zsum.
  apply fold_left_ext_in. intros a b Hb. apply Zrange_In in Hb.
  rewrite wrap64_small by lia. rewrite shl_int_pow2 by lia.
  destruct (get m b r c); [|lia].
  destruct ((b =? nbits m - 1) && issigned m); lia.
Qed.

Lemma pow2_le_256 (n : Z) : 0 <= n <= 8 -> 0 < 2 ^ n <= 2 ^ 8.
Proof.
  intros H. split; [apply Z.pow_pos_nonneg; lia | apply Z.pow_le_mono_r; lia].
Qed.

(** The 8-bit intermediate of an element in range is its two's complement
    on [nbits] bits. *)
Lemma to_twos_complement_in_range (m : BitSerialMatrix) (v : Z) :
  isBipolar m = false -> 1 <= nbits m <= 8 -> spec.in_range m v ->
  to_twos_complement m v = v mod 2 ^ nbits m
  /\ (issigned m = true -> (v <? 0) = Z.testbit (v mod 2 ^ nbits m) (nbits m - 1)).
Proof.
  intros Hbip Hn. unfold spec.in_range, to_twos_complement, to_uint8. rewrite Hbip.
  pose proof (pow2_le_256 (nbits m) ltac:(lia)) as Hp.
  pose proof (pow2_le_256 (nbits m - 1) ltac:(lia)) as Hp1.
  assert (Hdbl : 2 ^ nbits m = 2 * 2 ^ (nbits m - 1)).
  { replace (nbits m) with ((nbits m - 1) + 1) at 1 by lia.
    rewrite Z.pow_add_r by lia. lia. }
  destruct (issigned m) eqn:Hs; intros Hv.
  - destruct (Z.ltb_spec v 0) as [Hneg|Hpos]; cbn [andb].
    + rewrite wrap64_small by lia. rewrite shl_int_pow2 by lia.
      assert (Hhalf : 2 ^ (nbits m - 1) < 2 ^ 8) by (apply Z.pow_lt_mono_r; lia).
      rewrite (Z.mod_small (2 ^ (nbits m - 1))) by lia.
      rewrite (Z.mod_small (2 ^ (nbits m - 1))) by lia.
      rewrite (Z.mod_small (v + 2 ^ (nbits m - 1))) by lia.
      rewrite (Z.mod_small (_ + _) (2 ^ 8)) by lia.
      assert (Hu : v mod 2 ^ nbits m = v + 2 ^ nbits m).
      { symmetry. apply (Z.mod_unique v _ (-1)); [left|]; lia. }
      split; [lia|]. intros _. rewrite Hu.
      rewrite testbit_top; [| lia |].
      * symmetry. apply Z.leb_le. lia.
      * replace (nbits m - 1 + 1) with (nbits m) by lia. lia.
    + rewrite (Z.mod_small v (2 ^ 8)) by lia.
      rewrite (Z.mod_small v (2 ^ nbits m)) by lia.
      split; [reflexivity|]. intros _.
      rewrite testbit_top; [| lia |].
      * symmetry. apply Z.leb_gt. lia.
      * replace (nbits m - 1 + 1) with (nbits m) by lia. lia.
  - cbn [andb]. rewrite (Z.mod_small v (2 ^ 8)) by lia.
    rewrite (Z.mod_small v (2 ^ nbits m)) by lia.
    split; [reflexivity | discriminate].
Qed.

Lemma logical_true (m : BitSerialMatrix) (r c : Z) :
  0 <= r < nrows m -> 0 <= c < ncols m -> spec.logical m r c = true.
Proof.
  intros Hr Hc. unfold spec.logical.
  replace (0 <=? r) with true by (symmetry; apply Z.leb_le; lia).
  replace (r <? nrows m) with true by (symmetry; apply Z.ltb_lt; lia).
  replace (0 <=? c) with true by (symmetry; apply Z.leb_le; lia).
  replace (c <? ncols m) with true by (symmetry; apply Z.ltb_lt; lia).
  reflexivity.
Qed.

Lemma logical_allocated (m : BitSerialMatrix) (b r c : Z) :
  spec.wf m -> 0 <= b < nbits m -> 0 <= r < nrows m -> 0 <= c < ncols m ->
  spec.allocated m b r c.
Proof.
  intros (? & ? & ? & ?) Hb Hr Hc. repeat split; lia.
Qed.

(** The bit-plane [b] of an imported element in range holds bit [b] of its
    two's complement. *)
Lemma imported_bit (m : BitSerialMatrix) (matrix : list Z) (readColMajor : bool)
    (b r c : Z) :
  spec.wf m -> isBipolar m = false -> 1 <= nbits m <= 8 ->
  0 <= b < nbits m -> 0 <= r < nrows m -> 0 <= c < ncols m ->
  spec.in_range m (read_elem m matrix readColMajor r c) ->
  get (importRegular m matrix readColMajor) b r c
  = Z.testbit (read_elem m matrix readColMajor r c mod 2 ^ nbits m) b.
Proof.
  intros Hwf Hbip Hn Hb Hr Hc Hv.
  rewrite importRegular_get by (try apply logical_allocated; assumption).
  rewrite logical_true by assumption. simpl.
  unfold spec.stored_bit. rewrite Hbip.
  rewrite stored_bit_uint8 by (apply to_twos_complement_range || lia).
  destruct (to_twos_complement_in_range m _ Hbip Hn Hv) as [-> _].
  replace (b <? 8) with true by (symmetry; apply Z.ltb_lt; lia).
  reflexivity.
Qed.

Lemma export_import_cell (m : BitSerialMatrix) (matrix : list Z)
    (readColMajor : bool) (r c : Z) :
  spec.wf m -> 1 <= nbits m <= 8 ->
  0 <= r < nrows m -> 0 <= c < ncols m ->
  spec.in_range m (read_elem m matrix readColMajor r c) ->
  export_cell (importRegular m matrix readColMajor) r c
  = read_elem m matrix readColMajor r c.
Proof.
  intros Hwf Hn Hr Hc Hv.
  destruct (importRegular_spec m matrix readColMajor Hwf) as [Hsh _].
  destruct (shaped_fields _ _ Hsh) as (Hnb & Hsg & Hbp & _).
  set (v := read_elem m matrix readColMajor r c) in *.
  destruct (isBipolar m) eqn:Hbip.
  - unfold export_cell. rewrite Hbp.
    assert (Hone : nbits m = 1).
    { unfold isBipolar in Hbip. apply andb_prop in Hbip. now apply Z.eqb_eq. }
    rewrite importRegular_get by (try apply logical_allocated; lia || assumption).
    rewrite logical_true by assumption. unfold spec.stored_bit. rewrite Hbip.
    fold v. unfold spec.in_range in Hv. rewrite Hbip in Hv.
    destruct Hv as [-> | ->]; reflexivity.
  - rewrite export_cell_regular by (rewrite ?Hbp, ?Hnb; lia || assumption).
    rewrite Hnb, Hsg.
    rewrite (Zsum_ext _
               (fun b => if Z.testbit (v mod 2 ^ nbits m) b
                         then (if (b =? nbits m - 1) && issigned m then - 2 ^ b else 2 ^ b)
                         else 0)).
    2:{ intros b Hb. apply Zrange_In in Hb. unfold v.
        now rewrite imported_bit by assumption. }
    destruct (to_twos_complement_in_range m v Hbip Hn Hv) as [_ Hsign].
    pose proof (Z.mod_pos_bound v (2 ^ nbits m) ltac:(apply Z.pow_pos_nonneg; lia)) as Hu.
    set (u := v mod 2 ^ nbits m) in *.
    destruct (issigned m) eqn:Hs.
    + replace (Zrange (nbits m)) with (Zrange ((nbits m - 1) + 1)) by (f_equal; lia).
      rewrite Zrange_succ, Zsum_app by lia. simpl.
      rewrite (Zsum_ext _ (fun b => if Z.testbit u b then 2 ^ b else 0)).
      2:{ intros b Hb. apply Zrange_In in Hb.
          destruct (Z.eqb_spec b (nbits m - 1)); [lia|]. reflexivity. }
      rewrite bits_sum by lia. rewrite Z.eqb_refl. simpl.
      pose proof (mod_pow2_succ u (nbits m - 1) ltac:(lia)) as Hsplit.
      replace (nbits m - 1 + 1) with (nbits m) in Hsplit by lia.
      rewrite (Z.mod_small u (2 ^ nbits m)) in Hsplit by assumption.
      rewrite <- (Hsign eq_refl) in *.
      assert (Hdbl : 2 ^ nbits m = 2 * 2 ^ (nbits m - 1)).
      { replace (nbits m) with ((nbits m - 1) + 1) at 1 by lia.
        rewrite Z.pow_add_r by lia. lia. }
      unfold spec.in_range in Hv. rewrite Hbip, Hs in Hv.
      destruct (Z.ltb_spec v 0) as [Hneg|Hpos]; simpl in Hsplit.
      * assert (u = v + 2 ^ nbits m).
        { unfold u. symmetry. apply (Z.mod_unique v _ (-1)); [left|]; lia. }
        lia.
      * assert (u = v) by (unfold u; apply Z.mod_small; lia). lia.
    + rewrite (Zsum_ext _ (fun b => if Z.testbit u b then 2 ^ b else 0)).
      2:{ intros b _. now rewrite andb_false_r. }
      rewrite bits_sum by lia. rewrite Z.mod_small by assumption.
      unfold spec.in_range in Hv. rewrite Hbip, Hs in Hv.
      unfold u. apply Z.mod_small. assumption.
Qed.

(** ** The export loops *)

Lemma fold_left_mapped {A B C : Type} (F : A -> C -> A) (g : B -> C)
    (l : list B) (a : A) :
  fold_left F (map g l) a = fold_left (fun a x => F a (g x)) l a.
Proof.
  revert a. induction l as [|x l IH]; intros a; simpl; [reflexivity|]. apply IH.
Qed.

Lemma fold_left_pairs {A : Type} (F : A -> Z * Z -> A) (rows cols : list Z) (a : A) :
  fold_left (fun a r => fold_left (fun a c => F a (r, c)) cols a) rows a
  = fold_left F (list_prod rows cols) a.
Proof.
  revert a. induction rows as [|r rows IH]; intros a; simpl; [reflexivity|].
  rewrite fold_left_app, fold_left_mapped. apply IH.
Qed.

Lemma stores_nth {X : Type} (idx : X -> nat) (val : X -> Z) (l : list X)
    (dst : list Z) (p : nat) (x0 : X) :
  In x0 l -> idx x0 = p -> (p < length dst)%nat ->
  (forall x, In x l -> idx x = p -> val x = val x0) ->
  nth p (fold_left (fun d x => list_update (idx x) (fun _ => val x) d) l dst) 0
  = val x0.
Proof.
  revert x0. induction l as [|x l IH] using rev_ind; intros x0 Hin Hidx Hp Hval;
    [contradiction|].
  rewrite fold_left_app. simpl. rewrite nth_list_update.
  assert (Hlen : forall l', length (fold_left
                   (fun d x => list_update (idx x) (fun _ => val x) d) l' dst)
                 = length dst).
  { induction l' as [|y l' IH'] using rev_ind; [reflexivity|].
    rewrite fold_left_app. simpl. now rewrite length_list_update. }
  rewrite Hlen.
  destruct (Nat.eqb_spec p (idx x)) as [E|E].
  - replace (Nat.ltb (idx x) (length dst)) with true
      by (symmetry; apply Nat.ltb_lt; lia).
    simpl. apply Hval; [apply in_or_app; right; now left | congruence].
  - simpl. apply in_app_or in Hin. destruct Hin as [Hin|[->|[]]]; [|congruence].
    apply IH; try assumption.
    intros y Hy. apply Hval. apply in_or_app. now left.
Qed.

Lemma exportRegular_nth (m : BitSerialMatrix) (dst : list Z) (r c : Z) :
  0 <= r < nrows m -> 0 <= c < ncols m ->
  nrows m * ncols m < 2 ^ 64 ->
  length dst = Z.to_nat (nrows m * ncols m) ->
  nth (Z.to_nat (r * ncols m + c)) (exportRegular m dst) 0 = export_cell m r c.
Proof.
  intros Hr Hc Hsz Hlen. unfold exportRegular.
  rewrite (fold_left_pairs
             (fun d p => list_store (wrap64 (fst p * ncols m + snd p))
                           (export_cell m (fst p) (snd p)) d)).
  unfold list_store.
  assert (Hcell : forall r' c', 0 <= r' < nrows m -> 0 <= c' < ncols m ->
            0 <= r' * ncols m + c' < nrows m * ncols m).
  { intros r' c' Hr' Hc'.
    assert ((r' + 1) * ncols m <= nrows m * ncols m)
      by (apply Z.mul_le_mono_nonneg_r; lia).
    nia. }
  apply (stores_nth
           (fun p => Z.to_nat (wrap64 (fst p * ncols m + snd p)))
           (fun p => export_cell m (fst p) (snd p)) _ dst _ (r, c)).
  - apply in_prod; apply Zrange_In; assumption.
  - simpl. rewrite wrap64_small; [reflexivity|]. specialize (Hcell r c Hr Hc). lia.
  - specialize (Hcell r c Hr Hc). lia.
  - intros [r' c'] Hin Hidx. simpl in *.
    apply in_prod_iff in Hin. destruct Hin as [Hr' Hc'].
    apply Zrange_In in Hr', Hc'.
    pose proof (Hcell r c Hr Hc). pose proof (Hcell r' c' Hr' Hc').
    rewrite wrap64_small in Hidx by lia.
    destruct (mixed_radix_inj (ncols m) r' c' r c) as [-> ->]; [lia | lia | lia |].
    reflexivity.
Qed.

Lemma exportRegular_length (m : BitSerialMatrix) (dst : list Z) :
  length (exportRegular m dst) = length dst.
Proof.
  unfold exportRegular.
  rewrite (fold_left_pairs
             (fun d p => list_store (wrap64 (fst p * ncols m + snd p))
                           (export_cell m (fst p) (snd p)) d)).
  induction (list_prod _ _) as [|x l IH] using rev_ind; [reflexivity|].
  rewrite fold_left_app. simpl. unfold list_store at 1.
  now rewrite length_list_update.
Qed.

(** C2, as the code has it: for a matrix of 1 to 8 bits (the importer passes
    every element through a [uint8_t]) and a source whose elements are in
    range for its precision and signedness -- [0, 2^nbits) when unsigned,
    [-2^(nbits-1), 2^(nbits-1)) when signed, [{-1, +1}] when bipolar --
    [exportRegular] after [importRegular] gives back, at the row-major
    position of each logical cell [(r, c)], the element that the importer
    read for that cell, for a row-major and for a column-major source; for a
    row-major source the exported buffer is the source. *)
Theorem export_import_roundtrip_upto_8_bits (m : BitSerialMatrix)
    (matrix dst : list Z) (readColMajor : bool) :
  spec.wf m -> 1 <= nbits m <= 8 ->
  nrows m * ncols m < 2 ^ 64 ->
  length dst = Z.to_nat (nrows m * ncols m) ->
  (forall r c, 0 <= r < nrows m -> 0 <= c < ncols m ->
     spec.in_range m (read_elem m matrix readColMajor r c)) ->
  (forall r c, 0 <= r < nrows m -> 0 <= c < ncols m ->
     nth (Z.to_nat (r * ncols m + c))
       (exportRegular (importRegular m matrix readColMajor) dst) 0
     = read_elem m matrix readColMajor r c)
  /\ (readColMajor = false -> length matrix = length dst ->
      exportRegular (importRegular m matrix readColMajor) dst = matrix).
Proof.
  intros Hwf Hn Hsz Hlen Hrange.
  destruct (importRegular_spec m matrix readColMajor Hwf) as [Hsh _].
  destruct (shaped_fields _ _ Hsh) as (_ & _ & _ & Hnr & Hnc & _).
  assert (Hcells : forall r c, 0 <= r < nrows m -> 0 <= c < ncols m ->
            nth (Z.to_nat (r * ncols m + c))
              (exportRegular (importRegular m matrix readColMajor) dst) 0
            = read_elem m matrix readColMajor r c).
  { intros r c Hr Hc. rewrite <- Hnc at 1.
    rewrite exportRegular_nth by (rewrite ?Hnr, ?Hnc; assumption).
    apply export_import_cell; auto. }
  split; [exact Hcells|].
  intros -> Hlm. apply (nth_ext _ _ 0 0).
  - now rewrite exportRegular_length.
  - intros n Hlt. rewrite exportRegular_length, Hlen in Hlt.
    assert (Hpos : 0 < ncols m).
    { destruct Hwf as (_ & Hr0 & Hc0 & _).
      destruct (Z.eq_dec (ncols m) 0) as [E|E]; [|lia].
      rewrite E, Z.mul_0_r in Hlt. simpl in Hlt. lia. }
    pose proof (Z.mod_pos_bound (Z.of_nat n) (ncols m) Hpos) as Hmod.
    pose proof (Z.div_mod (Z.of_nat n) (ncols m) ltac:(lia)) as Hdm.
    assert (Hdiv : 0 <= Z.of_nat n / ncols m < nrows m).
    { split; [apply Z.div_pos; lia|]. apply Z.div_lt_upper_bound; lia. }
    replace n with (Z.to_nat (Z.of_nat n / ncols m * ncols m + Z.of_nat n mod ncols m))
      at 1 by lia.
    rewrite Hcells by lia. unfold read_elem.
    rewrite wrap64_small by lia. f_equal. lia.
Qed.

Lemma roundtrip_loses_ninth_bit :
  spec.wf (spec.zero_bsm false 9 1 1 1 64)
  /\ spec.in_range (spec.zero_bsm false 9 1 1 1 64) 256
  /\ exportRegular (importRegular (spec.zero_bsm false 9 1 1 1 64) [256] false) [0]
     = [0].
Proof.
  split; [solve_wf|]. split; [unfold spec.in_range; simpl; lia | reflexivity].
Qed.

(** ** AND and popcount over rows *)

Lemma Zsum_map (f g : Z -> Z) (l : list Z) :
  spec.Zsum f (map g l) = spec.Zsum (fun x => f (g x)) l.
Proof.
  induction l as [|x l IH]; simpl; [reflexivity|]. now rewrite IH.
Qed.

Lemma seq_Z_shift (k s : nat) :
  map Z.of_nat (seq s k) = map (Z.add (Z.of_nat s)) (map Z.of_nat (seq 0 k)).
Proof.
  induction s as [|s IH].
  - simpl. rewrite map_map. symmetry. rewrite <- (map_id (map _ _)) at 1.
    rewrite map_map. apply map_ext. intros x. lia.
  - rewrite <- seq_shift, map_map.
    rewrite (map_ext (fun x => Z.of_nat (S x)) (fun x => Z.succ (Z.of_nat x)))
      by (intros; lia).
    rewrite <- (map_map Z.of_nat Z.succ), IH, !map_map.
    apply map_ext. intros x. lia.
Qed.

Lemma Zrange_add (a b : Z) :
  0 <= a -> 0 <= b -> Zrange (a + b) = Zrange a ++ map (Z.add a) (Zrange b).
Proof.
  intros Ha Hb. unfold Zrange.
  replace (Z.to_nat (a + b)) with (Z.to_nat a + Z.to_nat b)%nat by lia.
  rewrite seq_app, map_app. f_equal. simpl.
  rewrite seq_Z_shift. now rewrite Z2Nat.id by lia.
Qed.

Lemma Zsum_blocks (f : Z -> Z) (B K : Z) :
  0 <= B -> 0 <= K ->
  spec.Zsum (fun k => spec.Zsum (fun t => f (B * k + t)) (Zrange B)) (Zrange K)
  = spec.Zsum f (Zrange (B * K)).
Proof.
  intros HB HK. pattern K. apply natlike_ind; [| |assumption]; clear K HK.
  - now rewrite Z.mul_0_r.
  - intros K HK IH. rewrite <- Z.add_1_r, Zrange_succ, Zsum_app, IH by assumption.
    simpl. rewrite Z.add_0_r.
    rewrite Z.mul_add_distr_l, Z.mul_1_r, Zrange_add, Zsum_app, Zsum_map by nia.
    reflexivity.
Qed.

Lemma Zsum_trim (f : Z -> Z) (n n' : Z) :
  0 <= n <= n' -> (forall x, n <= x < n' -> f x = 0) ->
  spec.Zsum f (Zrange n') = spec.Zsum f (Zrange n).
Proof.
  intros Hn Hz. replace n' with (n + (n' - n)) by lia.
  rewrite Zrange_add, Zsum_app, Zsum_map by lia.
  rewrite (Zsum_zero (fun x => f (n + x))); [lia|].
  intros x Hx. apply Zrange_In in Hx. apply Hz. lia.
Qed.

Lemma popcount_testbits (w : Z) :
  popcount w = spec.Zsum (fun t => Z.b2z (Z.testbit w t)) (Zrange 64).
Proof. reflexivity. Qed.

Lemma word_of_block (m : BitSerialMatrix) (b r k t : Z) :
  0 <= t < 64 -> word m b r (64 * k + t) = word m b r (64 * k).
Proof.
  intros Ht. unfold word, word_index. do 3 f_equal.
  rewrite !Z.shiftr_div_pow2 by lia. change (2 ^ 6) with 64.
  rewrite (Z.mul_comm 64 k), Z.div_add_l, Z.div_mul by lia.
  rewrite (Z.div_small t 64) by lia. lia.
Qed.

Lemma get_of_block (m : BitSerialMatrix) (b r k t : Z) :
  0 <= t < 64 -> get m b r (64 * k + t) = Z.testbit (word m b r (64 * k)) t.
Proof.
  intros Ht. rewrite get_testbit, word_of_block by assumption. f_equal.
  rewrite (Z.mul_comm 64 k), Z.add_comm, Z.mod_add by lia.
  apply Z.mod_small. assumption.
Qed.

(** The popcount of a row is the number of its set bits. *)
Lemma row_popcount_bits (m : BitSerialMatrix) (b r : Z) :
  0 <= wordsPerRow m ->
  row_popcount m b r
  = spec.Zsum (fun c => Z.b2z (get m b r c)) (Zrange (64 * wordsPerRow m)).
Proof.
  intros Hw.
  change (row_popcount m b r) with (spec.Zsum popcount (row_words m b r)).
  unfold row_words. rewrite Zsum_map, <- Zsum_blocks by lia.
  apply Zsum_ext. intros k _. rewrite popcount_testbits.
  apply Zsum_ext. intros t Ht. apply Zrange_In in Ht.
  now rewrite get_of_block.
Qed.

Lemma and_popcount_rows (f g : Z -> Z) (l : list Z) :
  and_popcount (map f l) (map g l)
  = spec.Zsum (fun k => popcount (Z.land (f k) (g k))) l.
Proof.
  unfold and_popcount. induction l as [|x l IH]; simpl; [reflexivity|].
  now rewrite IH.
Qed.

(** The AND popcount of two rows is the number of columns where both have
    their bit set. *)
Lemma and_popcount_bits (m1 m2 : BitSerialMatrix) (b1 r1 b2 r2 : Z) :
  0 <= wordsPerRow m1 -> wordsPerRow m2 = wordsPerRow m1 ->
  and_popcount (row_words m1 b1 r1) (row_words m2 b2 r2)
  = spec.Zsum (fun c => Z.b2z (get m1 b1 r1 c) * Z.b2z (get m2 b2 r2 c))
      (Zrange (64 * wordsPerRow m1)).
Proof.
  intros Hw Heq. unfold row_words. rewrite Heq, and_popcount_rows.
  rewrite <- Zsum_blocks by lia.
  apply Zsum_ext. intros k _. rewrite popcount_testbits.
  apply Zsum_ext. intros t Ht. apply Zrange_In in Ht.
  rewrite !get_of_block, Z.land_spec by assumption.
  destruct (Z.testbit _ t), (Z.testbit _ t); reflexivity.
Qed.

(** ** Accumulation into the result buffer *)

Lemma Forall_list_update (P : Z -> Prop) (f : Z -> Z) (l : list Z) (j : nat) :
  (forall x, P (f x)) -> Forall P l -> Forall P (list_update j f l).
Proof.
  intros Hf. revert j. induction l as [|x l IH]; intros j H.
  - destruct j; constructor.
  - inversion H; subst. destruct j; simpl; constructor; auto.
Qed.

Lemma accumulates_update (g : bool) (idx : nat) (v : Z) :
  spec.accumulates
    (fun res => if g then list_update idx (fun old => wrap32 (old + v)) res else res)
    (fun p => if g && Nat.eqb p idx then v else 0).
Proof.
  intros res. destruct g; simpl.
  - split; [apply length_list_update|]. split.
    + apply Forall_list_update. intros x. apply wrap32_range.
    + intros p Hp. rewrite nth_list_update.
      destruct (Nat.eqb_spec p idx) as [->|]; simpl.
      * replace (Nat.ltb idx (length res)) with true
          by (symmetry; apply Nat.ltb_lt; lia).
        apply wrap32_small, wrap32_range.
      * now rewrite Z.add_0_r.
  - split; [reflexivity|]. split; [auto|]. intros p _. now rewrite Z.add_0_r.
Qed.

Lemma accumulates_fold (step : Z -> list Z -> list Z) (delta : Z -> nat -> Z)
    (l : list Z) :
  (forall x, In x l -> spec.accumulates (step x) (delta x)) ->
  spec.accumulates (fun res => fold_left (fun r x => step x r) l res)
    (fun p => spec.Zsum (fun x => delta x p) l).
Proof.
  induction l as [|x l IH]; intros H res; simpl.
  - split; [reflexivity|]. split; [auto|]. intros p _. now rewrite Z.add_0_r.
  - destruct (H x (or_introl eq_refl) res) as (Hlen & Hrange & Hval).
    destruct (IH (fun y Hy => H y (or_intror Hy)) (step x res))
      as (Hlen' & Hrange' & Hval').
    split; [congruence|]. split; [auto|].
    intros p Hp. rewrite Hval' by lia.
    rewrite <- wrap32_add_l, Hval, wrap32_add_l by assumption.
    f_equal. lia.
Qed.

Lemma accumulates_ext (T : list Z -> list Z) (d1 d2 : nat -> Z) :
  (forall p, d1 p = d2 p) -> spec.accumulates T d1 -> spec.accumulates T d2.
Proof.
  intros E H res. destruct (H res) as (Hl & Hr & Hv).
  repeat split; auto. intros p Hp. rewrite <- E. auto.
Qed.

(** What one run of the tiled loops adds to the cell [p]. *)
Lemma tiled_gemm_accumulates (ctx : GEMMContext) (contrib : Z -> Z -> Z -> Z -> Z) :
  spec.accumulates (tiled_gemm ctx contrib)
    (fun p =>
       spec.Zsum (fun tl => spec.Zsum (fun tr =>
       spec.Zsum (fun bL => spec.Zsum (fun bR =>
       spec.Zsum (fun ii => spec.Zsum (fun jj =>
         let i := tl * lhsBlock ctx + ii in
         let j := tr * rhsBlock ctx + jj in
         if (i <? nrows (lhs ctx)) && (j <? nrows (rhs ctx))
            && Nat.eqb p (Z.to_nat (i * nrows (rhs ctx) + j))
         then contrib bL bR i j else 0)
       (Zrange (rhsBlock ctx))) (Zrange (lhsBlock ctx)))
       (Zrange (nbits (rhs ctx)))) (Zrange (nbits (lhs ctx))))
       (Zrange (nrows_a (rhs ctx) / rhsBlock ctx)))
       (Zrange (nrows_a (lhs ctx) / lhsBlock ctx))).
Proof.
  unfold tiled_gemm, accumulate_tile.
  apply (accumulates_fold _ (fun tl p => _)). intros tl _.
  apply (accumulates_fold _ (fun tr p => _)). intros tr _.
  apply (accumulates_fold _ (fun bL p => _)). intros bL _.
  apply (accumulates_fold _ (fun bR p => _)). intros bR _.
  apply (accumulates_fold _ (fun ii p => _)). intros ii _.
  apply (accumulates_fold _ (fun jj p => _)). intros jj _.
  apply accumulates_update.
Qed.

Lemma cell_guard_zero (i j i0 j0 n nr v : Z) :
  0 <= i -> 0 <= j -> 0 <= i0 < nr -> 0 <= j0 < n -> i <> i0 \/ j <> j0 ->
  (if (i <? nr) && (j <? n) && Nat.eqb (Z.to_nat (i0 * n + j0)) (Z.to_nat (i * n + j))
   then v else 0) = 0.
Proof.
  intros Hi Hj Hi0 Hj0 Hne.
  destruct (Z.ltb_spec i nr); [|reflexivity].
  destruct (Z.ltb_spec j n); [|reflexivity].
  destruct (Nat.eqb_spec (Z.to_nat (i0 * n + j0)) (Z.to_nat (i * n + j))) as [E|];
    [|reflexivity].
  exfalso.
  assert (0 <= i0 * n) by (apply Z.mul_nonneg_nonneg; lia).
  assert (0 <= i * n) by (apply Z.mul_nonneg_nonneg; lia).
  destruct (mixed_radix_inj n i j i0 j0); lia.
Qed.

Lemma tile_offset (B t o x : Z) :
  0 < B -> 0 <= o < B -> t * B + o = x -> t = x / B /\ o = x mod B.
Proof.
  intros HB Ho E.
  pose proof (Z.div_mod x B ltac:(lia)) as Hdm.
  pose proof (Z.mod_pos_bound x B HB) as Hm.
  apply (Z.div_mod_unique B); [left; lia | left; lia | lia].
Qed.

(** The tiles visit every logical cell exactly once for each pair of
    bit-planes. *)
Lemma tiled_sum_cell (ctx : GEMMContext) (contrib : Z -> Z -> Z -> Z -> Z)
    (i0 j0 : Z) :
  0 < lhsBlock ctx -> 0 < rhsBlock ctx ->
  (lhsBlock ctx | nrows_a (lhs ctx)) -> (rhsBlock ctx | nrows_a (rhs ctx)) ->
  0 <= i0 < nrows (lhs ctx) -> nrows (lhs ctx) <= nrows_a (lhs ctx) ->
  0 <= j0 < nrows (rhs ctx) -> nrows (rhs ctx) <= nrows_a (rhs ctx) ->
  spec.Zsum (fun tl => spec.Zsum (fun tr =>
  spec.Zsum (fun bL => spec.Zsum (fun bR =>
  spec.Zsum (fun ii => spec.Zsum (fun jj =>
    let i := tl * lhsBlock ctx + ii in
    let j := tr * rhsBlock ctx + jj in
    if (i <? nrows (lhs ctx)) && (j <? nrows (rhs ctx))
       && Nat.eqb (Z.to_nat (i0 * nrows (rhs ctx) + j0))
            (Z.to_nat (i * nrows (rhs ctx) + j))
    then contrib bL bR i j else 0)
  (Zrange (rhsBlock ctx))) (Zrange (lhsBlock ctx)))
  (Zrange (nbits (rhs ctx)))) (Zrange (nbits (lhs ctx))))
  (Zrange (nrows_a (rhs ctx) / rhsBlock ctx)))
  (Zrange (nrows_a (lhs ctx) / lhsBlock ctx))
  = spec.Zsum (fun bL => spec.Zsum (fun bR => contrib bL bR i0 j0)
      (Zrange (nbits (rhs ctx)))) (Zrange (nbits (lhs ctx))).
Proof.
  intros HLB HRB [qL HqL] [qR HqR] Hi0 HnL Hj0 HnR. cbv zeta.
  set (LB := lhsBlock ctx) in *. set (RB := rhsBlock ctx) in *.
  set (n := nrows (rhs ctx)) in *. set (nr := nrows (lhs ctx)) in *.
  assert (HtL : 0 <= i0 / LB < nrows_a (lhs ctx) / LB).
  { rewrite HqL, Z.div_mul by lia. split; [apply Z.div_pos; lia|].
    apply Z.div_lt_upper_bound; lia. }
  assert (HtR : 0 <= j0 / RB < nrows_a (rhs ctx) / RB).
  { rewrite HqR, Z.div_mul by lia. split; [apply Z.div_pos; lia|].
    apply Z.div_lt_upper_bound; lia. }
  pose proof (Z.mod_pos_bound i0 LB HLB) as HoL.
  pose proof (Z.mod_pos_bound j0 RB HRB) as HoR.
  assert (Hpos : forall t B o, 0 <= t -> 0 < B -> 0 <= o -> 0 <= t * B + o).
  { intros t B o Ht HB Ho. assert (0 <= t * B) by (apply Z.mul_nonneg_nonneg; lia). lia. }
  rewrite (Zsum_single _ _ (i0 / LB)); [| apply Zrange_NoDup | now apply Zrange_In |].
  2:{ intros tl Htl Hne. apply Zrange_In in Htl.
      apply Zsum_zero; intros tr Htr; apply Zrange_In in Htr.
      apply Zsum_zero; intros bL _. apply Zsum_zero; intros bR _.
      apply Zsum_zero; intros ii Hii; apply Zrange_In in Hii.
      apply Zsum_zero; intros jj Hjj; apply Zrange_In in Hjj.
      apply cell_guard_zero; try (apply Hpos; lia); try assumption.
      left. intros E. apply tile_offset in E; lia. }
  rewrite (Zsum_single _ _ (j0 / RB)); [| apply Zrange_NoDup | now apply Zrange_In |].
  2:{ intros tr Htr Hne. apply Zrange_In in Htr.
      apply Zsum_zero; intros bL _. apply Zsum_zero; intros bR _.
      apply Zsum_zero; intros ii Hii; apply Zrange_In in Hii.
      apply Zsum_zero; intros jj Hjj; apply Zrange_In in Hjj.
      apply cell_guard_zero; try (apply Hpos; lia); try assumption.
      right. intros E. apply tile_offset in E; lia. }
  apply Zsum_ext; intros bL _. apply Zsum_ext; intros bR _.
  rewrite (Zsum_single _ _ (i0 mod LB)); [| apply Zrange_NoDup | now apply Zrange_In |].
  2:{ intros ii Hii Hne. apply Zrange_In in Hii.
      apply Zsum_zero; intros jj Hjj; apply Zrange_In in Hjj.
      apply cell_guard_zero; try (apply Hpos; lia); try assumption.
      left. intros E. apply tile_offset in E; lia. }
  rewrite (Zsum_single _ _ (j0 mod RB)); [| apply Zrange_NoDup | now apply Zrange_In |].
  2:{ intros jj Hjj Hne. apply Zrange_In in Hjj.
      apply cell_guard_zero; try (apply Hpos; lia); try assumption.
      right. intros E. apply tile_offset in E; lia. }
  assert (Ei : i0 / LB * LB + i0 mod LB = i0)
    by (rewrite (Z.div_mod i0 LB) at 3 by lia; lia).
  assert (Ej : j0 / RB * RB + j0 mod RB = j0)
    by (rewrite (Z.div_mod j0 RB) at 3 by lia; lia).
  rewrite Ei, Ej, Nat.eqb_refl.
  replace (i0 <? nr) with true by (symmetry; apply Z.ltb_lt; lia).
  replace (j0 <? n) with true by (symmetry; apply Z.ltb_lt; lia).
  reflexivity.
Qed.

(** The result cell [(i0, j0)] after the tiled loops, from a cleared
    buffer. *)
Lemma tiled_gemm_cell (ctx : GEMMContext) (contrib : Z -> Z -> Z -> Z -> Z)
    (i0 j0 : Z) :
  0 < lhsBlock ctx -> 0 < rhsBlock ctx ->
  (lhsBlock ctx | nrows_a (lhs ctx)) -> (rhsBlock ctx | nrows_a (rhs ctx)) ->
  0 <= i0 < nrows (lhs ctx) -> nrows (lhs ctx) <= nrows_a (lhs ctx) ->
  0 <= j0 < nrows (rhs ctx) -> nrows (rhs ctx) <= nrows_a (rhs ctx) ->
  length (res ctx) = Z.to_nat (nrows (lhs ctx) * nrows (rhs ctx)) ->
  nth (Z.to_nat (i0 * nrows (rhs ctx) + j0))
    (tiled_gemm ctx contrib (map (fun _ => 0) (res ctx))) 0
  = wrap32 (spec.Zsum (fun bL => spec.Zsum (fun bR => contrib bL bR i0 j0)
              (Zrange (nbits (rhs ctx)))) (Zrange (nbits (lhs ctx)))).
Proof.
  intros HLB HRB HdL HdR Hi0 HnL Hj0 HnR Hlen.
  destruct (tiled_gemm_accumulates ctx contrib (map (fun _ => 0) (res ctx)))
    as (Hl & Hrange & Hval).
  assert (Hp : (Z.to_nat (i0 * nrows (rhs ctx) + j0) < length (res ctx))%nat).
  { rewrite Hlen.
    assert ((i0 + 1) * nrows (rhs ctx) <= nrows (lhs ctx) * nrows (rhs ctx))
      by (apply Z.mul_le_mono_nonneg_r; lia).
    assert (0 <= i0 * nrows (rhs ctx)) by (apply Z.mul_nonneg_nonneg; lia).
    lia. }
  assert (Hzero : Forall spec.int32 (map (fun _ : Z => 0) (res ctx))).
  { apply Forall_forall. intros x Hx. apply in_map_iff in Hx.
    destruct Hx as [_ [<- _]]. unfold spec.int32. lia. }
  specialize (Hrange Hzero). rewrite Forall_forall in Hrange.
  rewrite length_map in Hl, Hval.
  rewrite <- (wrap32_small (nth _ (tiled_gemm _ _ _) 0)).
  - rewrite Hval by assumption.
    rewrite tiled_sum_cell by assumption.
    f_equal.
    destruct (nth_in_or_default (Z.to_nat (i0 * nrows (rhs ctx) + j0))
                (map (fun _ : Z => 0) (res ctx)) 0) as [Hin | ->]; [|lia].
    apply in_map_iff in Hin. destruct Hin as [_ [<- _]]. lia.
  - apply Hrange. apply nth_In. lia.
Qed.

(** ** The bit-serial identity *)

Lemma Zsum_product (f g : Z -> Z) (l1 l2 : list Z) :
  spec.Zsum (fun x => spec.Zsum (fun y => f x * g y) l2) l1
  = spec.Zsum f l1 * spec.Zsum g l2.
Proof.
  rewrite (Zsum_ext _ (fun x => f x * spec.Zsum g l2))
    by (intros x _; apply Zsum_scale).
  induction l1 as [|x l1 IH]; simpl; [reflexivity|]. rewrite IH. ring.
Qed.

Lemma Zsum_rotate (f : Z -> Z -> Z -> Z) (l1 l2 l3 : list Z) :
  spec.Zsum (fun x => spec.Zsum (fun y => spec.Zsum (fun z => f x y z) l3) l2) l1
  = spec.Zsum (fun z => spec.Zsum (fun x => spec.Zsum (fun y => f x y z) l2) l1) l3.
Proof.
  rewrite (Zsum_ext _ (fun x => spec.Zsum (fun z => spec.Zsum (fun y => f x y z) l2) l3))
    by (intros x _; apply Zsum_swap).
  apply Zsum_swap.
Qed.

Section ImportedRow.

Variable m : BitSerialMatrix.
Variable matrix : list Z.
Variable readColMajor : bool.
Hypothesis Hwf : spec.wf m.

Let m' := importRegular m matrix readColMajor.

Lemma imported_fields :
  nbits m' = nbits m /\ issigned m' = issigned m /\ isBipolar m' = isBipolar m
  /\ nrows m' = nrows m /\ ncols m' = ncols m
  /\ nrows_a m' = nrows_a m /\ ncols_a m' = ncols_a m.
Proof.
  apply shaped_fields. now apply importRegular_spec.
Qed.

Lemma imported_wordsPerRow :
  wordsPerRow m' = ncols_a m / 64 /\ 0 <= ncols_a m / 64
  /\ 64 * (ncols_a m / 64) = ncols_a m.
Proof.
  destruct imported_fields as (_ & _ & _ & _ & _ & _ & Hca).
  unfold wordsPerRow. rewrite Hca.
  destruct Hwf as (_ & _ & Hc & Hmod & _).
  split; [reflexivity|]. split; [apply Z.div_pos; lia|].
  rewrite (Z.div_mod (ncols_a m) 64) at 2 by lia. lia.
Qed.

Lemma imported_padding (b r c : Z) :
  0 <= b < nbits m -> 0 <= r < nrows m -> ncols m <= c < ncols_a m ->
  get m' b r c = false.
Proof.
  intros Hb Hr Hc. unfold m'. rewrite importRegular_get; [|assumption|].
  - unfold spec.logical.
    replace (c <? ncols m) with false by (symmetry; apply Z.ltb_ge; lia).
    now rewrite andb_false_r.
  - destruct Hwf as (_ & Hrows & Hcols & _). repeat split; lia.
Qed.

(** The popcount of an imported row counts the logical columns only. *)
Lemma imported_row_popcount (b r : Z) :
  0 <= b < nbits m -> 0 <= r < nrows m ->
  row_popcount m' b r
  = spec.Zsum (fun c => Z.b2z (get m' b r c)) (Zrange (ncols m)).
Proof.
  intros Hb Hr. destruct imported_wordsPerRow as (Hw & Hw0 & Hw64).
  rewrite row_popcount_bits by (rewrite Hw; assumption).
  rewrite Hw, Hw64. apply Zsum_trim.
  - destruct Hwf as (_ & _ & Hcols & _). lia.
  - intros c Hc. now rewrite imported_padding.
Qed.

(** The weighted bits of an imported element of a non-bipolar matrix add up
    to the element. *)
Lemma imported_value (r c : Z) :
  isBipolar m = false -> 1 <= nbits m <= 8 ->
  0 <= r < nrows m -> 0 <= c < ncols m ->
  spec.in_range m (read_elem m matrix readColMajor r c) ->
  spec.Zsum (fun b => spec.plane_weight m b * Z.b2z (get m' b r c)) (Zrange (nbits m))
  = read_elem m matrix readColMajor r c.
Proof.
  intros Hbip Hn Hr Hc Hv.
  rewrite <- (export_import_cell m matrix readColMajor r c) by assumption.
  destruct imported_fields as (Hnb & Hsg & Hbp & _).
  fold m'. rewrite export_cell_regular by (rewrite ?Hbp, ?Hnb; lia || assumption).
  rewrite Hnb, Hsg. apply Zsum_ext. intros b _.
  unfold spec.plane_weight, top_bit_negative. rewrite andb_comm.
  destruct (get m' b r c); simpl; [|lia].
  destruct ((b =? nbits m - 1) && issigned m); lia.
Qed.

(** The stored bit of an imported element of a bipolar matrix. *)
Lemma imported_sign (r c : Z) :
  isBipolar m = true -> 0 <= r < nrows m -> 0 <= c < ncols m ->
  spec.in_range m (read_elem m matrix readColMajor r c) ->
  2 * Z.b2z (get m' 0 r c) - 1 = read_elem m matrix readColMajor r c.
Proof.
  intros Hbip Hr Hc Hv.
  assert (Hone : nbits m = 1).
  { unfold isBipolar in Hbip. apply andb_prop in Hbip. now apply Z.eqb_eq. }
  unfold m'. rewrite importRegular_get by (try apply logical_allocated; lia || assumption).
  rewrite logical_true by assumption. unfold spec.stored_bit. rewrite Hbip.
  unfold spec.in_range in Hv. rewrite Hbip in Hv.
  destruct Hv as [-> | ->]; reflexivity.
Qed.

End ImportedRow.

Section ImportedPair.

Variables L R : BitSerialMatrix.
Variables A B : list Z.
Variables cmA cmB : bool.
Hypothesis HwfL : spec.wf L.
Hypothesis HwfR : spec.wf R.
Hypothesis Hcols : ncols L = ncols R.
Hypothesis Hcols_a : ncols_a L = ncols_a R.

Let L' := importRegular L A cmA.
Let R' := importRegular R B cmB.

(** The AND popcount of two imported rows counts the logical columns where
    both bits are set. *)
Lemma imported_and_popcount (bL bR i j : Z) :
  0 <= bL < nbits L -> 0 <= i < nrows L ->
  and_popcount (row_words L' bL i) (row_words R' bR j)
  = spec.Zsum (fun c => Z.b2z (get L' bL i c) * Z.b2z (get R' bR j c))
      (Zrange (ncols L)).
Proof.
  intros Hb Hi. subst L' R'.
  destruct (imported_wordsPerRow L A cmA HwfL) as (HwL & Hw0 & Hw64).
  destruct (imported_wordsPerRow R B cmB HwfR) as (HwR & _ & _).
  rewrite and_popcount_bits.
  - rewrite HwL, Hw64. apply Zsum_trim.
    + destruct HwfL as (_ & _ & Hc & _). lia.
    + intros c Hc. rewrite imported_padding by assumption. reflexivity.
  - rewrite HwL. assumption.
  - rewrite HwL, HwR. now rewrite Hcols_a.
Qed.

End ImportedPair.

Section BitSerialIdentity.

Variable ctx : GEMMContext.
Variables A B : list Z.
Variables cmA cmB : bool.
Hypothesis Hok : spec.ctx_ok ctx.
Hypothesis HbitsL : 1 <= nbits (lhs ctx) <= 8.
Hypothesis HbitsR : 1 <= nbits (rhs ctx) <= 8.
Variables i j : Z.
Hypothesis Hi : 0 <= i < nrows (lhs ctx).
Hypothesis Hj : 0 <= j < nrows (rhs ctx).
Hypothesis HrangeA : forall k, 0 <= k < ncols (lhs ctx) ->
  spec.in_range (lhs ctx) (read_elem (lhs ctx) A cmA i k).
Hypothesis HrangeB : forall k, 0 <= k < ncols (rhs ctx) ->
  spec.in_range (rhs ctx) (read_elem (rhs ctx) B cmB j k).

Let ctx' := spec.with_operands ctx A cmA B cmB.

Lemma weight_product (tL tR : bool) (bL bR c : Z) :
  0 <= bL -> 0 <= bR ->
  (if xorb tL tR then - (2 ^ (bL + bR) * c) else 2 ^ (bL + bR) * c)
  = (if tL then - 2 ^ bL else 2 ^ bL) * (if tR then - 2 ^ bR else 2 ^ bR) * c.
Proof.
  intros HL HR. rewrite Z.pow_add_r by assumption.
  destruct tL, tR; simpl; ring.
Qed.

Lemma top_bit_imported (m : BitSerialMatrix) (M : list Z) (cm : bool) (b : Z) :
  spec.wf m -> top_bit_negative (importRegular m M cm) b = top_bit_negative m b.
Proof.
  intros Hwf. destruct (imported_fields m M cm Hwf) as (Hnb & Hsg & _).
  unfold top_bit_negative. now rewrite Hnb, Hsg.
Qed.

(** Neither operand bipolar: the weighted AND popcounts of all pairs of
    bit-planes add up to the inner product of the two rows. *)
Lemma regular_planes_sum :
  isBipolar (lhs ctx) = false -> isBipolar (rhs ctx) = false ->
  spec.Zsum (fun bL => spec.Zsum (fun bR => contrib_regular ctx' bL bR i j)
     (Zrange (nbits (rhs ctx)))) (Zrange (nbits (lhs ctx)))
  = spec.naive_gemm ctx A cmA B cmB i j.
Proof.
  intros HbL HbR.
  destruct Hok as (HwfL & HwfR & Hc & Hca & _).
  set (a := fun b c => Z.b2z (get (importRegular (lhs ctx) A cmA) b i c)).
  set (b := fun b c => Z.b2z (get (importRegular (rhs ctx) B cmB) b j c)).
  rewrite (Zsum_ext _
     (fun bL => spec.Zsum (fun bR => spec.Zsum (fun c =>
        (spec.plane_weight (lhs ctx) bL * a bL c)
        * (spec.plane_weight (rhs ctx) bR * b bR c))
      (Zrange (ncols (lhs ctx)))) (Zrange (nbits (rhs ctx))))).
  2:{ intros bL HbL'. apply Zrange_In in HbL'. apply Zsum_ext.
      intros bR HbR'. apply Zrange_In in HbR'.
      unfold contrib_regular, ctx'. simpl lhs. simpl rhs.
      rewrite !top_bit_imported by assumption.
      rewrite weight_product by lia.
      rewrite (imported_and_popcount _ _ A B cmA cmB HwfL HwfR Hca) by assumption.
      fold (spec.plane_weight (lhs ctx) bL). fold (spec.plane_weight (rhs ctx) bR).
      rewrite <- Zsum_scale. apply Zsum_ext. intros c _. unfold a, b. ring. }
  rewrite Zsum_rotate. unfold spec.naive_gemm. apply Zsum_ext.
  intros c Hc'. apply Zrange_In in Hc'.
  rewrite Zsum_product. unfold a, b.
  rewrite imported_value by auto.
  rewrite imported_value by (auto; try lia; apply HrangeB; lia).
  reflexivity.
Qed.

(** One operand bipolar: the contributions [(2 p_b - row_popcount) * 2^b] of
    the bit-planes of the other operand add up to the inner product. *)
Lemma bipolar_regular_planes_sum :
  isBipolarTimesRegular ctx = true ->
  spec.Zsum (fun bL => spec.Zsum (fun bR => contrib_bipolar_regular ctx' bL bR i j)
     (Zrange (nbits (rhs ctx)))) (Zrange (nbits (lhs ctx)))
  = spec.naive_gemm ctx A cmA B cmB i j.
Proof.
  intros Hbr.
  destruct Hok as (HwfL & HwfR & Hc & Hca & _).
  set (a := fun b c => Z.b2z (get (importRegular (lhs ctx) A cmA) b i c)).
  set (b := fun b c => Z.b2z (get (importRegular (rhs ctx) B cmB) b j c)).
  destruct (imported_fields (lhs ctx) A cmA HwfL) as (_ & _ & HbpL & _).
  unfold isBipolarTimesRegular in Hbr.
  destruct (isBipolar (lhs ctx)) eqn:HbL; destruct (isBipolar (rhs ctx)) eqn:HbR;
    try discriminate Hbr; clear Hbr.
  - (* LHS bipolar *)
    assert (Hone : nbits (lhs ctx) = 1).
    { unfold isBipolar in HbL. apply andb_prop in HbL. now apply Z.eqb_eq. }
    rewrite Hone. change (Zrange 1) with [0]. simpl spec.Zsum at 1. rewrite Z.add_0_r.
    rewrite (Zsum_ext _
       (fun bR => spec.Zsum (fun c =>
          read_elem (lhs ctx) A cmA i c * (spec.plane_weight (rhs ctx) bR * b bR c))
        (Zrange (ncols (lhs ctx))))).
    2:{ intros bR HbR'. apply Zrange_In in HbR'.
        unfold contrib_bipolar_regular, ctx'. simpl lhs. simpl rhs.
        rewrite HbpL, top_bit_imported by assumption.
        rewrite (imported_and_popcount _ _ A B cmA cmB HwfL HwfR Hca) by lia.
        rewrite imported_row_popcount by assumption. rewrite <- Hc.
        transitivity (spec.plane_weight (rhs ctx) bR
                      * spec.Zsum (fun c => (2 * a 0 c - 1) * b bR c)
                          (Zrange (ncols (lhs ctx)))).
        - unfold spec.plane_weight.
          rewrite (Zsum_ext (fun c => (2 * a 0 c - 1) * b bR c)
                     (fun c => 2 * (a 0 c * b bR c) - b bR c))
            by (intros; ring).
          rewrite Zsum_sub, Zsum_scale. unfold a, b.
          destruct (top_bit_negative (rhs ctx) bR); ring.
        - rewrite <- Zsum_scale. apply Zsum_ext. intros c Hc'. apply Zrange_In in Hc'.
          unfold a. rewrite imported_sign by auto. ring. }
    rewrite Zsum_swap. unfold spec.naive_gemm. apply Zsum_ext.
    intros c Hc'. apply Zrange_In in Hc'.
    rewrite Zsum_scale. unfold b.
    rewrite imported_value by (auto; try lia; apply HrangeB; lia).
    reflexivity.
  - (* RHS bipolar *)
    assert (Hone : nbits (rhs ctx) = 1).
    { unfold isBipolar in HbR. apply andb_prop in HbR. now apply Z.eqb_eq. }
    rewrite Hone. change (Zrange 1) with [0].
    rewrite (Zsum_ext _
       (fun bL => spec.Zsum (fun c =>
          (spec.plane_weight (lhs ctx) bL * a bL c) * read_elem (rhs ctx) B cmB j c)
        (Zrange (ncols (lhs ctx))))).
    2:{ intros bL HbL'. apply Zrange_In in HbL'.
        simpl spec.Zsum at 1. rewrite Z.add_0_r.
        unfold contrib_bipolar_regular, ctx'. simpl lhs. simpl rhs.
        rewrite HbpL, top_bit_imported by assumption.
        rewrite (imported_and_popcount _ _ A B cmA cmB HwfL HwfR Hca) by lia.
        rewrite imported_row_popcount by assumption.
        transitivity (spec.plane_weight (lhs ctx) bL
                      * spec.Zsum (fun c => a bL c * (2 * b 0 c - 1))
                          (Zrange (ncols (lhs ctx)))).
        - unfold spec.plane_weight.
          rewrite (Zsum_ext (fun c => a bL c * (2 * b 0 c - 1))
                     (fun c => 2 * (a bL c * b 0 c) - a bL c))
            by (intros; ring).
          rewrite Zsum_sub, Zsum_scale. unfold a, b.
          destruct (top_bit_negative (lhs ctx) bL); ring.
        - rewrite <- Zsum_scale. apply Zsum_ext. intros c Hc'. apply Zrange_In in Hc'.
          unfold b. rewrite imported_sign by (auto; try lia; apply HrangeB; lia). ring. }
    rewrite Zsum_swap. unfold spec.naive_gemm. apply Zsum_ext.
    intros c Hc'. apply Zrange_In in Hc'.
    rewrite <- (imported_value (lhs ctx) A cmA HwfL i c) by auto.
    rewrite (Z.mul_comm (spec.Zsum _ _)), <- Zsum_scale.
    apply Zsum_ext. intros bL _. unfold a. ring.
Qed.

End BitSerialIdentity.

(** ** The kernel result *)

Lemma Zsum_abs_bound (f : Z -> Z) (l : list Z) (M : Z) :
  (forall x, In x l -> Z.abs (f x) <= M) ->
  Z.abs (spec.Zsum f l) <= Z.of_nat (length l) * M.
Proof.
  induction l as [|x l IH]; intros H.
  - simpl. lia.
  - cbn [spec.Zsum fold_right length].
    specialize (IH (fun y Hy => H y (or_intror Hy))).
    specialize (H x (or_introl eq_refl)).
    fold (spec.Zsum f l). lia.
Qed.

Lemma in_range_abs (m : BitSerialMatrix) (v : Z) :
  1 <= nbits m -> spec.in_range m v -> Z.abs v <= 2 ^ nbits m.
Proof.
  intros Hn. unfold spec.in_range.
  assert (Hhalf : 0 < 2 ^ (nbits m - 1)) by (apply Z.pow_pos_nonneg; lia).
  assert (Hdbl : 2 ^ nbits m = 2 * 2 ^ (nbits m - 1)).
  { replace (nbits m) with ((nbits m - 1) + 1) at 1 by lia.
    rewrite Z.pow_add_r by lia. lia. }
  destruct (isBipolar m); [|destruct (issigned m)]; lia.
Qed.

Lemma naive_gemm_int32 (ctx : GEMMContext) (A B : list Z) (cmA cmB : bool) (i j : Z) :
  spec.ctx_ok ctx -> 1 <= nbits (lhs ctx) -> 1 <= nbits (rhs ctx) ->
  ncols (lhs ctx) * 2 ^ (nbits (lhs ctx) + nbits (rhs ctx)) < 2 ^ 31 ->
  (forall k, 0 <= k < ncols (lhs ctx) ->
     spec.in_range (lhs ctx) (read_elem (lhs ctx) A cmA i k)) ->
  (forall k, 0 <= k < ncols (rhs ctx) ->
     spec.in_range (rhs ctx) (read_elem (rhs ctx) B cmB j k)) ->
  - 2 ^ 31 <= spec.naive_gemm ctx A cmA B cmB i j < 2 ^ 31.
Proof.
  intros (HwfL & HwfR & Hc & _) HnL HnR Hfit HA HB.
  assert (Hb : Z.abs (spec.naive_gemm ctx A cmA B cmB i j)
               <= Z.of_nat (length (Zrange (ncols (lhs ctx))))
                  * 2 ^ (nbits (lhs ctx) + nbits (rhs ctx))).
  { apply Zsum_abs_bound. intros k Hk. apply Zrange_In in Hk.
    rewrite Z.abs_mul, Z.pow_add_r by lia.
    apply Z.mul_le_mono_nonneg; try apply Z.abs_nonneg.
    - apply in_range_abs; auto.
    - apply in_range_abs; [assumption|]. apply HB. lia. }
  rewrite Zrange_length, Z2Nat.id in Hb by (destruct HwfL as (_ & _ & ? & _); lia).
  lia.
Qed.

Lemma gemmBitSerial_cell (ctx : GEMMContext) (A B : list Z) (cmA cmB : bool)
    (contrib : Z -> Z -> Z -> Z -> Z) (i j : Z) :
  spec.ctx_ok ctx -> 0 <= i < nrows (lhs ctx) -> 0 <= j < nrows (rhs ctx) ->
  nth (Z.to_nat (i * nrows (rhs ctx) + j))
    (tiled_gemm (spec.with_operands ctx A cmA B cmB) contrib
       (map (fun _ => 0) (res ctx))) 0
  = wrap32 (spec.Zsum (fun bL => spec.Zsum (fun bR => contrib bL bR i j)
              (Zrange (nbits (rhs ctx)))) (Zrange (nbits (lhs ctx)))).
Proof.
  intros (HwfL & HwfR & Hc & Hca & HLB & HRB & HdL & HdR & Hlen) Hi Hj.
  destruct (imported_fields (lhs ctx) A cmA HwfL) as (HnbL & _ & _ & HnrL & _ & HnraL & _).
  destruct (imported_fields (rhs ctx) B cmB HwfR) as (HnbR & _ & _ & HnrR & _ & HnraR & _).
  pose proof (tiled_gemm_cell (spec.with_operands ctx A cmA B cmB) contrib i j) as H.
  simpl in H. rewrite HnbL, HnbR, HnrL, HnrR, HnraL, HnraR in H.
  apply H; try assumption.
  - destruct HwfL as (_ & ? & _). lia.
  - destruct HwfR as (_ & ? & _). lia.
Qed.

(** C1, against the kernel of the specification and as the importer has it:
    for a context as [allocGEMMContext_base] lays it out, with operands of 1
    to 8 bits (the importer's [uint8_t]) that are not both bipolar, a depth
    with [depth * 2^(lhsBits + rhsBits) < 2^31], and operand matrices whose
    elements are in range for their precision and signedness, the kernel
    writes at [(i, j)], for all [i < lhs.nrows] and [j < rhs.nrows], the
    inner product [sum_k lhs[i,k] * rhs[j,k]] of the imported matrices. *)
Theorem gemmBitSerial_equals_naive_upto_8_bits (ctx : GEMMContext)
    (A B : list Z) (cmA cmB : bool) :
  spec.ctx_ok ctx ->
  1 <= nbits (lhs ctx) <= 8 -> 1 <= nbits (rhs ctx) <= 8 ->
  isBipolarTimesBipolar ctx = false ->
  ncols (lhs ctx) * 2 ^ (nbits (lhs ctx) + nbits (rhs ctx)) < 2 ^ 31 ->
  (forall i k, 0 <= i < nrows (lhs ctx) -> 0 <= k < ncols (lhs ctx) ->
     spec.in_range (lhs ctx) (read_elem (lhs ctx) A cmA i k)) ->
  (forall j k, 0 <= j < nrows (rhs ctx) -> 0 <= k < ncols (rhs ctx) ->
     spec.in_range (rhs ctx) (read_elem (rhs ctx) B cmB j k)) ->
  forall i j, 0 <= i < nrows (lhs ctx) -> 0 <= j < nrows (rhs ctx) ->
    nth (Z.to_nat (i * nrows (rhs ctx) + j))
      (gemmBitSerial (spec.with_operands ctx A cmA B cmB)) 0
    = spec.naive_gemm ctx A cmA B cmB i j.
Proof.
  intros Hok HnL HnR Hbb Hfit HA HB i j Hi Hj.
  pose proof Hok as (HwfL & HwfR & _).
  destruct (imported_fields (lhs ctx) A cmA HwfL) as (_ & _ & HbpL & _).
  destruct (imported_fields (rhs ctx) B cmB HwfR) as (_ & _ & HbpR & _).
  assert (Hint : - 2 ^ 31 <= spec.naive_gemm ctx A cmA B cmB i j < 2 ^ 31).
  { apply naive_gemm_int32; auto; lia. }
  unfold gemmBitSerial, isBipolarTimesBipolar, isBipolarTimesRegular.
  simpl lhs. simpl rhs. simpl res. rewrite HbpL, HbpR.
  fold (isBipolarTimesBipolar ctx). fold (isBipolarTimesRegular ctx). rewrite Hbb.
  destruct (isBipolarTimesRegular ctx) eqn:Hbr.
  - rewrite gemmBitSerial_cell by assumption.
    rewrite bipolar_regular_planes_sum by auto.
    now apply wrap32_small.
  - rewrite gemmBitSerial_cell by assumption.
    unfold isBipolarTimesBipolar in Hbb. unfold isBipolarTimesRegular in Hbr.
    rewrite regular_planes_sum; try assumption; auto.
    + now apply wrap32_small.
    + destruct (isBipolar (lhs ctx)), (isBipolar (rhs ctx)); simpl in *; congruence.
    + destruct (isBipolar (lhs ctx)), (isBipolar (rhs ctx)); simpl in *; congruence.
Qed.

(** The rule of the specification for two bipolar operands, [2p - k] over
    the AND popcount [p], is not the inner product: it gives [-1] for
    [(-1) * (-1)].  The theorem above leaves that path out. *)
Lemma bipolar_bipolar_rule_on_minus_ones :
  gemmBitSerial (spec.with_operands spec.bipolar_ctx [-1] false [-1] false) = [-1]
  /\ spec.naive_gemm spec.bipolar_ctx [-1] false [-1] false 0 0 = 1.
Proof. split; reflexivity. Qed.

Lemma gemmBitSerial_drops_ninth_bit :
  exists ctx,
    allocGEMMContext_base (fun _ => 0) 1 1 1 9 1 false false 2 1 2 (32 * 1024 * 8)
    = Some ctx
    /\ spec.in_range (lhs ctx) 256 /\ spec.in_range (rhs ctx) 1
    /\ 1 * 2 ^ (9 + 1) < 2 ^ 31
    /\ nth 0 (gemmBitSerial (spec.with_operands ctx [256] false [1] false)) 0 = 0
    /\ spec.naive_gemm ctx [256] false [1] false 0 0 = 256.
Proof.
  eexists. split; [vm_compute; reflexivity|].
  split; [unfold spec.in_range; simpl; lia|].
  split; [unfold spec.in_range; simpl; lia|].
  split; [reflexivity|]. split; vm_compute; reflexivity.
Qed.

Lemma gemmBitSerial_equals_naive_upto_8_bits_witness :
  spec.ctx_ok spec.scenario2_ctx
  /\ nth (Z.to_nat (0 * nrows (rhs spec.scenario2_ctx) + 0))
       (gemmBitSerial
          (spec.with_operands spec.scenario2_ctx [-2; 1; 0; -1] false [1; 1; 1; 1] false)) 0
     = spec.naive_gemm spec.scenario2_ctx [-2; 1; 0; -1] false [1; 1; 1; 1] false 0 0.
Proof.
  assert (Hok : spec.ctx_ok spec.scenario2_ctx).
  { unfold spec.ctx_ok, spec.scenario2_ctx. simpl.
    repeat split; try solve_wf; try lia; try reflexivity; exists 1; reflexivity. }
  split; [exact Hok|].
  apply (gemmBitSerial_equals_naive_upto_8_bits spec.scenario2_ctx
           [-2; 1; 0; -1] [1; 1; 1; 1] false false Hok); simpl; try lia; try reflexivity.
  - intros i k Hi Hk. assert (i = 0) by lia.
    assert (k = 0 \/ k = 1 \/ k = 2 \/ k = 3) by lia.
    subst i. unfold spec.in_range.
    destruct H0 as [-> | [-> | [-> | ->]]]; simpl; lia.
  - intros j k Hj Hk. assert (j = 0) by lia.
    assert (k = 0 \/ k = 1 \/ k = 2 \/ k = 3) by lia.
    subst j. unfold spec.in_range.
    destruct H0 as [-> | [-> | [-> | ->]]]; simpl; lia.
Defined.

Lemma export_import_roundtrip_upto_8_bits_witness :
  spec.wf (spec.zero_bsm true 3 2 2 2 64)
  /\ exportRegular (importRegular (spec.zero_bsm true 3 2 2 2 64) [-4; 3; 0; -1] false)
       [0; 0; 0; 0]
     = [-4; 3; 0; -1].
Proof.
  assert (Hwf : spec.wf (spec.zero_bsm true 3 2 2 2 64)) by solve_wf.
  split; [exact Hwf|].
  apply (proj2 (export_import_roundtrip_upto_8_bits (spec.zero_bsm true 3 2 2 2 64)
                  [-4; 3; 0; -1] [0; 0; 0; 0] false Hwf
                  ltac:(simpl; lia) ltac:(simpl; lia) eq_refl
                  ltac:(intros r c Hr Hc; simpl in Hr, Hc;
                        assert (Hr' : r = 0 \/ r = 1) by lia;
                        assert (Hc' : c = 0 \/ c = 1) by lia;
                        unfold spec.in_range;
                        destruct Hr' as [->| ->]; destruct Hc' as [->| ->];
                        simpl; lia))); reflexivity.
Defined.

Lemma imports_leave_padding_zero_witness :
  spec.wf (spec.zero_bsm false 2 1 2 2 64)
  /\ get (importRegular (spec.zero_bsm false 2 1 2 2 64) [3; 2] false) 1 1 0 = false
  /\ get (importRegular (spec.zero_bsm false 2 1 2 2 64) [3; 2] false) 1 0 5 = false.
Proof.
  assert (Hwf : spec.wf (spec.zero_bsm false 2 1 2 2 64)) by solve_wf.
  split; [exact Hwf|]. split.
  - apply (imports_leave_padding_zero (spec.zero_bsm false 2 1 2 2 64)
             [3; 2] [] 0 false 1 1 0 Hwf); [solve_wf | left; simpl; lia].
  - apply (imports_leave_padding_zero (spec.zero_bsm false 2 1 2 2 64)
             [3; 2] [] 0 false 1 0 5 Hwf); [solve_wf | right; simpl; lia].
Defined.

Lemma importRegular_planes_above_8_zero_witness :
  spec.wf (spec.zero_bsm false 10 1 1 1 64)
  /\ get (importRegular (spec.zero_bsm false 10 1 1 1 64) [1023] false) 9 0 0 = false.
Proof.
  assert (Hwf : spec.wf (spec.zero_bsm false 10 1 1 1 64)) by solve_wf.
  split; [exact Hwf|].
  apply (proj2 (importRegular_planes_above_8_zero (spec.zero_bsm false 10 1 1 1 64)
                  [1023] false Hwf ltac:(simpl; lia))); [solve_wf | lia].
Defined.


(** * Further properties of the bit-packed library *)

(** ** alignTo *)

(** X1: for an alignment [af > 0] and an input [i] with [i + af <= 2^64],
    [alignTo i af] is the least multiple of [af] that is at least [i], and
    aligning the result again changes nothing. *)
Theorem alignTo_least_multiple (i af : Z) :
  0 <= i -> 0 < af -> i + af <= 2 ^ 64 ->
  (af | alignTo i af)
  /\ i <= alignTo i af
  /\ (forall m, (af | m) -> i <= m -> alignTo i af <= m)
  /\ alignTo (alignTo i af) af = alignTo i af.
Proof.
  intros Hi Haf Hsum.
  destruct (alignTo_spec i af Hi Haf Hsum) as [[Hlo Hhi] Hdiv].
  split; [assumption|]. split; [assumption|]. split.
  - intros m [j ->] Hm. destruct Hdiv as [k Hk]. rewrite Hk in *.
    destruct (Z_le_gt_dec k j) as [Hkj|Hkj]; [nia|].
    assert (j + 1 <= k) by lia.
    assert ((j + 1) * af <= k * af) by (apply Z.mul_le_mono_nonneg_r; lia).
    lia.
  - now apply alignTo_multiple.
Qed.

Lemma alignTo_least_multiple_witness :
  (64 | alignTo 70 64)
  /\ 70 <= alignTo 70 64
  /\ (forall m, (64 | m) -> 70 <= m -> alignTo 70 64 <= m)
  /\ alignTo (alignTo 70 64) 64 = alignTo 70 64.
Proof.
  apply (alignTo_least_multiple 70 64); lia.
Defined.

(** ** Single bits *)

Lemma shaped_unset (m0 m : BitSerialMatrix) (b r c : Z) :
  spec.shaped m0 m -> spec.shaped m0 (unset m b r c).
Proof.
  intros [d [-> Hlen]]. unfold unset. simpl.
  eexists. split; [reflexivity|]. now rewrite length_list_update.
Qed.

Lemma clear_mask_testbit (p q : Z) :
  0 <= p < 64 -> 0 <= q < 64 ->
  Z.testbit (wrap64 (Z.lnot (Z.shiftl 1 p))) q = negb (p =? q).
Proof.
  intros Hp Hq. unfold wrap64.
  rewrite Z.mod_pow2_bits_low by lia.
  rewrite Z.lnot_spec by lia. rewrite Z.shiftl_1_l.
  now rewrite Z.pow2_bits_eqb by lia.
Qed.

Lemma get_unset (m : BitSerialMatrix) (b r c b' r' c' : Z) :
  spec.wf m -> spec.allocated m b r c -> spec.allocated m b' r' c' ->
  get (unset m b r c) b' r' c'
  = negb ((b' =? b) && (r' =? r) && (c' =? c)) && get m b' r' c'.
Proof.
  intros Hwf Ha Ha'. rewrite !get_testbit.
  unfold word at 1.
  replace (word_index (unset m b r c) b' r' c') with (word_index m b' r' c') by reflexivity.
  unfold unset. simpl data. rewrite nth_list_update. fold (word m b' r' c').
  destruct (word_index_wf m Hwf b r c Ha) as (_ & _ & Hi).
  destruct (word_index_wf m Hwf b' r' c' Ha') as (_ & _ & Hi').
  assert (Hlen : length (data m) = Z.to_nat (nbits m * (nrows_a m * (ncols_a m / 64))))
    by apply Hwf.
  pose proof (Z.mod_pos_bound c 64 ltac:(lia)) as Hp.
  pose proof (Z.mod_pos_bound c' 64 ltac:(lia)) as Hp'.
  replace (Nat.ltb (Z.to_nat (word_index m b r c)) (length (data m))) with true
    by (symmetry; apply Nat.ltb_lt; lia).
  rewrite andb_true_r.
  destruct (Nat.eqb_spec (Z.to_nat (word_index m b' r' c')) (Z.to_nat (word_index m b r c)))
    as [E|E].
  - assert (Eidx : word_index m b' r' c' = word_index m b r c) by lia.
    rewrite Z.land_spec, bitpos_mod, clear_mask_testbit by lia.
    destruct (Z.eqb_spec (c mod 64) (c' mod 64)) as [Ec|Ec].
    + destruct (word_index_inj m Hwf b' r' c' b r c Ha' Ha Eidx (eq_sym Ec))
        as (-> & -> & ->).
      rewrite !Z.eqb_refl. simpl. now rewrite andb_false_r.
    + destruct (Z.eqb_spec c' c) as [->|]; [congruence|].
      rewrite !andb_false_r. simpl. now rewrite andb_true_r.
  - destruct (Z.eqb_spec b' b) as [->|]; [|reflexivity].
    destruct (Z.eqb_spec r' r) as [->|]; [|reflexivity].
    destruct (Z.eqb_spec c' c) as [->|]; [|reflexivity].
    congruence.
Qed.

(** X2: in a laid-out matrix, [set] at an allocated position leaves the
    matrix laid out, turns that bit on and leaves every other allocated bit
    as it was; setting the same bit a second time changes no bit. *)
Theorem set_touches_one_bit (m : BitSerialMatrix) (b r c : Z) :
  spec.wf m -> spec.allocated m b r c ->
  spec.wf (set m b r c)
  /\ get (set m b r c) b r c = true
  /\ (forall b' r' c', spec.allocated m b' r' c' ->
        (b', r', c') <> (b, r, c) ->
        get (set m b r c) b' r' c' = get m b' r' c')
  /\ (forall b' r' c', spec.allocated m b' r' c' ->
        get (set (set m b r c) b r c) b' r' c' = get (set m b r c) b' r' c').
Proof.
  intros Hwf Ha.
  assert (Hsh : spec.shaped m (set m b r c)) by (apply shaped_set, shaped_refl).
  assert (Hwf' : spec.wf (set m b r c)) by (eapply shaped_wf; eassumption).
  split; [assumption|]. split; [|split].
  - rewrite get_set by assumption. now rewrite !Z.eqb_refl.
  - intros b' r' c' Ha' Hne. rewrite get_set by assumption.
    destruct (Z.eqb_spec b' b) as [->|]; [|reflexivity].
    destruct (Z.eqb_spec r' r) as [->|]; [|reflexivity].
    destruct (Z.eqb_spec c' c) as [->|]; [|reflexivity].
    congruence.
  - intros b' r' c' Ha'.
    rewrite (get_set (set m b r c))
      by (assumption || (eapply shaped_allocated; eassumption)).
    rewrite get_set by assumption.
    destruct ((b' =? b) && (r' =? r) && (c' =? c)); reflexivity.
Qed.

Lemma set_touches_one_bit_witness :
  let m := spec.zero_bsm false 2 3 70 4 128 in
  spec.wf (set m 1 2 69)
  /\ get (set m 1 2 69) 1 2 69 = true
  /\ (forall b' r' c', spec.allocated m b' r' c' ->
        (b', r', c') <> (1, 2, 69) ->
        get (set m 1 2 69) b' r' c' = get m b' r' c')
  /\ (forall b' r' c', spec.allocated m b' r' c' ->
        get (set (set m 1 2 69) 1 2 69) b' r' c' = get (set m 1 2 69) b' r' c').
Proof.
  apply (set_touches_one_bit (spec.zero_bsm false 2 3 70 4 128) 1 2 69); solve_wf.
Defined.

(** X3: in a laid-out matrix, [unset] at an allocated position leaves the
    matrix laid out, turns that bit off and leaves every other allocated bit
    as it was; on a bit that was off, [set] followed by [unset] brings every
    allocated bit back. *)
Theorem unset_touches_one_bit (m : BitSerialMatrix) (b r c : Z) :
  spec.wf m -> spec.allocated m b r c ->
  spec.wf (unset m b r c)
  /\ get (unset m b r c) b r c = false
  /\ (forall b' r' c', spec.allocated m b' r' c' ->
        (b', r', c') <> (b, r, c) ->
        get (unset m b r c) b' r' c' = get m b' r' c')
  /\ (get m b r c = false ->
      forall b' r' c', spec.allocated m b' r' c' ->
        get (unset (set m b r c) b r c) b' r' c' = get m b' r' c').
Proof.
  intros Hwf Ha.
  assert (Hsh : spec.shaped m (unset m b r c)) by (apply shaped_unset, shaped_refl).
  split; [eapply shaped_wf; eassumption|]. split; [|split].
  - rewrite get_unset by assumption. now rewrite !Z.eqb_refl.
  - intros b' r' c' Ha' Hne. rewrite get_unset by assumption.
    destruct (Z.eqb_spec b' b) as [->|]; [|reflexivity].
    destruct (Z.eqb_spec r' r) as [->|]; [|reflexivity].
    destruct (Z.eqb_spec c' c) as [->|]; [|reflexivity].
    congruence.
  - intros Hclear b' r' c' Ha'.
    assert (Hs : spec.shaped m (set m b r c)) by (apply shaped_set, shaped_refl).
    rewrite get_unset;
      [| eapply shaped_wf; eassumption
       | eapply shaped_allocated; eassumption
       | eapply shaped_allocated; eassumption].
    rewrite get_set by assumption.
    destruct (Z.eqb_spec b' b) as [->|]; [|reflexivity].
    destruct (Z.eqb_spec r' r) as [->|]; [|reflexivity].
    destruct (Z.eqb_spec c' c) as [->|]; [|reflexivity].
    simpl. now rewrite Hclear.
Qed.

Lemma unset_touches_one_bit_witness :
  let m := spec.zero_bsm false 2 3 70 4 128 in
  spec.wf (unset m 1 2 69)
  /\ get (unset m 1 2 69) 1 2 69 = false
  /\ (forall b' r' c', spec.allocated m b' r' c' ->
        (b', r', c') <> (1, 2, 69) ->
        get (unset m 1 2 69) b' r' c' = get m b' r' c')
  /\ (get m 1 2 69 = false ->
      forall b' r' c', spec.allocated m b' r' c' ->
        get (unset (set m 1 2 69) 1 2 69) b' r' c' = get m b' r' c').
Proof.
  apply (unset_touches_one_bit (spec.zero_bsm false 2 3 70 4 128) 1 2 69); solve_wf.
Defined.

(** ** Importing over earlier contents *)

Lemma wf_clear_bounds (m : BitSerialMatrix) :
  spec.wf m ->
  0 <= nbits m * wordsPerBitplane m * 8 < 2 ^ 64
  /\ length (data m) = Z.to_nat (nbits m * wordsPerBitplane m).
Proof.
  intros Hwf. rewrite wordsPerBitplane_wf by assumption.
  destruct Hwf as (? & ? & ? & ? & ? & ? & ?).
  assert (0 <= ncols_a m / 64) by (apply Z.div_pos; lia).
  split; [|assumption]. split; [|lia].
  repeat apply Z.mul_nonneg_nonneg; lia.
Qed.

Lemma clearAll_forgets (m : BitSerialMatrix) (d : list Z) :
  spec.wf m -> length d = length (data m) ->
  clearAll (with_data m d) = clearAll m.
Proof.
  intros Hwf Hlen.
  assert (Hwf' : spec.wf (with_data m d)).
  { apply (shaped_wf m); [assumption|]. exists d. split; [reflexivity | assumption]. }
  destruct (wf_clear_bounds m Hwf) as [Hb Hl].
  destruct (wf_clear_bounds _ Hwf') as [Hb' Hl'].
  pose proof (clearAll_zeroes m Hb Hl) as Hz.
  pose proof (clearAll_zeroes _ Hb' Hl') as Hz'.
  assert (E1 : clearAll (with_data m d)
               = with_data m (data (clearAll (with_data m d)))) by reflexivity.
  assert (E2 : clearAll m = with_data m (data (clearAll m))) by reflexivity.
  rewrite E1, E2, Hz, Hz'. simpl. now rewrite Hlen.
Qed.

(** X4: an import starts with [clearAll], so what the buffer held before
    does not matter: from any buffer of the same length [importRegular] and
    [importRegularAndQuantize] give the same matrix, and a second
    [importRegular] erases the first. *)
Theorem imports_overwrite_earlier_contents (m : BitSerialMatrix)
    (d A matrix thresholds : list Z) (nThres : Z) (colMajorA readColMajor : bool) :
  spec.wf m -> length d = length (data m) ->
  importRegular (with_data m d) matrix readColMajor
  = importRegular m matrix readColMajor
  /\ importRegularAndQuantize (with_data m d) matrix thresholds nThres readColMajor
     = importRegularAndQuantize m matrix thresholds nThres readColMajor
  /\ importRegular (importRegular m A colMajorA) matrix readColMajor
     = importRegular m matrix readColMajor.
Proof.
  intros Hwf Hlen.
  assert (Hany : forall d', length d' = length (data m) ->
            importRegular (with_data m d') matrix readColMajor
            = importRegular m matrix readColMajor).
  { intros d' Hd'. unfold importRegular. now rewrite clearAll_forgets. }
  split; [now apply Hany|]. split.
  - unfold importRegularAndQuantize. rewrite clearAll_forgets by assumption.
    reflexivity.
  - destruct (importRegular_spec m A colMajorA Hwf) as [[d' [-> Hd']] _].
    now apply Hany.
Qed.

Lemma imports_overwrite_earlier_contents_witness :
  let m := spec.zero_bsm false 2 1 2 1 64 in
  importRegular (with_data m [7; 9]) [1; 2] false = importRegular m [1; 2] false
  /\ importRegularAndQuantize (with_data m [7; 9]) [1; 2] [0] 1 false
     = importRegularAndQuantize m [1; 2] [0] 1 false
  /\ importRegular (importRegular m [3; 3] true) [1; 2] false
     = importRegular m [1; 2] false.
Proof.
  apply (imports_overwrite_earlier_contents (spec.zero_bsm false 2 1 2 1 64)
           [7; 9] [3; 3] [1; 2] [0] 1 true false); [solve_wf | reflexivity].
Defined.

(** ** Elements outside the range of the matrix *)

Lemma mod_mod_pow2 (a j k : Z) :
  0 <= j <= k -> (a mod 2 ^ k) mod 2 ^ j = a mod 2 ^ j.
Proof.
  intros H. apply Z.mod_mod_divide.
  exists (2 ^ (k - j)). rewrite <- Z.pow_add_r by lia. f_equal. lia.
Qed.

Lemma testbit_mod_pow2 (a k b : Z) :
  0 <= b -> 0 <= k -> Z.testbit (a mod 2 ^ k) b = (b <? k) && Z.testbit a b.
Proof.
  intros Hb Hk. destruct (Z.ltb_spec b k) as [H|H]; simpl.
  - now apply Z.mod_pow2_bits_low.
  - apply Z.mod_pow2_bits_high. lia.
Qed.

Lemma testbit_congr (x y j b : Z) :
  0 <= b < j -> x mod 2 ^ j = y mod 2 ^ j -> Z.testbit x b = Z.testbit y b.
Proof.
  intros Hb E.
  rewrite <- (Z.mod_pow2_bits_low x j b), <- (Z.mod_pow2_bits_low y j b) by lia.
  now rewrite E.
Qed.

(** Below the width of the matrix and of a byte, the 8-bit intermediate of
    the importer has the bits of the element, whatever the element. *)
Lemma to_twos_complement_low (m : BitSerialMatrix) (v b : Z) :
  1 <= nbits m <= 31 -> 0 <= b < nbits m -> b < 8 ->
  Z.testbit (to_twos_complement m v) b = Z.testbit v b.
Proof.
  intros Hn Hb Hb8. unfold to_twos_complement, to_uint8.
  destruct (issigned m && (v <? 0)).
  - rewrite wrap64_small by lia. rewrite shl_int_pow2 by lia.
    apply (testbit_congr _ _ (b + 1)); [lia|].
    rewrite mod_mod_pow2 by lia.
    rewrite Z.add_mod by (apply Z.pow_nonzero; lia).
    rewrite !mod_mod_pow2 by lia.
    rewrite Z.add_0_l, mod_mod_pow2 by lia.
    rewrite <- Z.add_mod by (apply Z.pow_nonzero; lia).
    replace (2 ^ (nbits m - 1) + (v + 2 ^ (nbits m - 1)))
      with (v + 2 ^ (nbits m - 1 - b) * 2 ^ (b + 1)).
    + apply Z.mod_add. apply Z.pow_nonzero; lia.
    + rewrite <- Z.pow_add_r by lia.
      replace (nbits m - 1 - b + (b + 1)) with ((nbits m - 1) + 1) by lia.
      rewrite Z.pow_add_r by lia. lia.
  - apply Z.mod_pow2_bits_low. lia.
Qed.

(** What [importRegular] stores of an element of a non-bipolar matrix:
    its bits below the width of the matrix and of a byte. *)
Lemma imported_plane (m : BitSerialMatrix) (matrix : list Z) (readColMajor : bool)
    (b r c : Z) :
  spec.wf m -> isBipolar m = false -> 1 <= nbits m <= 31 ->
  0 <= b < nbits m -> 0 <= r < nrows m -> 0 <= c < ncols m ->
  get (importRegular m matrix readColMajor) b r c
  = (b <? 8) && Z.testbit (read_elem m matrix readColMajor r c) b.
Proof.
  intros Hwf Hbip Hn Hb Hr Hc.
  rewrite importRegular_get by (try apply logical_allocated; assumption).
  rewrite logical_true by assumption. simpl.
  unfold spec.stored_bit. rewrite Hbip.
  rewrite stored_bit_uint8 by (apply to_twos_complement_range || lia).
  destruct (Z.ltb_spec b 8) as [H8|H8]; [|reflexivity]. simpl.
  now apply to_twos_complement_low.
Qed.

(** The weighted sum of the low [n] bits of [u], the top one negative when
    [sgn]. *)
Lemma planes_value (sgn : bool) (n u : Z) :
  1 <= n ->
  spec.Zsum
    (fun b => if Z.testbit u b
              then (if (b =? n - 1) && sgn then - 2 ^ b else 2 ^ b)
              else 0)
    (Zrange n)
  = meaning.low_bits sgn n u.
Proof.
  intros Hn. unfold meaning.low_bits. destruct sgn.
  - replace (Zrange n) with (Zrange ((n - 1) + 1)) by (f_equal; lia).
    rewrite Zrange_succ, Zsum_app by lia. simpl.
    rewrite (Zsum_ext _ (fun b => if Z.testbit u b then 2 ^ b else 0)).
    2:{ intros b Hb. apply Zrange_In in Hb.
        destruct (Z.eqb_spec b (n - 1)); [lia|]. reflexivity. }
    rewrite bits_sum by lia. rewrite Z.eqb_refl. simpl.
    pose proof (mod_pow2_succ u (n - 1) ltac:(lia)) as Hsplit.
    replace (n - 1 + 1) with n in Hsplit by lia.
    assert (Hh : 0 < 2 ^ (n - 1)) by (apply Z.pow_pos_nonneg; lia).
    assert (Hdbl : 2 ^ n = 2 * 2 ^ (n - 1)).
    { replace n with ((n - 1) + 1) at 1 by lia.
      rewrite Z.pow_add_r by lia. lia. }
    pose proof (Z.mod_pos_bound u (2 ^ (n - 1)) Hh) as Hr.
    pose proof (Z.div_mod u (2 ^ n) ltac:(lia)) as Hdm.
    destruct (Z.testbit u (n - 1)); simpl in Hsplit.
    + rewrite <- (Z.mod_unique (u + 2 ^ (n - 1)) (2 ^ n) (u / 2 ^ n + 1)
                    (u mod 2 ^ (n - 1))); [lia | left; lia | lia].
    + rewrite <- (Z.mod_unique (u + 2 ^ (n - 1)) (2 ^ n) (u / 2 ^ n)
                    (u mod 2 ^ (n - 1) + 2 ^ (n - 1))); [lia | left; lia | lia].
  - rewrite (Zsum_ext _ (fun b => if Z.testbit u b then 2 ^ b else 0)).
    2:{ intros b _. now rewrite andb_false_r. }
    apply bits_sum. lia.
Qed.




(** X5: in a non-bipolar matrix of 1 to 8 bits, bit-plane [b] of an
    imported logical element holds bit [b] of the two's complement of the
    element, whatever the element, in the range of the matrix or not. *)
Theorem importRegular_planes_hold_element_bits (m : BitSerialMatrix)
    (matrix : list Z) (readColMajor : bool) (b r c : Z) :
  spec.wf m -> isBipolar m = false -> 1 <= nbits m <= 8 ->
  0 <= b < nbits m -> 0 <= r < nrows m -> 0 <= c < ncols m ->
  get (importRegular m matrix readColMajor) b r c
  = Z.testbit (read_elem m matrix readColMajor r c) b.
Proof.
  intros Hwf Hbip Hn Hb Hr Hc.
  rewrite imported_plane by (assumption || lia).
  replace (b <? 8) with true by (symmetry; apply Z.ltb_lt; lia).
  reflexivity.
Qed.

Lemma importRegular_planes_hold_element_bits_witness :
  get (importRegular (spec.zero_bsm true 3 1 2 1 64) [-6; 13] false) 1 0 0
  = Z.testbit (read_elem (spec.zero_bsm true 3 1 2 1 64) [-6; 13] false 0 0) 1.
Proof.
  apply (importRegular_planes_hold_element_bits (spec.zero_bsm true 3 1 2 1 64)
           [-6; 13] false 1 0 0); solve_wf.
Defined.





(** ** Quantisation levels *)

Lemma count_prefix (P : Z -> bool) (n : Z) :
  0 <= n ->
  forall q, 0 <= q <= n -> (forall t, 0 <= t < n -> P t = (t <? q)) ->
  Z.of_nat (length (filter P (Zrange n))) = q.
Proof.
  intros Hn. pattern n. apply natlike_ind; [| |assumption]; clear n Hn.
  - intros q Hq _. simpl. lia.
  - intros n Hn IH q Hq HP. rewrite <- Z.add_1_r, Zrange_succ by assumption.
    rewrite filter_app, length_app, Nat2Z.inj_add. simpl.
    pose proof (HP n ltac:(lia)) as Hlast.
    destruct (Z.ltb_spec n q) as [Hlt|Hge].
    + rewrite Hlast. simpl.
      rewrite (IH n); [lia | lia |].
      intros t Ht. rewrite HP by lia.
      destruct (Z.ltb_spec t q), (Z.ltb_spec t n); try reflexivity; lia.
    + rewrite Hlast. simpl.
      rewrite (IH q); [lia | lia |].
      intros t Ht. apply HP. lia.
Qed.

(** X8: with at least one threshold, the level that
    [importRegularAndQuantize] gives to an element does not decrease with the
    element (for two cells of the same row, whatever the order of the
    thresholds); when the thresholds of the row do not decrease with their
    index, the level is the number of thresholds strictly below the
    element. *)
Theorem quantize_level_is_monotone_and_counts (m : BitSerialMatrix)
    (matrix thresholds : list Z) (nThres : Z) (readColMajor : bool) (r c c' : Z) :
  1 <= nThres ->
  (read_elem m matrix readColMajor r c <= read_elem m matrix readColMajor r c' ->
   spec.quantized m matrix thresholds nThres readColMajor r c
   <= spec.quantized m matrix thresholds nThres readColMajor r c')
  /\ (meaning.ascending m thresholds nThres r ->
      spec.quantized m matrix thresholds nThres readColMajor r c
      = meaning.below m thresholds nThres r (read_elem m matrix readColMajor r c)).
Proof.
  intros Hn.
  destruct (quantized_level m matrix thresholds nThres readColMajor r c Hn)
    as (Hq & Hlow & Hhit).
  destruct (quantized_level m matrix thresholds nThres readColMajor r c' Hn)
    as (Hq' & Hlow' & Hhit').
  cbv zeta in *.
  set (q := spec.quantized m matrix thresholds nThres readColMajor r c) in *.
  set (q' := spec.quantized m matrix thresholds nThres readColMajor r c') in *.
  split.
  - intros Hle. destruct (Z_le_gt_dec q q') as [H|H]; [assumption|].
    specialize (Hlow q' ltac:(lia)). specialize (Hhit' ltac:(lia)). lia.
  - intros Hasc. unfold meaning.below. symmetry.
    apply count_prefix; [lia | lia |].
    intros t Ht. destruct (Z.ltb_spec t q) as [Hlt|Hge].
    + apply Z.ltb_lt. apply Hlow. lia.
    + apply Z.ltb_ge.
      specialize (Hhit ltac:(lia)).
      specialize (Hasc q t ltac:(lia) ltac:(lia)). lia.
Qed.

Lemma quantize_level_is_monotone_and_counts_witness :
  let m := spec.zero_bsm false 2 1 2 1 64 in
  (read_elem m [5; 12] false 0 0 <= read_elem m [5; 12] false 0 1 ->
   spec.quantized m [5; 12] [3; 8; 20] 3 false 0 0
   <= spec.quantized m [5; 12] [3; 8; 20] 3 false 0 1)
  /\ (meaning.ascending m [3; 8; 20] 3 0 ->
      spec.quantized m [5; 12] [3; 8; 20] 3 false 0 0
      = meaning.below m [3; 8; 20] 3 0 (read_elem m [5; 12] false 0 0)).
Proof.
  apply (quantize_level_is_monotone_and_counts (spec.zero_bsm false 2 1 2 1 64)
           [5; 12] [3; 8; 20] 3 false 0 0 1). lia.
Defined.

(** ** Importing without thresholds *)

Lemma fold_left_agree {A B : Type} (P : A -> Prop) (f g : A -> B -> A)
    (l : list B) (a : A) :
  P a ->
  (forall a x, In x l -> P a -> f a x = g a x /\ P (g a x)) ->
  fold_left f l a = fold_left g l a /\ P (fold_left g l a).
Proof.
  revert a. induction l as [|x l IH]; intros a Ha H; simpl; [now split|].
  destruct (H a x (or_introl eq_refl) Ha) as [-> Hp].
  apply IH; [assumption|]. intros a' y Hy. apply H. now right.
Qed.

Lemma issigned_store_bits (m : BitSerialMatrix) (u r c : Z) :
  issigned (store_bits m u r c) = issigned m.
Proof.
  unfold store_bits. generalize (Zrange (nbits m)). intros l. revert m.
  induction l as [|b l IH]; intros m; simpl; [reflexivity|].
  rewrite IH. destruct (negb _); reflexivity.
Qed.

(** X9: with no threshold ([nThres <= 0]), [importRegularAndQuantize] on
    an unsigned matrix stores what [importRegular] stores. *)
Theorem importRegularAndQuantize_without_thresholds (m : BitSerialMatrix)
    (matrix thresholds : list Z) (nThres : Z) (readColMajor : bool) :
  issigned m = false -> nThres <= 0 ->
  importRegularAndQuantize m matrix thresholds nThres readColMajor
  = Some (importRegular m matrix readColMajor).
Proof.
  intros Hs Hn. unfold importRegularAndQuantize, importRegular. rewrite Hs. f_equal.
  assert (Hcell : forall m' r c, issigned m' = false ->
            quantize_cell matrix thresholds nThres readColMajor m' r c
            = import_cell matrix readColMajor m' r c
            /\ issigned (import_cell matrix readColMajor m' r c) = false).
  { intros m' r c Hs'. unfold quantize_cell, import_cell, isBipolar, to_twos_complement.
    rewrite Hs', Zrange_nonpos by assumption. rewrite andb_false_r. simpl.
    split; [reflexivity|]. now rewrite issigned_store_bits. }
  apply (fold_left_agree (fun m' => issigned m' = false)).
  - exact Hs.
  - intros m' r _ Hs'.
    apply (fold_left_agree (fun m' => issigned m' = false)); [assumption|].
    intros m'' c _ Hs''. now apply Hcell.
Qed.

Lemma importRegularAndQuantize_without_thresholds_witness :
  importRegularAndQuantize (spec.zero_bsm false 2 1 2 1 64) [1; 2] [] 0 false
  = Some (importRegular (spec.zero_bsm false 2 1 2 1 64) [1; 2] false).
Proof.
  apply (importRegularAndQuantize_without_thresholds
           (spec.zero_bsm false 2 1 2 1 64) [1; 2] [] 0 false); [reflexivity | lia].
Defined.

(** ** The block-size solver *)

(** X10: the solver rounds in binary32, and its blocks show it.  With one
    row per register tile and a padded depth of 8192 bits it returns
    [(2, 2)] for a cache of 32783 bits, one bit short of what two rows a
    side take at 4 per result cell, and [(1, 1)] for a cache of 16387 bits,
    one bit short of a single tile, where its assertion does not stop it.
    A register block of [2^24 + 1] rows reaches it as [2^24], and the block
    it returns is not a multiple of the register block. *)
Theorem computeBlockSize_rounds_in_binary32 :
  computeBlockSize 1 1 32783 8192 = Some (2, 2)
  /\ 32783 < sizeof_int32_t * 2 * 2 + 8192 * (2 + 2)
  /\ computeBlockSize 1 1 16387 8192 = Some (1, 1)
  /\ 16387 < sizeof_int32_t * 1 * 1 + 8192 * (1 + 1)
  /\ float_of_Z (2 ^ 24 + 1) = float_of_Z (2 ^ 24)
  /\ computeBlockSize (2 ^ 24 + 1) 1 (10 ^ 12) 64 = Some (2 ^ 24 * 114, 114)
  /\ (2 ^ 24 * 114) mod (2 ^ 24 + 1) <> 0.
Proof.
  repeat split; try (vm_compute; reflexivity); vm_compute; discriminate.
Qed.

(** ** alloc *)

(** X11: [alloc] with positive alignments, a column alignment that is a
    multiple of 64, sizes that fit in 64 bits and a buffer of less than
    2^63 bytes returns a laid-out matrix with the requested precision,
    signedness and logical extents, padded extents that are the next
    multiples of the alignments, and a buffer of
    [nbits * nrows_a * (ncols_a / 64)] words. *)
Theorem alloc_lays_out_matrix (fresh : nat -> Z) (nb nr nc : Z) (sgn : bool)
    (ra ca : Z) :
  0 <= nb -> 0 <= nr -> 0 <= nc -> 0 < ra -> 0 < ca -> (64 | ca) ->
  nr + ra <= 2 ^ 64 -> nc + ca <= 2 ^ 64 ->
  (nb + 1) * (alignTo nr ra * (alignTo nc ca / 64)) * 8 < 2 ^ 64 ->
  nb * (alignTo nr ra * (alignTo nc ca / 64)) * 8 < 2 ^ 63 ->
  exists m,
    alloc fresh nb nr nc sgn ra ca = Some m
    /\ spec.wf m
    /\ nbits m = nb /\ nrows m = nr /\ ncols m = nc /\ issigned m = sgn
    /\ nr <= nrows_a m < nr + ra /\ (ra | nrows_a m)
    /\ nc <= ncols_a m < nc + ca /\ (ca | ncols_a m)
    /\ Z.of_nat (length (data m)) = nb * nrows_a m * (ncols_a m / 64).
Proof.
  intros Hnb Hnr Hnc Hra Hca H64 Hr64 Hc64 Hfit Hnew.
  destruct (alignTo_spec nr ra Hnr Hra Hr64) as [Hra1 Hra2].
  destruct (alignTo_spec nc ca Hnc Hca Hc64) as [Hca1 Hca2].
  assert (Hq : 0 <= alignTo nc ca / 64) by (apply Z.div_pos; lia).
  assert (Hsz : 0 <= alignTo nr ra * (alignTo nc ca / 64))
    by (apply Z.mul_nonneg_nonneg; lia).
  assert (Hmul : 0 <= nb * (alignTo nr ra * (alignTo nc ca / 64)))
    by (apply Z.mul_nonneg_nonneg; lia).
  destruct (alloc_returns fresh nb nr nc sgn ra ca) as [m E]; [lia | lia | |].
  { rewrite (wrap64_small (alignTo nr ra * _)) by lia.
    rewrite wrap64_small by lia. unfold max_array_bytes. lia. }
  destruct (alloc_fields fresh nb nr nc sgn ra ca m E)
    as (_ & _ & Fnb & Fnr & Fnc & Fs & Fra & Fca & Fd & _).
  exists m. split; [assumption|].
  assert (Hwf : spec.wf m).
  { apply (alloc_wf fresh nb nr nc sgn ra ca m E); try assumption.
    now rewrite Fra, Fca. }
  split; [assumption|].
  repeat (split; [assumption|]).
  rewrite Fra, Fca.
  repeat (split; [assumption|]).
  rewrite <- Fra, <- Fca.
  destruct Hwf as (? & ? & ? & ? & ? & ? & Hlen).
  rewrite Hlen, Fnb.
  assert (0 <= ncols_a m / 64) by (apply Z.div_pos; lia).
  rewrite Z2Nat.id; [lia|].
  apply Z.mul_nonneg_nonneg; [lia|]. apply Z.mul_nonneg_nonneg; lia.
Qed.

Lemma alloc_lays_out_matrix_witness :
  exists m,
    alloc (fun _ => 1) 3 5 70 false 8 128 = Some m
    /\ spec.wf m
    /\ nbits m = 3 /\ nrows m = 5 /\ ncols m = 70 /\ issigned m = false
    /\ 5 <= nrows_a m < 5 + 8 /\ (8 | nrows_a m)
    /\ 70 <= ncols_a m < 70 + 128 /\ (128 | ncols_a m)
    /\ Z.of_nat (length (data m)) = 3 * nrows_a m * (ncols_a m / 64).
Proof.
  apply (alloc_lays_out_matrix (fun _ => 1) 3 5 70 false 8 128); try lia.
  - exists 2. reflexivity.
  - vm_compute. reflexivity.
  - vm_compute. reflexivity.
Defined.

(** ** Context allocation *)

(** X12: for positive arguments (row counts and register blocks below
    2^62), in every context that [allocGEMMContext_base] returns each row
    block is a multiple of its register block or the candidate of the
    solver unchanged; when the register-tile fallback is taken, and whenever
    the candidates of the solver are multiples of the register blocks, the
    row blocks and the padded row counts of the two operands are multiples
    of the register blocks. *)
Theorem allocGEMMContext_base_register_tiles (fresh : nat -> Z)
    (lhsRows depth rhsRows lhsBits rhsBits : Z) (lhsSigned rhsSigned : bool)
    (regblock_lhs regblock_d regblock_rhs cacheBits : Z) (ctx : GEMMContext) :
  0 < lhsRows < 2 ^ 62 -> 0 < rhsRows < 2 ^ 62 -> 0 < depth ->
  0 < regblock_lhs < 2 ^ 62 -> 0 < regblock_d -> 0 < regblock_rhs < 2 ^ 62 ->
  0 < cacheBits ->
  allocGEMMContext_base fresh lhsRows depth rhsRows lhsBits rhsBits
    lhsSigned rhsSigned regblock_lhs regblock_d regblock_rhs cacheBits = Some ctx ->
  forall l0 r0,
    computeBlockSize regblock_lhs regblock_rhs cacheBits
      (alignTo depth (wrap64 (regblock_d * 64))) = Some (l0, r0) ->
    (lhsBlock ctx = l0 \/ (regblock_lhs | lhsBlock ctx))
    /\ (rhsBlock ctx = r0 \/ (regblock_rhs | rhsBlock ctx))
    /\ (l0 > lhsRows \/ r0 > rhsRows
        \/ ((regblock_lhs | l0) /\ (regblock_rhs | r0)) ->
        (regblock_lhs | lhsBlock ctx) /\ (regblock_rhs | rhsBlock ctx)
        /\ (regblock_lhs | nrows_a (lhs ctx)) /\ (regblock_rhs | nrows_a (rhs ctx))).
Proof.
  intros HlR HrR Hd Hrl Hrd Hrr Hcb E l0 r0 Hsolve.
  destruct (allocGEMMContext_base_blocks fresh lhsRows depth rhsRows lhsBits rhsBits
              lhsSigned rhsSigned regblock_lhs regblock_d regblock_rhs cacheBits ctx
              HlR HrR Hd Hrl Hrd Hrr Hcb E)
    as (Hfb & (_ & _ & HdL & HdR) & _ & Hcand).
  destruct (Hcand l0 r0 Hsolve) as [HcL HcR].
  split; [assumption|]. split; [assumption|].
  intros Hcase.
  assert (Hb : (regblock_lhs | lhsBlock ctx) /\ (regblock_rhs | rhsBlock ctx)).
  { assert (Hfall : l0 > lhsRows \/ r0 > rhsRows ->
                    (regblock_lhs | lhsBlock ctx) /\ (regblock_rhs | rhsBlock ctx)).
    { intros H. destruct (Hfb l0 r0 Hsolve H) as [-> ->].
      split; apply alignTo_spec; lia. }
    destruct Hcase as [H | [H | [HmL HmR]]];
      [apply Hfall; now left | apply Hfall; now right |].
    split.
    - destruct HcL as [-> | H]; assumption.
    - destruct HcR as [-> | H]; assumption. }
  destruct Hb as [HbL HbR].
  repeat split; try assumption; eapply Z.divide_trans; eassumption.
Qed.

Lemma allocGEMMContext_base_register_tiles_witness :
  exists ctx,
    allocGEMMContext_base (fun _ => 0) 20 64 20 2 2 false false 2 1 2 2000 = Some ctx
    /\ computeBlockSize 2 2 2000 (alignTo 64 (wrap64 (1 * 64))) = Some (10, 10)
    /\ (lhsBlock ctx = 10 \/ (2 | lhsBlock ctx))
    /\ (rhsBlock ctx = 10 \/ (2 | rhsBlock ctx))
    /\ (2 | lhsBlock ctx) /\ (2 | rhsBlock ctx)
    /\ (2 | nrows_a (lhs ctx)) /\ (2 | nrows_a (rhs ctx)).
Proof.
  eexists. split; [vm_compute; reflexivity|].
  split; [vm_compute; reflexivity|].
  edestruct (allocGEMMContext_base_register_tiles (fun _ => 0)
               20 64 20 2 2 false false 2 1 2 2000) as (HL & HR & Hdiv);
    [lia | lia | lia | lia | lia | lia | lia | vm_compute; reflexivity
     | vm_compute; reflexivity |].
  split; [exact HL|]. split; [exact HR|].
  apply Hdiv. right. right. split; exists 5; reflexivity.
Defined.

(** * Further properties of the bitmap prototype *)

(** ** Bitmaps *)

Lemma contains_add (v : prototype.BitVector) (i j : Z) :
  prototype.contains (conversions.add v i) j
  = (j =? i) || prototype.contains v j.
Proof.
  unfold conversions.add. destruct (prototype.contains v i) eqn:E.
  - destruct (Z.eqb_spec j i) as [->|]; [now rewrite E | reflexivity].
  - unfold prototype.contains. rewrite existsb_app. simpl.
    rewrite orb_false_r. apply orb_comm.
Qed.

Lemma contains_fill_group (vec : list Z) (n mask : Z) (g : prototype.BitVector)
    (j : Z) :
  prototype.contains (conversions.fill_group vec n mask g) j
  = ((0 <=? j) && (j <? n) && negb (Z.land (nth (Z.to_nat j) vec 0) mask =? 0))
    || prototype.contains g j.
Proof.
  unfold conversions.fill_group.
  pose proof (existsb_Zrange_unique n j
                (fun i => negb (Z.land (nth (Z.to_nat i) vec 0) mask =? 0))) as H.
  cbv beta in H. rewrite <- H. clear H.
  generalize (Zrange n). intros l. revert g.
  induction l as [|i l IH]; intros g; simpl; [reflexivity|].
  rewrite IH.
  destruct (negb (Z.land (nth (Z.to_nat i) vec 0) mask =? 0)).
  - rewrite contains_add. rewrite andb_true_r.
    destruct (j =? i), (existsb _ l); reflexivity.
  - rewrite andb_false_r. simpl. reflexivity.
Qed.

Lemma byte_mask (b : Z) : 0 <= b < 8 -> to_uint8 (shl_int b) = 2 ^ b.
Proof.
  intros Hb. rewrite shl_int_pow2 by lia. unfold to_uint8.
  apply Z.mod_small. split; [apply Z.pow_nonneg; lia|].
  apply Z.pow_lt_mono_r; lia.
Qed.

(** The bitmap of bit [b] holds the positions whose byte has that bit. *)
Lemma plane_contains (vec : list Z) (n b j : Z) :
  0 <= b < 8 ->
  prototype.contains (conversions.fill_group vec n (to_uint8 (shl_int b)) []) j
  = (0 <=? j) && (j <? n) && Z.testbit (nth (Z.to_nat j) vec 0) b.
Proof.
  intros Hb. rewrite contains_fill_group, byte_mask by assumption.
  rewrite land_pow2_testbit by lia. simpl. apply orb_false_r.
Qed.

Lemma fold_push {A B S : Type} (F : B -> A) (G : S -> B -> S) (l : list B)
    (acc : list A) (s : S) :
  fst (fold_left (fun st b => (fst st ++ [F b], G (snd st) b)) l (acc, s))
  = acc ++ map F l.
Proof.
  revert acc s. induction l as [|b l IH]; intros acc s; simpl.
  - now rewrite app_nil_r.
  - rewrite IH. simpl. now rewrite <- app_assoc.
Qed.

Lemma toBitSerialVector_planes (vec : list Z) (n bits : Z) :
  conversions.toBitSerialVector vec n bits
  = map (fun b => conversions.fill_group vec n (to_uint8 (shl_int b)) [])
      (Zrange bits).
Proof.
  unfold conversions.toBitSerialVector.
  apply (fold_push
           (fun b => conversions.fill_group vec n (to_uint8 (shl_int b)) [])
           (fun _ b => conversions.fill_group vec n (to_uint8 (shl_int b)) [])).
Qed.

Lemma size_map_Zrange {A : Type} (F : Z -> A) (n : Z) :
  0 <= n -> prototype.size (map F (Zrange n)) = n.
Proof.
  intros Hn. unfold prototype.size. rewrite length_map, Zrange_length. lia.
Qed.

Lemma nth_map_Zrange {A : Type} (F : Z -> A) (n k : Z) (d : A) :
  0 <= k < n -> nth (Z.to_nat k) (map F (Zrange n)) d = F k.
Proof.
  intros Hk.
  rewrite (nth_indep _ d (F 0)) by (rewrite length_map, Zrange_length; lia).
  rewrite (map_nth F (Zrange n) 0). f_equal.
  now apply ThresholdFacts.Zrange_nth.
Qed.

Lemma map_Zrange_nonempty {A : Type} (F : Z -> A) (n : Z) :
  0 < n -> map F (Zrange n) <> [].
Proof.
  intros Hn E. apply (f_equal (@length A)) in E.
  rewrite length_map, Zrange_length in E. simpl in E. lia.
Qed.

(** ** Decoding a bit-serial vector *)

Lemma rebuild_bits (v k : Z) :
  0 <= k <= 8 ->
  fold_left
    (fun current b =>
       if Z.testbit v b then to_uint8 (Z.lor current (shl_int b)) else current)
    (Zrange k) 0
  = v mod 2 ^ k.
Proof.
  intros [Hk H8]. revert H8. pattern k. apply natlike_ind; [| |assumption]; clear k Hk.
  - intros _. simpl. now rewrite Z.mod_1_r.
  - intros k Hk IH H8. rewrite <- Z.add_1_r in *.
    rewrite Zrange_succ, fold_left_app by assumption. simpl.
    rewrite IH by lia.
    destruct (Z.testbit v k) eqn:E.
    2:{ rewrite mod_pow2_succ, E by assumption. simpl. lia. }
    rewrite shl_int_pow2 by lia. unfold to_uint8.
    apply Z.bits_inj'. intros j Hj.
    rewrite !testbit_mod_pow2 by lia.
    rewrite Z.lor_spec, testbit_mod_pow2 by lia.
    rewrite Z.pow2_bits_eqb by lia.
    destruct (Z.ltb_spec j 8), (Z.ltb_spec j k), (Z.ltb_spec j (k + 1)),
      (Z.eqb_spec k j); subst; simpl; try lia; try reflexivity.
    + now rewrite orb_false_r.
    + now rewrite E.
Qed.

Lemma decode_elem_planes (vec : list Z) (n bits i : Z) :
  0 <= bits <= 8 -> 0 <= i < n ->
  conversions.decode_elem (conversions.toBitSerialVector vec n bits) i
  = nth (Z.to_nat i) vec 0 mod 2 ^ bits.
Proof.
  intros Hb Hi. unfold conversions.decode_elem.
  rewrite toBitSerialVector_planes, size_map_Zrange by lia.
  rewrite <- (rebuild_bits _ bits) by assumption.
  apply fold_left_ext_in. intros cur b Hin. apply Zrange_In in Hin.
  rewrite nth_map_Zrange by assumption.
  rewrite plane_contains by lia.
  replace (0 <=? i) with true by (symmetry; apply Z.leb_le; lia).
  replace (i <? n) with true by (symmetry; apply Z.ltb_lt; lia).
  reflexivity.
Qed.

Lemma stores_other {X : Type} (idx : X -> nat) (val : X -> Z) (l : list X)
    (dst : list Z) (p : nat) :
  (forall x, In x l -> idx x <> p) ->
  nth p (fold_left (fun d x => list_update (idx x) (fun _ => val x) d) l dst) 0
  = nth p dst 0.
Proof.
  revert dst. induction l as [|x l IH]; intros dst H; simpl; [reflexivity|].
  rewrite IH by (intros y Hy; apply H; now right).
  rewrite nth_list_update.
  destruct (Nat.eqb_spec p (idx x)) as [E|E]; [|reflexivity].
  exfalso. apply (H x (or_introl eq_refl)). now symmetry.
Qed.

Lemma stores_length {X : Type} (idx : X -> nat) (val : X -> Z) (l : list X)
    (dst : list Z) :
  length (fold_left (fun d x => list_update (idx x) (fun _ => val x) d) l dst)
  = length dst.
Proof.
  revert dst. induction l as [|x l IH]; intros dst; simpl; [reflexivity|].
  now rewrite IH, length_list_update.
Qed.

Lemma fromBitSerialVector_spec (vec : prototype.BitSerialVector) (n : Z)
    (ret : list Z) :
  length (conversions.fromBitSerialVector vec n ret) = length ret
  /\ forall p,
       nth p (conversions.fromBitSerialVector vec n ret) 0
       = if (Z.of_nat p <? n) && (p <? length ret)%nat
         then conversions.decode_elem vec (Z.of_nat p)
         else nth p ret 0.
Proof.
  unfold conversions.fromBitSerialVector, list_store. split.
  - apply (stores_length Z.to_nat (conversions.decode_elem vec)).
  - intros p.
    destruct (Z.ltb_spec (Z.of_nat p) n) as [Hp|Hp];
      [destruct (Nat.ltb_spec p (length ret)) as [Hl|Hl]|]; simpl.
    + apply (stores_nth Z.to_nat (conversions.decode_elem vec) _ ret p (Z.of_nat p)).
      * apply Zrange_In. lia.
      * lia.
      * assumption.
      * intros x Hx E. apply Zrange_In in Hx. f_equal. lia.
    + rewrite nth_overflow; [now rewrite nth_overflow by lia|].
      rewrite (stores_length Z.to_nat (conversions.decode_elem vec)). lia.
    + apply (stores_other Z.to_nat (conversions.decode_elem vec)).
      intros x Hx. apply Zrange_In in Hx. lia.
Qed.

(** X14: for [bits <= 8], [fromBitSerialVector] after [toBitSerialVector]
    gives each of the [n] bytes reduced to its low [bits] bits; a buffer whose
    bytes are below [2^bits] comes back unchanged. *)
Theorem fromBitSerialVector_inverts_toBitSerialVector (vec ret : list Z)
    (n bits : Z) :
  0 <= bits <= 8 -> 0 <= n ->
  length ret = Z.to_nat n ->
  (forall i, 0 <= i < n ->
     nth (Z.to_nat i)
       (conversions.fromBitSerialVector (conversions.toBitSerialVector vec n bits) n ret) 0
     = nth (Z.to_nat i) vec 0 mod 2 ^ bits)
  /\ (length vec = Z.to_nat n ->
      (forall i, 0 <= i < n -> 0 <= nth (Z.to_nat i) vec 0 < 2 ^ bits) ->
      conversions.fromBitSerialVector (conversions.toBitSerialVector vec n bits) n ret
      = vec).
Proof.
  intros Hb Hn Hlen.
  destruct (fromBitSerialVector_spec (conversions.toBitSerialVector vec n bits) n ret)
    as [Hl Hnth].
  assert (Hcells : forall i, 0 <= i < n ->
            nth (Z.to_nat i)
              (conversions.fromBitSerialVector
                 (conversions.toBitSerialVector vec n bits) n ret) 0
            = nth (Z.to_nat i) vec 0 mod 2 ^ bits).
  { intros i Hi. rewrite Hnth.
    replace (Z.of_nat (Z.to_nat i) <? n) with true by (symmetry; apply Z.ltb_lt; lia).
    replace (Nat.ltb (Z.to_nat i) (length ret)) with true
      by (symmetry; apply Nat.ltb_lt; lia).
    simpl. rewrite Z2Nat.id by lia. now apply decode_elem_planes. }
  split; [exact Hcells|].
  intros Hvec Hrange. apply (nth_ext _ _ 0 0); [lia|].
  intros p Hp. rewrite Hl, Hlen in Hp.
  rewrite <- (Nat2Z.id p). rewrite Hcells by lia.
  apply Z.mod_small. apply Hrange. lia.
Qed.

Lemma fromBitSerialVector_inverts_toBitSerialVector_witness :
  (forall i, 0 <= i < 3 ->
     nth (Z.to_nat i)
       (conversions.fromBitSerialVector
          (conversions.toBitSerialVector [5; 14; 3] 3 2) 3 [0; 0; 0]) 0
     = nth (Z.to_nat i) [5; 14; 3] 0 mod 2 ^ 2)
  /\ (length [5; 14; 3] = Z.to_nat 3 ->
      (forall i, 0 <= i < 3 -> 0 <= nth (Z.to_nat i) [5; 14; 3] 0 < 2 ^ 2) ->
      conversions.fromBitSerialVector
        (conversions.toBitSerialVector [5; 14; 3] 3 2) 3 [0; 0; 0]
      = [5; 14; 3]).
Proof.
  apply (fromBitSerialVector_inverts_toBitSerialVector [5; 14; 3] [0; 0; 0] 3 2);
    [lia | lia | reflexivity].
Defined.

(** ** Bit-serial matrices *)

Lemma toBitSerialMatrix_rows (mat : list Z) (rows cols bits : Z) :
  conversions.toBitSerialMatrix mat rows cols bits
  = map (fun r =>
           conversions.toBitSerialVector
             (skipn (Z.to_nat (wrap64 (r * cols))) mat) cols bits)
      (Zrange rows).
Proof.
  unfold conversions.toBitSerialMatrix.
  now rewrite ThresholdFacts.fold_append_map.
Qed.

Lemma row_offset (rows cols r : Z) :
  0 <= r < rows -> 0 <= cols -> rows * cols < 2 ^ 64 ->
  wrap64 (r * cols) = r * cols /\ 0 <= r * cols /\ (r + 1) * cols <= rows * cols.
Proof.
  intros Hr Hc Hsz.
  assert (H1 : 0 <= r * cols) by (apply Z.mul_nonneg_nonneg; lia).
  assert (H2 : (r + 1) * cols <= rows * cols) by (apply Z.mul_le_mono_nonneg_r; lia).
  split; [apply wrap64_small; lia | split; assumption].
Qed.

(** The rows that [fromBitSerialMatrix] has written after [k] rounds. *)
Lemma fromBitSerialMatrix_rounds (M : prototype.BitSerialMatrix) (rows cols : Z)
    (ret : list Z) (k : Z) :
  0 <= k <= rows -> 0 < cols -> rows * cols < 2 ^ 64 ->
  rows * cols <= Z.of_nat (length ret) ->
  let out :=
    fold_left
      (fun ret r =>
         let off := Z.to_nat (wrap64 (r * cols)) in
         firstn off ret
         ++ conversions.fromBitSerialVector (nth (Z.to_nat r) M []) cols
              (skipn off ret))
      (Zrange k) ret in
  length out = length ret
  /\ (forall r c, 0 <= r < k -> 0 <= c < cols ->
        nth (Z.to_nat (r * cols + c)) out 0
        = conversions.decode_elem (nth (Z.to_nat r) M []) c)
  /\ (forall p, k * cols <= Z.of_nat p -> nth p out 0 = nth p ret 0).
Proof.
  intros [Hk Hkr] Hc Hsz Hlen. revert Hkr.
  pattern k. apply natlike_ind; [| |assumption]; clear k Hk.
  - intros _. simpl. split; [reflexivity|]. split; [intros; lia | reflexivity].
  - intros k Hk IH Hkr. rewrite <- Z.add_1_r in *.
    specialize (IH ltac:(lia)). cbv zeta in IH. destruct IH as (Il & Ic & Ib).
    cbv zeta. rewrite Zrange_succ, fold_left_app by assumption. simpl.
    set (out := fold_left _ (Zrange k) ret) in *.
    destruct (row_offset rows cols k ltac:(lia) ltac:(lia) Hsz) as (-> & Hoff & Hnext).
    set (off := Z.to_nat (k * cols)).
    assert (Hofflen : (off + Z.to_nat cols <= length out)%nat) by lia.
    destruct (fromBitSerialVector_spec (nth (Z.to_nat k) M []) cols (skipn off out))
      as [Vl Vn].
    assert (Hfl : length (firstn off out) = off) by (rewrite length_firstn; lia).
    split; [|split].
    + rewrite length_app, Hfl, Vl, length_skipn. lia.
    + intros r c Hr Hcc.
      destruct (Z_lt_le_dec r k) as [Hlt|Hge].
      * assert ((r + 1) * cols <= k * cols) by (apply Z.mul_le_mono_nonneg_r; lia).
        rewrite app_nth1 by lia.
        rewrite nth_firstn.
        replace (Nat.ltb (Z.to_nat (r * cols + c)) off) with true
          by (symmetry; apply Nat.ltb_lt; lia).
        apply Ic; lia.
      * assert (r = k) by lia. subst r.
        rewrite app_nth2 by lia. rewrite Hfl, Vn.
        replace (Z.to_nat (k * cols + c) - off)%nat with (Z.to_nat c) by lia.
        rewrite Z2Nat.id by lia.
        replace (c <? cols) with true by (symmetry; apply Z.ltb_lt; lia).
        replace (Nat.ltb (Z.to_nat c) (length (skipn off out))) with true
          by (symmetry; apply Nat.ltb_lt; rewrite length_skipn; lia).
        reflexivity.
    + intros p Hp.
      rewrite app_nth2 by lia. rewrite Hfl, Vn.
      replace (Z.of_nat (p - off) <? cols) with false
        by (symmetry; apply Z.ltb_ge; lia).
      simpl. rewrite nth_skipn.
      replace (off + (p - off))%nat with p by lia.
      apply Ib. lia.
Qed.

(** X15: for [bits <= 8], [fromBitSerialMatrix] after [toBitSerialMatrix]
    gives, at the position [r * cols + c] of every cell, the byte of that
    cell reduced to its low [bits] bits, and keeps the length of the
    buffer. *)
Theorem fromBitSerialMatrix_inverts_toBitSerialMatrix (mat ret : list Z)
    (rows cols bits : Z) :
  0 <= bits <= 8 -> 0 <= rows -> 0 <= cols -> rows * cols < 2 ^ 64 ->
  length ret = Z.to_nat (rows * cols) ->
  (forall r c, 0 <= r < rows -> 0 <= c < cols ->
     nth (Z.to_nat (r * cols + c))
       (conversions.fromBitSerialMatrix
          (conversions.toBitSerialMatrix mat rows cols bits) rows cols bits ret) 0
     = nth (Z.to_nat (r * cols + c)) mat 0 mod 2 ^ bits)
  /\ length (conversions.fromBitSerialMatrix
               (conversions.toBitSerialMatrix mat rows cols bits) rows cols bits ret)
     = length ret.
Proof.
  intros Hb Hrows Hcols Hsz Hlen.
  assert (Hnn : 0 <= rows * cols) by (apply Z.mul_nonneg_nonneg; lia).
  split.
  - intros r c Hr Hc.
    destruct (fromBitSerialMatrix_rounds
                (conversions.toBitSerialMatrix mat rows cols bits) rows cols ret rows)
      as (_ & Hcell & _); try lia.
    unfold conversions.fromBitSerialMatrix. rewrite Hcell by assumption.
    rewrite toBitSerialMatrix_rows, nth_map_Zrange by assumption.
    rewrite decode_elem_planes by assumption.
    destruct (row_offset rows cols r Hr Hcols Hsz) as (-> & Hoff & _).
    rewrite nth_skipn. do 2 f_equal. lia.
  - destruct (Z.eq_dec cols 0) as [->|Hne].
    + unfold conversions.fromBitSerialMatrix.
      generalize (conversions.toBitSerialMatrix mat rows 0 bits). intros M.
      generalize (Zrange rows). intros l. revert ret Hlen.
      induction l as [|r l IH]; intros ret Hlen; simpl; [reflexivity|].
      rewrite Z.mul_0_r in *. change (Z.to_nat (wrap64 0)) with 0%nat. simpl.
      change (conversions.fromBitSerialVector (nth (Z.to_nat r) M []) 0 ret) with ret.
      now apply IH.
    + destruct (fromBitSerialMatrix_rounds
                  (conversions.toBitSerialMatrix mat rows cols bits) rows cols ret rows)
        as (Hl & _ & _); try lia.
      exact Hl.
Qed.

Lemma fromBitSerialMatrix_inverts_toBitSerialMatrix_witness :
  (forall r c, 0 <= r < 2 -> 0 <= c < 2 ->
     nth (Z.to_nat (r * 2 + c))
       (conversions.fromBitSerialMatrix
          (conversions.toBitSerialMatrix [1; 2; 3; 7] 2 2 2) 2 2 2 [0; 0; 0; 0]) 0
     = nth (Z.to_nat (r * 2 + c)) [1; 2; 3; 7] 0 mod 2 ^ 2)
  /\ length (conversions.fromBitSerialMatrix
               (conversions.toBitSerialMatrix [1; 2; 3; 7] 2 2 2) 2 2 2 [0; 0; 0; 0])
     = length [0; 0; 0; 0].
Proof.
  apply (fromBitSerialMatrix_inverts_toBitSerialMatrix [1; 2; 3; 7] [0; 0; 0; 0] 2 2 2);
    try lia. reflexivity.
Defined.

(** ** The matrix-vector product *)

Lemma count_members (P : Z -> bool) (n : Z) (l : list Z) :
  NoDup l -> (forall i, In i l -> 0 <= i < n) ->
  Z.of_nat (length (filter P l))
  = spec.Zsum (fun i => Z.b2z (existsb (Z.eqb i) l && P i)) (Zrange n).
Proof.
  induction l as [|a l IH]; intros Hnd Hin.
  - simpl. symmetry. apply Zsum_zero. reflexivity.
  - inversion Hnd as [|? ? Hnotin Hnd']; subst.
    rewrite (Zsum_ext _
               (fun i => Z.b2z ((i =? a) && P i)
                         + Z.b2z (existsb (Z.eqb i) l && P i))).
    2:{ intros i _. simpl. destruct (Z.eqb_spec i a) as [->|]; [|reflexivity].
        destruct (existsb (Z.eqb a) l) eqn:E; [|simpl; lia].
        exfalso. apply Hnotin. apply existsb_exists in E.
        destruct E as [y [Hy Hay]]. apply Z.eqb_eq in Hay. now subst. }
    rewrite Zsum_add, <- IH by (assumption || (intros i Hi; apply Hin; now right)).
    rewrite (Zsum_single _ _ a).
    + rewrite Z.eqb_refl. simpl. destruct (P a); simpl length; simpl Z.b2z; lia.
    + apply Zrange_NoDup.
    + apply Zrange_In. apply Hin. now left.
    + intros x _ Hx. destruct (Z.eqb_spec x a); [contradiction | reflexivity].
Qed.

Lemma contains_In (v : prototype.BitVector) (i : Z) :
  prototype.contains v i = true <-> In i v.
Proof.
  unfold prototype.contains. rewrite existsb_exists. split.
  - intros [y [Hy E]]. apply Z.eqb_eq in E. now subst.
  - intros H. exists i. split; [assumption | apply Z.eqb_refl].
Qed.

(** The AND cardinality of two bit-planes is the number of positions where
    both bytes have their bit. *)
Lemma and_cardinality_planes (va vb : list Z) (n bA bB : Z) :
  0 <= bA < 8 -> 0 <= bB < 8 ->
  prototype.and_cardinality
    (conversions.fill_group va n (to_uint8 (shl_int bA)) [])
    (conversions.fill_group vb n (to_uint8 (shl_int bB)) [])
  = spec.Zsum
      (fun k => Z.b2z (Z.testbit (nth (Z.to_nat k) va 0) bA)
                * Z.b2z (Z.testbit (nth (Z.to_nat k) vb 0) bB))
      (Zrange n).
Proof.
  intros HA HB. unfold prototype.and_cardinality.
  set (a := conversions.fill_group va n (to_uint8 (shl_int bA)) []).
  set (b := conversions.fill_group vb n (to_uint8 (shl_int bB)) []).
  rewrite (count_members (prototype.contains b) n).
  - apply Zsum_ext. intros k Hk. apply Zrange_In in Hk.
    assert (E : existsb (Z.eqb k) (nodup Z.eq_dec a) = prototype.contains a k).
    { apply bool_eq_iff. rewrite contains_In, existsb_exists. split.
      - intros [y [Hy Ey]]. apply Z.eqb_eq in Ey. subst y.
        now apply nodup_In in Hy.
      - intros H. exists k. split; [now apply nodup_In | apply Z.eqb_refl]. }
    rewrite E. unfold a, b. rewrite !plane_contains by assumption.
    replace (0 <=? k) with true by (symmetry; apply Z.leb_le; lia).
    replace (k <? n) with true by (symmetry; apply Z.ltb_lt; lia).
    simpl. destruct (Z.testbit _ bA), (Z.testbit _ bB); reflexivity.
  - apply NoDup_nodup.
  - intros i Hi. apply nodup_In, contains_In in Hi.
    unfold a in Hi. rewrite plane_contains in Hi by assumption.
    apply andb_prop in Hi. destruct Hi as [Hi _].
    apply andb_prop in Hi. destruct Hi as [H0 H1].
    apply Z.leb_le in H0. apply Z.ltb_lt in H1. lia.
Qed.

Lemma wrap32_wrapu32 (a y : Z) :
  wrap32 (a + prototype.wrapu32 y) = wrap32 (a + y).
Proof.
  unfold wrap32, prototype.wrapu32. f_equal.
  replace (a + y mod 2 ^ 32 + 2 ^ 31) with (y mod 2 ^ 32 + (a + 2 ^ 31)) by ring.
  rewrite Z.add_mod_idemp_l by (apply Z.pow_nonzero; lia).
  f_equal. ring.
Qed.

Lemma wrap_fold (g : Z -> Z) (l : list Z) (a : Z) :
  spec.int32 a ->
  fold_left (fun acc x => wrap32 (acc + g x)) l a = wrap32 (a + spec.Zsum g l).
Proof.
  revert a. induction l as [|x l IH]; intros a Ha; simpl.
  - rewrite Z.add_0_r. symmetry. now apply wrap32_small.
  - rewrite IH by apply wrap32_range.
    rewrite wrap32_add_l. f_equal. ring.
Qed.

Lemma wrap_fold2 (t : Z -> Z -> Z) (la lb : list Z) :
  fold_left
    (fun acc a => fold_left (fun acc b => wrap32 (acc + t a b)) lb acc) la 0
  = wrap32 (spec.Zsum (fun a => spec.Zsum (t a) lb) la).
Proof.
  destruct (fold_left_agree spec.int32
              (fun acc a => fold_left (fun acc b => wrap32 (acc + t a b)) lb acc)
              (fun acc a => wrap32 (acc + spec.Zsum (t a) lb)) la 0) as [-> _].
  - unfold spec.int32. lia.
  - intros acc a _ Hacc. split; [now apply wrap_fold | apply wrap32_range].
  - rewrite wrap_fold by (unfold spec.int32; lia). reflexivity.
Qed.

Lemma low_bits_abs (sgn : bool) (n v : Z) :
  1 <= n -> Z.abs (meaning.low_bits sgn n v) <= 2 ^ n.
Proof.
  intros Hn. unfold meaning.low_bits.
  assert (Hdbl : 2 ^ n = 2 * 2 ^ (n - 1)).
  { replace n with ((n - 1) + 1) at 1 by lia.
    rewrite Z.pow_add_r by lia. lia. }
  assert (Hp : 0 < 2 ^ n) by (apply Z.pow_pos_nonneg; lia).
  destruct sgn.
  - pose proof (Z.mod_pos_bound (v + 2 ^ (n - 1)) (2 ^ n) Hp). lia.
  - pose proof (Z.mod_pos_bound v (2 ^ n) Hp). lia.
Qed.

(** One row of the product: the accumulated value is the inner product of
    the two vectors that the bit-planes encode. *)
Lemma row_accumulate_planes (row vec : list Z) (cols nA nX : Z)
    (Asigned xsigned : bool) :
  1 <= nA <= 8 -> 1 <= nX <= 8 -> 0 <= cols ->
  cols * 2 ^ (nA + nX) < 2 ^ 31 ->
  prototype.row_accumulate nA (conversions.toBitSerialVector row cols nA)
    (conversions.toBitSerialVector vec cols nX) Asigned xsigned
  = meaning.dot (fun k => meaning.low_bits Asigned nA (nth (Z.to_nat k) row 0))
      (fun k => meaning.low_bits xsigned nX (nth (Z.to_nat k) vec 0)) cols.
Proof.
  intros HA HX Hcols Hfit. unfold prototype.row_accumulate.
  rewrite !toBitSerialVector_planes, size_map_Zrange by lia.
  set (al := fun b k => Z.b2z (Z.testbit (nth (Z.to_nat k) row 0) b)).
  set (xi := fun b k => Z.b2z (Z.testbit (nth (Z.to_nat k) vec 0) b)).
  set (wA := fun b => if Asigned && (b =? nA - 1) then - 2 ^ b else 2 ^ b).
  set (wX := fun b => if xsigned && (b =? nX - 1) then - 2 ^ b else 2 ^ b).
  set (t := fun bA bX =>
              spec.Zsum (fun k => (wA bA * al bA k) * (wX bX * xi bX k)) (Zrange cols)).
  assert (Hpow : 0 < 2 ^ (nA + nX)) by (apply Z.pow_pos_nonneg; lia).
  rewrite (fold_left_ext_in _
             (fun acc a => fold_left (fun acc b => wrap32 (acc + t a b)) (Zrange nX) acc)).
  2:{ intros acc bA HbA. apply Zrange_In in HbA.
      apply fold_left_ext_in. intros acc' bX HbX. apply Zrange_In in HbX.
      rewrite !nth_map_Zrange by assumption.
      set (card := spec.Zsum (fun k => al bA k * xi bX k) (Zrange cols)).
      assert (Hc : prototype.and_cardinality
                     (conversions.fill_group row cols (to_uint8 (shl_int bA)) [])
                     (conversions.fill_group vec cols (to_uint8 (shl_int bX)) [])
                   = card)
        by (apply and_cardinality_planes; lia).
      assert (Hc0 : 0 <= card)
        by (rewrite <- Hc; unfold prototype.and_cardinality; lia).
      rewrite Hc.
      assert (Hc1 : card <= cols).
      { pose proof (Zsum_abs_bound (fun k => al bA k * xi bX k) (Zrange cols) 1) as Hb.
        rewrite Zrange_length in Hb. fold card in Hb.
        assert (Z.abs card <= Z.of_nat (Z.to_nat cols) * 1).
        { apply Hb. intros k _. unfold al, xi.
          destruct (Z.testbit _ bA), (Z.testbit _ bX); simpl; lia. }
        lia. }
      assert (Hs : 0 < 2 ^ (bA + bX) <= 2 ^ (nA + nX)).
      { split; [apply Z.pow_pos_nonneg; lia | apply Z.pow_le_mono_r; lia]. }
      assert (Hprod : 0 <= card * 2 ^ (bA + bX) <= cols * 2 ^ (nA + nX)).
      { split; [apply Z.mul_nonneg_nonneg; lia|].
        apply Z.mul_le_mono_nonneg; lia. }
      assert (Hw1 : prototype.wrapu32 card = card).
      { unfold prototype.wrapu32. apply Z.mod_small. split; [lia|].
        assert (cols <= cols * 2 ^ (nA + nX)) by nia. lia. }
      rewrite Hw1, Z.shiftl_mul_pow2 by lia.
      assert (Hw2 : prototype.wrapu32 (card * 2 ^ (bA + bX)) = card * 2 ^ (bA + bX)).
      { unfold prototype.wrapu32. apply Z.mod_small. lia. }
      rewrite Hw2, !wrap64_small by lia.
      assert (Ht : t bA bX
                   = (if xorb (Asigned && (bA =? nA - 1)) (xsigned && (bX =? nX - 1))
                      then - (2 ^ (bA + bX) * card) else 2 ^ (bA + bX) * card)).
      { rewrite weight_product by lia. unfold t, card.
        fold (wA bA). fold (wX bX). rewrite <- Zsum_scale.
        apply Zsum_ext. intros k _. ring. }
      rewrite Ht.
      destruct (xorb _ _).
      - rewrite wrap32_wrapu32. f_equal. ring.
      - f_equal. ring. }
  rewrite wrap_fold2. unfold t. rewrite Zsum_rotate.
  assert (Hval : forall sgn n v, 1 <= n ->
            spec.Zsum
              (fun b => (if sgn && (b =? n - 1) then - 2 ^ b else 2 ^ b)
                        * Z.b2z (Z.testbit v b)) (Zrange n)
            = meaning.low_bits sgn n v).
  { intros sgn n v Hn. rewrite <- planes_value by assumption.
    apply Zsum_ext. intros b _. rewrite andb_comm.
    destruct (Z.testbit v b); simpl; lia. }
  rewrite (Zsum_ext _
             (fun k => meaning.low_bits Asigned nA (nth (Z.to_nat k) row 0)
                       * meaning.low_bits xsigned nX (nth (Z.to_nat k) vec 0))).
  2:{ intros k _.
      rewrite (Zsum_product (fun bA => wA bA * al bA k) (fun bX => wX bX * xi bX k)).
      unfold wA, wX, al, xi. now rewrite !Hval by lia. }
  fold (meaning.dot (fun k => meaning.low_bits Asigned nA (nth (Z.to_nat k) row 0))
          (fun k => meaning.low_bits xsigned nX (nth (Z.to_nat k) vec 0)) cols).
  apply wrap32_small. unfold meaning.dot.
  pose proof (Zsum_abs_bound
                (fun k => meaning.low_bits Asigned nA (nth (Z.to_nat k) row 0)
                          * meaning.low_bits xsigned nX (nth (Z.to_nat k) vec 0))
                (Zrange cols) (2 ^ (nA + nX))) as Hb.
  rewrite Zrange_length, Z2Nat.id in Hb by assumption.
  assert (Hbound : Z.abs (spec.Zsum
                     (fun k => meaning.low_bits Asigned nA (nth (Z.to_nat k) row 0)
                               * meaning.low_bits xsigned nX (nth (Z.to_nat k) vec 0))
                     (Zrange cols)) <= cols * 2 ^ (nA + nX)).
  { apply Hb. intros k _. rewrite Z.abs_mul, Z.pow_add_r by lia.
    apply Z.mul_le_mono_nonneg; try apply Z.abs_nonneg; apply low_bits_abs; lia. }
  lia.
Qed.

(** X16: on a matrix and a vector encoded by [toBitSerialMatrix] and
    [toBitSerialVector] with 1 to 8 bits each, and as long as
    [cols * 2^(Abits + xbits) < 2^31], [bitSerialMatrixVector] returns, and
    entry [r] of its result is the inner product of row [r] and the vector,
    each byte read through its low bits, in two's complement for an operand
    flagged as signed. *)
Theorem bitSerialMatrixVector_computes_products (mat vec : list Z)
    (rows cols nA nX : Z) (Asigned xsigned : bool) (r : Z) :
  1 <= nA <= 8 -> 1 <= nX <= 8 -> 0 <= cols ->
  rows * cols < 2 ^ 64 -> cols * 2 ^ (nA + nX) < 2 ^ 31 ->
  0 <= r < rows ->
  exists ret,
    prototype.bitSerialMatrixVector
      (conversions.toBitSerialMatrix mat rows cols nA)
      (conversions.toBitSerialVector vec cols nX) cols Asigned xsigned
    = prototype.Ok ret
    /\ nth (Z.to_nat r) ret 0
       = meaning.dot
           (fun k => meaning.low_bits Asigned nA (nth (Z.to_nat (r * cols + k)) mat 0))
           (fun k => meaning.low_bits xsigned nX (nth (Z.to_nat k) vec 0)) cols.
Proof.
  intros HA HX Hcols Hsz Hfit Hr.
  rewrite toBitSerialMatrix_rows.
  rewrite ThresholdFacts.bitSerialMatrixVector_rows
    by (apply map_Zrange_nonempty; lia).
  eexists. split; [reflexivity|].
  rewrite size_map_Zrange by lia.
  rewrite (nth_map_Zrange _ rows r 0) by lia.
  change (nth 0 (map _ (Zrange rows)) []) with
    (nth (Z.to_nat 0)
       (map (fun r0 => conversions.toBitSerialVector
                         (skipn (Z.to_nat (wrap64 (r0 * cols))) mat) cols nA)
          (Zrange rows)) []).
  rewrite !nth_map_Zrange by lia.
  rewrite (toBitSerialVector_planes _ cols nA) at 1.
  rewrite size_map_Zrange by lia.
  rewrite row_accumulate_planes by assumption.
  destruct (row_offset rows cols r Hr Hcols Hsz) as (-> & Hoff & _).
  unfold meaning.dot. apply Zsum_ext. intros k Hk. apply Zrange_In in Hk.
  rewrite nth_skipn. do 3 f_equal. lia.
Qed.

Lemma bitSerialMatrixVector_computes_products_witness :
  exists ret,
    prototype.bitSerialMatrixVector
      (conversions.toBitSerialMatrix [1; 2; 3; 0; 2; 1] 2 3 2)
      (conversions.toBitSerialVector [3; 1; 2] 3 2) 3 true false
    = prototype.Ok ret
    /\ nth (Z.to_nat 1) ret 0
       = meaning.dot
           (fun k => meaning.low_bits true 2
                       (nth (Z.to_nat (1 * 3 + k)) [1; 2; 3; 0; 2; 1] 0))
           (fun k => meaning.low_bits false 2 (nth (Z.to_nat k) [3; 1; 2] 0)) 3.
Proof.
  apply (bitSerialMatrixVector_computes_products [1; 2; 3; 0; 2; 1] [3; 1; 2]
           2 3 2 2 true false 1); lia.
Defined.

(** ** Thresholding *)



Lemma filter_length_mono {A : Type} (P Q : A -> bool) (l : list A) :
  (forall x, In x l -> P x = true -> Q x = true) ->
  (length (filter P l) <= length (filter Q l))%nat.
Proof.
  induction l as [|a l IH]; intros H; simpl; [lia|].
  specialize (IH (fun x Hx => H x (or_intror Hx))).
  destruct (P a) eqn:EP.
  - rewrite (H a (or_introl eq_refl) EP). simpl. lia.
  - destruct (Q a); simpl; lia.
Qed.

Lemma crossed_bounds (T : prototype.ThresholdMatrix) (r v : Z) :
  0 <= spec.crossed T r v <= prototype.size T.
Proof.
  unfold spec.crossed. split; [lia|].
  pose proof (filter_length_le
                (fun t => v >=? nth (Z.to_nat r) (nth (Z.to_nat t) T []) 0)
                (Zrange (prototype.size T))) as H.
  rewrite Zrange_length in H. unfold prototype.size in *. lia.
Qed.

Lemma crossed_mono (T : prototype.ThresholdMatrix) (r v v' : Z) :
  v <= v' -> spec.crossed T r v <= spec.crossed T r v'.
Proof.
  intros Hv. unfold spec.crossed. apply inj_le. apply filter_length_mono.
  intros t _ H. rewrite Z.geb_leb in *. apply Z.leb_le in H. apply Z.leb_le. lia.
Qed.

Lemma threshold_returns (x : prototype.AccumulateVector)
    (T : prototype.ThresholdMatrix) (ret : prototype.ResultVector) :
  prototype.size T < 2 ^ 31 ->
  prototype.threshold x T = prototype.Ok ret ->
  ret = map (fun r => spec.crossed T r (nth (Z.to_nat r) x 0))
          (Zrange (prototype.size x)).
Proof.
  intros HT. unfold prototype.threshold.
  destruct T as [|T0 T']; [discriminate|].
  rewrite ThresholdFacts.threshold_rows_spec by (unfold prototype.size; lia || assumption).
  unfold spec.thresholded. destruct (_ || _); [|discriminate].
  intros E. now injection E as <-.
Qed.

(** X18: for fewer than 2^31 thresholds, when [threshold] returns, its
    result has one entry per row, each between 0 and the number of
    thresholds, and a row whose value is not smaller gets a level that is
    not smaller. *)
Theorem threshold_levels_are_bounded_and_monotone
    (x x' : prototype.AccumulateVector) (T : prototype.ThresholdMatrix)
    (ret ret' : prototype.ResultVector) :
  prototype.size T < 2 ^ 31 ->
  prototype.threshold x T = prototype.Ok ret ->
  length ret = length x
  /\ (forall r, 0 <= r < prototype.size x ->
        0 <= nth (Z.to_nat r) ret 0 <= prototype.size T)
  /\ (prototype.threshold x' T = prototype.Ok ret' ->
      forall r, 0 <= r < prototype.size x -> r < prototype.size x' ->
        nth (Z.to_nat r) x 0 <= nth (Z.to_nat r) x' 0 ->
        nth (Z.to_nat r) ret 0 <= nth (Z.to_nat r) ret' 0).
Proof.
  intros HT E. apply threshold_returns in E; [|assumption]. subst ret.
  split; [|split].
  - rewrite length_map, Zrange_length. unfold prototype.size. lia.
  - intros r Hr. rewrite (nth_map_Zrange _ _ r 0) by assumption.
    apply crossed_bounds.
  - intros E' r Hr Hr' Hle. apply threshold_returns in E'; [|assumption]. subst ret'.
    rewrite !(nth_map_Zrange _ _ r 0) by lia.
    now apply crossed_mono.
Qed.

Lemma threshold_levels_are_bounded_and_monotone_witness :
  length [1; 1] = length [2; 7]
  /\ (forall r, 0 <= r < prototype.size [2; 7] ->
        0 <= nth (Z.to_nat r) [1; 1] 0 <= prototype.size [[1; 5]; [3; 9]])
  /\ (prototype.threshold [4; 9] [[1; 5]; [3; 9]] = prototype.Ok [2; 2] ->
      forall r, 0 <= r < prototype.size [2; 7] -> r < prototype.size [4; 9] ->
        nth (Z.to_nat r) [2; 7] 0 <= nth (Z.to_nat r) [4; 9] 0 ->
        nth (Z.to_nat r) [1; 1] 0 <= nth (Z.to_nat r) [2; 2] 0).
Proof.
  apply (threshold_levels_are_bounded_and_monotone [2; 7] [4; 9] [[1; 5]; [3; 9]]
           [1; 1] [2; 2]); [vm_compute; reflexivity | reflexivity].
Defined.

(** ** Random vectors *)

(** X19: for non-negative values of [rand()] and 1 to 8 bits,
    [generateRandomVector] fills the buffer with [rand() mod (2^bits - 1)]:
    every byte is strictly below the largest [bits]-bit value [2^bits - 1];
    for [bits = 0] and a non-empty vector it divides by zero. *)
Theorem generateRandomVector_stays_below_maximum (rand : nat -> Z)
    (bits dim : Z) (ret : list Z) :
  (forall k, 0 <= rand k) ->
  (1 <= bits <= 8 ->
   exists out,
     conversions.generateRandomVector rand bits dim ret = Some out
     /\ length out = length ret
     /\ forall i, 0 <= i < dim -> (Z.to_nat i < length ret)%nat ->
          nth (Z.to_nat i) out 0 = rand (Z.to_nat i) mod (2 ^ bits - 1)
          /\ 0 <= nth (Z.to_nat i) out 0 < 2 ^ bits - 1)
  /\ (bits = 0 -> 0 < dim ->
      conversions.generateRandomVector rand bits dim ret = None).
Proof.
  intros Hrand. split.
  - intros Hb. unfold conversions.generateRandomVector.
    assert (Hp : 2 <= 2 ^ bits <= 2 ^ 8).
    { split; [|apply Z.pow_le_mono_r; lia].
      change 2 with (2 ^ 1) at 1. apply Z.pow_le_mono_r; lia. }
    assert (Hmax : to_uint8 (wrap32 (shl_int bits - 1)) = 2 ^ bits - 1).
    { rewrite shl_int_pow2 by lia. rewrite wrap32_small by lia.
      unfold to_uint8. apply Z.mod_small. lia. }
    rewrite Hmax.
    destruct (Z.eqb_spec (2 ^ bits - 1) 0) as [E|_]; [lia|]. simpl.
    eexists. split; [reflexivity|]. unfold list_store.
    split.
    + apply (stores_length Z.to_nat
               (fun i => to_uint8 (Z.rem (rand (Z.to_nat i)) (2 ^ bits - 1)))).
    + intros i Hi Hlen.
      rewrite (stores_nth Z.to_nat
                 (fun i => to_uint8 (Z.rem (rand (Z.to_nat i)) (2 ^ bits - 1)))
                 _ ret (Z.to_nat i) i).
      * rewrite Z.rem_mod_nonneg by (try apply Hrand; lia).
        pose proof (Z.mod_pos_bound (rand (Z.to_nat i)) (2 ^ bits - 1) ltac:(lia)) as Hm.
        unfold to_uint8. rewrite (Z.mod_small _ (2 ^ 8)) by lia.
        split; [reflexivity | assumption].
      * apply Zrange_In. assumption.
      * reflexivity.
      * assumption.
      * intros x Hx E. apply Zrange_In in Hx.
        replace x with i by lia. reflexivity.
  - intros -> Hdim. unfold conversions.generateRandomVector.
    replace (0 <? dim) with true by (symmetry; apply Z.ltb_lt; lia).
    reflexivity.
Qed.

Lemma generateRandomVector_stays_below_maximum_witness :
  (1 <= 8 <= 8 ->
   exists out,
     conversions.generateRandomVector (fun k => 1000 + Z.of_nat k) 8 2 [0; 0] = Some out
     /\ length out = length [0; 0]
     /\ forall i, 0 <= i < 2 -> (Z.to_nat i < length [0; 0])%nat ->
          nth (Z.to_nat i) out 0 = (fun k => 1000 + Z.of_nat k) (Z.to_nat i) mod (2 ^ 8 - 1)
          /\ 0 <= nth (Z.to_nat i) out 0 < 2 ^ 8 - 1)
  /\ (8 = 0 -> 0 < 2 ->
      conversions.generateRandomVector (fun k => 1000 + Z.of_nat k) 8 2 [0; 0] = None).
Proof.
  apply (generateRandomVector_stays_below_maximum (fun k => 1000 + Z.of_nat k) 8 2 [0; 0]).
  intros k. lia.
Defined.

(** * Further properties of the exporter and of the context *)

Lemma export_cell_ext (m m' : BitSerialMatrix) (r c : Z) :
  nbits m' = nbits m -> issigned m' = issigned m ->
  (forall b, 0 <= b < nbits m -> get m' b r c = get m b r c) ->
  export_cell m' r c = export_cell m r c.
Proof.
  intros Hnb Hsg Hget. unfold export_cell, isBipolar. rewrite Hnb, Hsg.
  destruct ((nbits m =? 1) && issigned m) eqn:Hbip.
  - apply andb_prop in Hbip. destruct Hbip as [Hone _]. apply Z.eqb_eq in Hone.
    rewrite Hget by lia. reflexivity.
  - apply fold_left_ext_in. intros a b Hb. apply Zrange_In in Hb.
    now rewrite Hget.
Qed.

(** X20: [exportRegular] keeps the length of the destination, leaves every
    position from [nrows * ncols] on untouched, and depends only on the bits
    of the logical cells: two matrices of the same precision, signedness and
    logical extents that agree there export the same buffer, whatever their
    padding holds. *)
Theorem exportRegular_reads_and_writes_logical_cells (m m' : BitSerialMatrix)
    (dst : list Z) :
  0 <= nrows m -> 0 <= ncols m -> nrows m * ncols m < 2 ^ 64 ->
  length (exportRegular m dst) = length dst
  /\ (forall p, nrows m * ncols m <= Z.of_nat p ->
        nth p (exportRegular m dst) 0 = nth p dst 0)
  /\ (nbits m' = nbits m -> issigned m' = issigned m ->
      nrows m' = nrows m -> ncols m' = ncols m ->
      (forall b r c, 0 <= b < nbits m -> 0 <= r < nrows m -> 0 <= c < ncols m ->
         get m' b r c = get m b r c) ->
      exportRegular m' dst = exportRegular m dst).
Proof.
  intros Hr Hc Hsz. split; [apply exportRegular_length|]. split.
  - intros p Hp. unfold exportRegular.
    rewrite (fold_left_pairs
               (fun d q => list_store (wrap64 (fst q * ncols m + snd q))
                             (export_cell m (fst q) (snd q)) d)).
    unfold list_store.
    apply (stores_other
             (fun q => Z.to_nat (wrap64 (fst q * ncols m + snd q)))
             (fun q => export_cell m (fst q) (snd q))).
    intros [r c] Hin. simpl.
    apply in_prod_iff in Hin. destruct Hin as [Hr' Hc'].
    apply Zrange_In in Hr', Hc'.
    assert ((r + 1) * ncols m <= nrows m * ncols m)
      by (apply Z.mul_le_mono_nonneg_r; lia).
    assert (0 <= r * ncols m) by (apply Z.mul_nonneg_nonneg; lia).
    rewrite wrap64_small by lia. lia.
  - intros Hnb Hsg Hnr Hnc Hget. unfold exportRegular. rewrite Hnr, Hnc.
    apply fold_left_ext_in. intros d r Hr'. apply Zrange_In in Hr'.
    apply fold_left_ext_in. intros d' c Hc'. apply Zrange_In in Hc'.
    f_equal. apply export_cell_ext; try assumption.
    intros b Hb. now apply Hget.
Qed.

Lemma exportRegular_reads_and_writes_logical_cells_witness :
  let m := spec.zero_bsm false 2 1 2 1 64 in
  let m' := set m 1 0 63 in
  length (exportRegular m [9; 9; 9]) = length [9; 9; 9]
  /\ (forall p, nrows m * ncols m <= Z.of_nat p ->
        nth p (exportRegular m [9; 9; 9]) 0 = nth p [9; 9; 9] 0)
  /\ (nbits m' = nbits m -> issigned m' = issigned m ->
      nrows m' = nrows m -> ncols m' = ncols m ->
      (forall b r c, 0 <= b < nbits m -> 0 <= r < nrows m -> 0 <= c < ncols m ->
         get m' b r c = get m b r c) ->
      exportRegular m' [9; 9; 9] = exportRegular m [9; 9; 9]).
Proof.
  apply (exportRegular_reads_and_writes_logical_cells
           (spec.zero_bsm false 2 1 2 1 64)
           (set (spec.zero_bsm false 2 1 2 1 64) 1 0 63) [9; 9; 9]);
    simpl; lia.
Defined.

(** X21: for positive arguments within bounds and buffers whose size fits
    in 64 bits, a context returned by [allocGEMMContext_base] holds two
    laid-out operands with the requested precisions, signedness and row
    counts, both of logical depth [depth] and of the same padded depth
    [alignTo(depth, regblock_d * 64)], and a result buffer of
    [lhsRows * rhsRows] cells. *)
Theorem allocGEMMContext_base_operands (fresh : nat -> Z)
    (lhsRows depth rhsRows lhsBits rhsBits : Z) (lhsSigned rhsSigned : bool)
    (regblock_lhs regblock_d regblock_rhs cacheBits : Z) (ctx : GEMMContext) :
  0 < lhsRows < 2 ^ 62 -> 0 < rhsRows < 2 ^ 62 -> 0 < depth < 2 ^ 62 ->
  0 < regblock_lhs < 2 ^ 62 -> 0 < regblock_d < 2 ^ 56 -> 0 < regblock_rhs < 2 ^ 62 ->
  0 < cacheBits -> 0 <= lhsBits -> 0 <= rhsBits ->
  lhsRows * rhsRows < 2 ^ 64 ->
  allocGEMMContext_base fresh lhsRows depth rhsRows lhsBits rhsBits
    lhsSigned rhsSigned regblock_lhs regblock_d regblock_rhs cacheBits = Some ctx ->
  (nbits (lhs ctx) + 1) * (nrows_a (lhs ctx) * (ncols_a (lhs ctx) / 64)) * 8 < 2 ^ 64 ->
  (nbits (rhs ctx) + 1) * (nrows_a (rhs ctx) * (ncols_a (rhs ctx) / 64)) * 8 < 2 ^ 64 ->
  spec.wf (lhs ctx) /\ spec.wf (rhs ctx)
  /\ (nbits (lhs ctx) = lhsBits /\ issigned (lhs ctx) = lhsSigned
      /\ nrows (lhs ctx) = lhsRows /\ ncols (lhs ctx) = depth)
  /\ (nbits (rhs ctx) = rhsBits /\ issigned (rhs ctx) = rhsSigned
      /\ nrows (rhs ctx) = rhsRows /\ ncols (rhs ctx) = depth)
  /\ ncols_a (lhs ctx) = alignTo depth (regblock_d * 64)
  /\ ncols_a (rhs ctx) = alignTo depth (regblock_d * 64)
  /\ (regblock_d * 64 | ncols_a (lhs ctx))
  /\ Z.of_nat (length (res ctx)) = lhsRows * rhsRows.
Proof.
  intros HlR HrR Hd Hrl Hrd Hrr Hcb HbL HbR Hres E HfitL HfitR.
  destruct (allocGEMMContext_base_ok fresh lhsRows depth rhsRows lhsBits rhsBits
              lhsSigned rhsSigned regblock_lhs regblock_d regblock_rhs cacheBits ctx
              HlR HrR Hd Hrl Hrd Hrr Hcb HbL HbR Hres E HfitL HfitR)
    as (HwfL & HwfR & _ & _ & HLB & HRB & _ & _ & Hlen).
  destruct (allocGEMMContext_base_parts _ _ _ _ _ _ _ _ _ _ _ _ ctx E)
    as (El & Er & _).
  assert (Hcol : wrap64 (regblock_d * 64) = regblock_d * 64)
    by (apply wrap64_small; lia).
  rewrite Hcol in El, Er.
  destruct (alloc_fields fresh lhsBits lhsRows depth lhsSigned (lhsBlock ctx)
              (regblock_d * 64) (lhs ctx) El)
    as (_ & _ & FnbL & FnrL & FncL & FsL & _ & FcaL & _).
  destruct (alloc_fields fresh rhsBits rhsRows depth rhsSigned (rhsBlock ctx)
              (regblock_d * 64) (rhs ctx) Er)
    as (_ & _ & FnbR & FnrR & FncR & FsR & _ & FcaR & _).
  split; [assumption|]. split; [assumption|].
  split; [repeat split; assumption|]. split; [repeat split; assumption|].
  split; [assumption|]. split; [assumption|]. split.
  - rewrite FcaL. apply alignTo_spec; lia.
  - rewrite Hlen, FnrL, FnrR. apply Z2Nat.id. nia.
Qed.

Lemma allocGEMMContext_base_operands_witness :
  exists ctx,
    allocGEMMContext_base (fun _ => 0) 20 64 20 2 2 false true 2 1 2 2000 = Some ctx
    /\ spec.wf (lhs ctx) /\ spec.wf (rhs ctx)
    /\ (nbits (lhs ctx) = 2 /\ issigned (lhs ctx) = false
        /\ nrows (lhs ctx) = 20 /\ ncols (lhs ctx) = 64)
    /\ (nbits (rhs ctx) = 2 /\ issigned (rhs ctx) = true
        /\ nrows (rhs ctx) = 20 /\ ncols (rhs ctx) = 64)
    /\ ncols_a (lhs ctx) = alignTo 64 (1 * 64)
    /\ ncols_a (rhs ctx) = alignTo 64 (1 * 64)
    /\ (1 * 64 | ncols_a (lhs ctx))
    /\ Z.of_nat (length (res ctx)) = 20 * 20.
Proof.
  eexists. split; [vm_compute; reflexivity|].
  apply (allocGEMMContext_base_operands (fun _ => 0)
           20 64 20 2 2 false true 2 1 2 2000); try lia; vm_compute; reflexivity.
Defined.

(** ** Row pointers *)

(** X22: in a laid-out matrix, [rowptr(bit, row)] points to the word
    [(bit * nrows_a + row) * wordsPerRow] of the buffer; the [wordsPerRow]
    words from there lie inside the buffer and hold the columns of that row,
    column [c] in the word [c / 64]; [bitplaneptr(bit)] is [rowptr(bit, 0)];
    and the words of two different rows do not overlap. *)
Theorem rowptr_rows_are_disjoint (m : BitSerialMatrix) (b r b' r' : Z) :
  spec.wf m ->
  0 <= b < nbits m -> 0 <= r < nrows_a m ->
  0 <= b' < nbits m -> 0 <= r' < nrows_a m ->
  pointers.rowptr m b r = (b * nrows_a m + r) * wordsPerRow m
  /\ pointers.rowptr m b r + wordsPerRow m <= Z.of_nat (length (data m))
  /\ (forall c, 0 <= c < ncols_a m ->
        word_index m b r c = pointers.rowptr m b r + c / 64
        /\ 0 <= c / 64 < wordsPerRow m)
  /\ pointers.bitplaneptr m b = pointers.rowptr m b 0
  /\ ((b, r) <> (b', r') ->
      pointers.rowptr m b r + wordsPerRow m <= pointers.rowptr m b' r'
      \/ pointers.rowptr m b' r' + wordsPerRow m <= pointers.rowptr m b r).
Proof.
  intros Hwf Hb Hr Hb' Hr'.
  pose proof (wordsPerBitplane_wf m Hwf) as Hwpb.
  pose proof Hwf as (Hn & Hrows & Hcols & Hmod & Hw & Hbytes & Hlen).
  unfold pointers.rowptr, pointers.bitplaneptr. rewrite Hwpb.
  unfold wordsPerRow in *. set (W := ncols_a m / 64) in *.
  assert (HW : 0 <= W) by (apply Z.div_pos; lia).
  assert (Hplane : 0 <= nrows_a m * W) by (apply Z.mul_nonneg_nonneg; lia).
  assert (Hrow : forall b0 r0, 0 <= b0 < nbits m -> 0 <= r0 < nrows_a m ->
            b0 * (nrows_a m * W) + r0 * W = (b0 * nrows_a m + r0) * W
            /\ 0 <= (b0 * nrows_a m + r0) * W
            /\ (b0 * nrows_a m + r0) * W + W <= nbits m * (nrows_a m * W)).
  { intros b0 r0 Hb0 Hr0.
    assert (K1 : (b0 + 1) * (nrows_a m * W) <= nbits m * (nrows_a m * W))
      by (apply Z.mul_le_mono_nonneg_r; lia).
    assert (K2 : (r0 + 1) * W <= nrows_a m * W)
      by (apply Z.mul_le_mono_nonneg_r; lia).
    assert (K3 : 0 <= b0 * (nrows_a m * W)) by (apply Z.mul_nonneg_nonneg; lia).
    assert (K4 : 0 <= r0 * W) by (apply Z.mul_nonneg_nonneg; lia).
    split; [ring|]. lia. }
  destruct (Hrow b r Hb Hr) as (E & Hlo & Hhi).
  destruct (Hrow b' r' Hb' Hr') as (E' & Hlo' & Hhi').
  rewrite Z.mul_0_l, Z.add_0_r.
  rewrite !wrap64_small by lia.
  split; [exact E|]. split; [lia|]. split; [|split].
  - intros c Hc.
    destruct (word_index_wf m Hwf b r c) as (Ew & Hq & _); [repeat split; lia|].
    fold W in Ew, Hq. split; [lia | assumption].
  - reflexivity.
  - intros Hne. rewrite E, E'.
    assert (Hq : b * nrows_a m + r <> b' * nrows_a m + r').
    { intros Heq.
      destruct (mixed_radix_inj (nrows_a m) b r b' r' Hr Hr' Heq) as [-> ->].
      now apply Hne. }
    destruct (Z_lt_le_dec (b * nrows_a m + r) (b' * nrows_a m + r')) as [Hlt|Hge].
    + left.
      assert ((b * nrows_a m + r + 1) * W <= (b' * nrows_a m + r') * W)
        by (apply Z.mul_le_mono_nonneg_r; lia).
      lia.
    + right.
      assert ((b' * nrows_a m + r' + 1) * W <= (b * nrows_a m + r) * W)
        by (apply Z.mul_le_mono_nonneg_r; lia).
      lia.
Qed.

Lemma rowptr_rows_are_disjoint_witness :
  let m := spec.zero_bsm false 2 3 70 4 128 in
  pointers.rowptr m 1 2 = (1 * nrows_a m + 2) * wordsPerRow m
  /\ pointers.rowptr m 1 2 + wordsPerRow m <= Z.of_nat (length (data m))
  /\ (forall c, 0 <= c < ncols_a m ->
        word_index m 1 2 c = pointers.rowptr m 1 2 + c / 64
        /\ 0 <= c / 64 < wordsPerRow m)
  /\ pointers.bitplaneptr m 1 = pointers.rowptr m 1 0
  /\ ((1, 2) <> (0, 3) ->
      pointers.rowptr m 1 2 + wordsPerRow m <= pointers.rowptr m 0 3
      \/ pointers.rowptr m 0 3 + wordsPerRow m <= pointers.rowptr m 1 2).
Proof.
  apply (rowptr_rows_are_disjoint (spec.zero_bsm false 2 3 70 4 128) 1 2 0 3);
    solve_wf.
Defined.

(** ** The thresholded product of encoded operands *)



(** * The source of an import *)

Lemma store_bits_extents (m : BitSerialMatrix) (u r c : Z) :
  nrows (store_bits m u r c) = nrows m /\ ncols (store_bits m u r c) = ncols m.
Proof.
  unfold store_bits. generalize (Zrange (nbits m)). intros l. revert m.
  induction l as [|b l IH]; intros m; simpl; [now split|].
  destruct (IH (if negb (Z.land u (shl_int b) =? 0) then set m b r c else m))
    as [-> ->].
  destruct (negb _); split; reflexivity.
Qed.

Lemma import_cell_extents (matrix : list Z) (readColMajor : bool)
    (m : BitSerialMatrix) (r c : Z) :
  nrows (import_cell matrix readColMajor m r c) = nrows m
  /\ ncols (import_cell matrix readColMajor m r c) = ncols m.
Proof.
  unfold import_cell. destruct (isBipolar m).
  - destruct (_ >? 0); split; reflexivity.
  - apply store_bits_extents.
Qed.

(** X24: [importRegular] depends on its source only through the elements
    that it reads for the logical cells: two sources, row-major or
    column-major, that give the same element for every logical cell are
    imported to the same matrix. *)
Theorem importRegular_depends_on_elements_read (m : BitSerialMatrix)
    (matrix matrix' : list Z) (readColMajor readColMajor' : bool) :
  (forall r c, 0 <= r < nrows m -> 0 <= c < ncols m ->
     read_elem m matrix readColMajor r c = read_elem m matrix' readColMajor' r c) ->
  importRegular m matrix readColMajor = importRegular m matrix' readColMajor'.
Proof.
  intros Hsame. unfold importRegular.
  set (P := fun m1 : BitSerialMatrix => nrows m1 = nrows m /\ ncols m1 = ncols m).
  apply (fold_left_agree P).
  - split; reflexivity.
  - intros m1 r Hr [Hnr Hnc]. apply Zrange_In in Hr. rewrite Hnc.
    apply (fold_left_agree P); [now split|].
    intros m2 c Hc [Hnr2 Hnc2]. apply Zrange_In in Hc.
    assert (Hread : read_elem m2 matrix readColMajor r c
                    = read_elem m2 matrix' readColMajor' r c).
    { specialize (Hsame r c Hr Hc). unfold read_elem in *.
      now rewrite Hnr2, Hnc2. }
    split.
    + unfold import_cell. now rewrite Hread.
    + destruct (import_cell_extents matrix' readColMajor' m2 r c) as [E1 E2].
      split; congruence.
Qed.

Lemma importRegular_depends_on_elements_read_witness :
  importRegular (spec.zero_bsm false 2 2 2 2 64) [1; 3; 2; 0] true
  = importRegular (spec.zero_bsm false 2 2 2 2 64) [1; 2; 3; 0] false.
Proof.
  apply (importRegular_depends_on_elements_read (spec.zero_bsm false 2 2 2 2 64)
           [1; 3; 2; 0] [1; 2; 3; 0] true false).
  intros r c Hr Hc. simpl in Hr, Hc.
  assert (Er : r = 0 \/ r = 1) by lia. assert (Ec : c = 0 \/ c = 1) by lia.
  destruct Er as [-> | ->], Ec as [-> | ->]; reflexivity.
Defined.

(** * Exporting a quantised matrix *)



